(** * Google-drive-cdn-worker: the Drive client of [src/lib/drive.js]

    A shallow embedding of the credential resolver, the token cache and
    rotation controller, the JWT assertion builder and the listing query
    builder of [DriveClient], with the properties stated by the
    specification proved (or refuted) on the embedding.

    Conventions.
    - A JavaScript string is a Rocq [string]; each [ascii] is one code unit
      in the range 0..255, the range on which [btoa] is defined.
    - A JavaScript integer is a [Z]; [Date.now()] is a [Z] of epoch
      milliseconds.
    - [undefined] / a missing property is [None].
    - The platform (network, clock, [JSON.parse], WebCrypto, the bundler's
      dynamic import) is a record of oracles, [World]. *)

From Stdlib Require Import ZArith NArith String Ascii List Lia Bool.
From stdpp Require Import base option list strings gmap pretty.

Open Scope string_scope.
Open Scope list_scope.
Open Scope Z_scope.

(* ===================================================================== *)
(** * Strings as JavaScript uses them *)
(* ===================================================================== *)

Module JsString.

(** The double-quote character, U+0022. *)
Definition dquote : ascii := ascii_of_N 34.
(** The apostrophe, U+0027, and the backslash, U+005C. *)
Definition squote : ascii := ascii_of_N 39.
Definition backslash : ascii := ascii_of_N 92.

Definition ascii_eqb (a b : ascii) : bool := Ascii.eqb a b.

(** [s.replace(/c/g, r)] for a one-character pattern [c]: every occurrence
    of [c] is replaced by the string [r]. *)
Fixpoint replace_all (c : ascii) (r : string) (s : string) : string :=
  match s with
  | EmptyString => EmptyString
  | String a rest =>
      if ascii_eqb a c then r +:+ replace_all c r rest
      else String a (replace_all c r rest)
  end.

(** Code units that [String.prototype.trim] removes, restricted to the
    range 0..255: TAB, LF, VT, FF, CR, SPACE and NBSP. *)
Definition is_space (a : ascii) : bool :=
  let n := N_of_ascii a in
  ((9 <=? n) && (n <=? 13) || (n =? 32) || (n =? 160))%N.

Fixpoint trim_start (s : string) : string :=
  match s with
  | EmptyString => EmptyString
  | String a rest => if is_space a then trim_start rest else s
  end.

(** Drops the white space at the end: a character is kept when it is not
    a space or when something is kept after it. *)
Fixpoint trim_end (s : string) : string :=
  match s with
  | EmptyString => EmptyString
  | String a rest =>
      match trim_end rest with
      | EmptyString => if is_space a then EmptyString else String a EmptyString
      | kept => String a kept
      end
  end.

Definition trim (s : string) : string := trim_end (trim_start s).

(** JavaScript truthiness of a string: only the empty string is falsy. *)
Definition truthy (s : string) : bool :=
  match s with EmptyString => false | String _ _ => true end.

(** [o] as a condition, for a value that is a string or [undefined]. *)
Definition truthy_opt (o : option string) : bool :=
  match o with Some s => truthy s | None => false end.

(** [s.split(sep)] for a non-empty separator: the pieces between the
    successive leftmost, non-overlapping occurrences of [sep]. [cur] is
    the piece being read, in reverse; [skip] counts the characters of a
    separator just matched that are still to be passed over. *)
Fixpoint split_go (sep : string) (skip : nat) (cur : list ascii) (s : string)
  : list string :=
  match s with
  | EmptyString => [string_of_list_ascii (rev cur)]
  | String a rest =>
      match skip with
      | S k => split_go sep k cur rest
      | O =>
          if String.prefix sep s
          then string_of_list_ascii (rev cur)
               :: split_go sep (String.length sep - 1) [] rest
          else split_go sep 0 (a :: cur) rest
      end
  end.

Definition split (sep : string) (s : string) : list string :=
  split_go sep 0 [] s.

(** [parts.join(sep)]. *)
Definition join (sep : string) (parts : list string) : string :=
  String.concat sep parts.

(** Whether the character [c] occurs in [s]. *)
Fixpoint occurs (c : ascii) (s : string) : bool :=
  match s with
  | EmptyString => false
  | String a rest => ascii_eqb a c || occurs c rest
  end.

End JsString.

(* ===================================================================== *)
(** * Base64 and the JWT assertion (drive.js, lines 510-570) *)
(* ===================================================================== *)

Module Base64.
Import JsString.

Definition alphabet : string :=
  "ABCDEFGHIJKLMNOPQRSTUVWXYZabcdefghijklmnopqrstuvwxyz0123456789+/".

Definition pad : ascii := "="%char.

(** The character of the 6-bit value [v]. *)
Definition digit (v : N) : ascii :=
  match String.get (N.to_nat v) alphabet with
  | Some c => c
  | None => pad
  end.

(** The platform's [btoa] on a binary string (RFC 4648, section 4):
    three bytes give four digits; one or two trailing bytes give two or
    three digits and are padded with [=] to four characters. *)
Fixpoint btoa (s : string) : string :=
  match s with
  | EmptyString => EmptyString
  | String a EmptyString =>
      let x := N_of_ascii a in
      String (digit (x / 4)) (String (digit (x mod 4 * 16))
        (String pad (String pad EmptyString)))
  | String a (String b EmptyString) =>
      let x := N_of_ascii a in
      let y := N_of_ascii b in
      String (digit (x / 4)) (String (digit (x mod 4 * 16 + y / 16))
        (String (digit (y mod 16 * 4)) (String pad EmptyString)))
  | String a (String b (String c rest)) =>
      let x := N_of_ascii a in
      let y := N_of_ascii b in
      let z := N_of_ascii c in
      String (digit (x / 4)) (String (digit (x mod 4 * 16 + y / 16))
        (String (digit (y mod 16 * 4 + z / 64)) (String (digit (z mod 64))
          (btoa rest))))
  end%N.

(** [s.replace(/=+$/, '')]: the run of [=] that ends the string is
    removed. *)
Fixpoint strip_pad (s : string) : string :=
  match s with
  | EmptyString => EmptyString
  | String a rest =>
      match strip_pad rest with
      | EmptyString => if ascii_eqb a pad then EmptyString else String a EmptyString
      | kept => String a kept
      end
  end.

(** [.replace(/\+/g, '-').replace(/\//g, '_').replace(/=+$/, '')], the
    tail shared by [base64UrlEncode] and [sign]. *)
Definition to_url (s : string) : string :=
  strip_pad (replace_all "/"%char "_" (replace_all "+"%char "-" s)).

Definition base64UrlEncode (input : string) : string := to_url (btoa input).

(** [arrayBufferToBase64]: the bytes of the buffer, one character each,
    through [btoa]. *)
Definition arrayBufferToBase64 (buffer : string) : string := btoa buffer.

(** Decoding, as RFC 4648 section 5 defines base64url without padding.
    This is the reader's side of the round trip; the source only encodes. *)
Definition url_value (c : ascii) : option N :=
  let n := N_of_ascii c in
  (if (65 <=? n) && (n <=? 90) then Some (n - 65)
   else if (97 <=? n) && (n <=? 122) then Some (n - 71)
   else if (48 <=? n) && (n <=? 57) then Some (n + 4)
   else if n =? 45 then Some 62
   else if n =? 95 then Some 63
   else None)%N.

Fixpoint base64UrlDecode (s : string) : option string :=
  match s with
  | EmptyString => Some EmptyString
  | String _ EmptyString => None
  | String c1 (String c2 EmptyString) =>
      v1 ← url_value c1; v2 ← url_value c2;
      Some (String (ascii_of_N (v1 * 4 + v2 / 16)) EmptyString)
  | String c1 (String c2 (String c3 EmptyString)) =>
      v1 ← url_value c1; v2 ← url_value c2; v3 ← url_value c3;
      Some (String (ascii_of_N (v1 * 4 + v2 / 16))
             (String (ascii_of_N (v2 mod 16 * 16 + v3 / 4)) EmptyString))
  | String c1 (String c2 (String c3 (String c4 rest))) =>
      v1 ← url_value c1; v2 ← url_value c2; v3 ← url_value c3;
      v4 ← url_value c4; tail ← base64UrlDecode rest;
      Some (String (ascii_of_N (v1 * 4 + v2 / 16))
             (String (ascii_of_N (v2 mod 16 * 16 + v3 / 4))
               (String (ascii_of_N (v3 mod 4 * 64 + v4)) tail)))
  end%N.

(** What the two [replace] calls of [to_url] do to one character. *)
Definition url_char (c : ascii) : ascii :=
  if ascii_eqb c "+" then "-"%char
  else if ascii_eqb c "/" then "_"%char
  else c.

Fixpoint smap (f : ascii -> ascii) (s : string) : string :=
  match s with
  | EmptyString => EmptyString
  | String a rest => String (f a) (smap f rest)
  end.

Fixpoint all_chars (P : ascii -> bool) (s : string) : bool :=
  match s with
  | EmptyString => true
  | String a rest => P a && all_chars P rest
  end.

(** The 64 characters of the base64url alphabet. *)
Definition is_url_digit (c : ascii) : bool :=
  match url_value c with Some _ => true | None => false end.

End Base64.

Module Json.
Import JsString.

Definition hex_digit (v : N) : ascii :=
  match String.get (N.to_nat v) "0123456789abcdef" with
  | Some c => c
  | None => "0"%char
  end.

(** How [JSON.stringify] writes one character of a string: the quote and
    the backslash are escaped, control characters below U+0020 take their
    short form or a [\u00xx] form, everything else is copied. *)
Definition quote_char (c : ascii) : string :=
  let n := N_of_ascii c in
  (if n =? 34 then String backslash (String dquote EmptyString)
   else if n =? 92 then String backslash (String backslash EmptyString)
   else if n =? 8 then String backslash "b"
   else if n =? 9 then String backslash "t"
   else if n =? 10 then String backslash "n"
   else if n =? 12 then String backslash "f"
   else if n =? 13 then String backslash "r"
   else if n <? 32 then
     String backslash ("u00" +:+ String (hex_digit (n / 16))
                                  (String (hex_digit (n mod 16)) EmptyString))
   else String c EmptyString)%N.

Fixpoint quote_body (s : string) : string :=
  match s with
  | EmptyString => EmptyString
  | String c rest => quote_char c +:+ quote_body rest
  end.

(** [JSON.stringify(s)] for a string [s]. *)
Definition quote (s : string) : string :=
  String dquote (quote_body s +:+ String dquote EmptyString).

(** [JSON.stringify(n)] for an integer [n]. *)
Definition number (n : Z) : string := pretty n.

(** One member of an object: a property whose value is [undefined] is
    left out by [JSON.stringify]. *)
Definition member (key : string) (value : option string) : list string :=
  match value with
  | Some v => [quote key +:+ ":" +:+ v]
  | None => []
  end.

(** [JSON.stringify] of an object whose members are given in insertion
    order, each value already serialised. *)
Definition object (members : list string) : string :=
  "{" +:+ join "," members +:+ "}".

End Json.

(* ===================================================================== *)
(** * Data model *)
(* ===================================================================== *)

Definition DRIVE_SCOPE : string := "https://www.googleapis.com/auth/drive".
Definition TOKEN_ENDPOINT : string := "https://oauth2.googleapis.com/token".
Definition MAX_LIST_PAGE_SIZE : Z := 100.

(** The outcome of an operation that may throw; an [Error] object is kept
    as its message. *)
Inductive Try (A : Type) : Type :=
| Ok (value : A)
| Throws (message : string).
Arguments Ok {A} value.
Arguments Throws {A} message.

(** A service-account key as it is read from JSON: an object whose members,
    when present, are strings. *)
Record ServiceAccount : Type := {
  client_email : option string;
  private_key : option string;
  project_id : option string;
}.

Global Instance ServiceAccount_eq_dec : EqDecision ServiceAccount.
Proof. solve_decision. Defined.

(** The JSON body of a token-endpoint reply. *)
Record TokenJson : Type := {
  access_token : option string;
  expires_in : option Z;
  error_description : option string;
}.

(** An entry of [cachedTokens]. *)
Record CachedToken : Type := {
  token : option string;
  expiresAt : Z;
}.

(** A credential document, bundled or fetched: [accounts] is [Some l] when
    [data.accounts] is an array, whatever its length. *)
Record Doc : Type := {
  accounts : option (list ServiceAccount);
}.

(** What [fetch(url)] followed by [response.json()] can give. *)
Inductive FetchOutcome : Type :=
| FetchThrows (message : string)
| FetchResponse (ok : bool) (body : Try Doc).

(** What a POST to the token endpoint can give: a thrown error ([fetch] or
    [res.json()]), or a response with its [ok] flag and JSON body. *)
Inductive HttpResult : Type :=
| NetworkFailure (message : string)
| HttpResponse (ok : bool) (json : TokenJson).

(** A settled promise of the network: the clock reading when the awaiting
    code resumes, and what it resumes with. *)
Record Settled (A : Type) : Type := {
  settled_at : Z;
  settled : A;
}.
Arguments settled_at {A} _.
Arguments settled {A} _.

(** The platform the client runs on. *)
Record World : Type := {
  (** what [import('../service-accounts.json')] resolves to after the
      [.then]/[.catch] of lines 77-85: the default export, or [None] when
      the import is rejected (then the promise yields [null]) *)
  import_bundled : option Doc;
  (** [fetch(url)] and [response.json()] of the remote credential URL,
      requested at a given time *)
  http_get : string -> Z -> Settled FetchOutcome;
  (** [JSON.parse] of one credential blob; [Throws] is a [SyntaxError] *)
  JSON_parse : string -> Try ServiceAccount;
  (** WebCrypto: import of the PEM key and RSASSA-PKCS1-v1_5 signature of
      the input; the bytes of the signature, or the error thrown *)
  crypto_sign : string -> option string -> Try string;
  (** the token endpoint, for an assertion posted at a given time *)
  post_assertion : string -> Z -> Settled HttpResult;
  (** the token endpoint, for a refresh-token grant (client id, client
      secret, refresh token) posted at a given time *)
  post_refresh : string -> string -> string -> Z -> Settled HttpResult;
}.

(** What the client does that the outside can observe. *)
Inductive Event : Type :=
| EvImport
| EvFetch (url : string)
| EvEnvRead (key : string)
| EvMint (sa : ServiceAccount)
| EvRefresh
| EvLog (text : string)
| EvWarn (text : string)
| EvError (text : string).

(** The module-level promise of the bundled import. *)
Inductive PromiseState : Type :=
| Pending
| Fulfilled (module : option Doc).

(** The fields of a [DriveClient]. *)
Record DriveClient : Type := {
  clientId : option string;
  clientSecret : option string;
  refreshToken : option string;
  env : gmap string string;
  serviceAccounts : list ServiceAccount;
  currentServiceAccountIndex : nat;
  accountsLoaded : bool;
  parents : list string;
  cachedTokens : gmap string CachedToken;
}.

Definition with_accounts (this : DriveClient) (l : list ServiceAccount)
    (loaded : bool) : DriveClient :=
  {| clientId := clientId this; clientSecret := clientSecret this;
     refreshToken := refreshToken this; env := env this;
     serviceAccounts := l;
     currentServiceAccountIndex := currentServiceAccountIndex this;
     accountsLoaded := loaded; parents := parents this;
     cachedTokens := cachedTokens this |}.

Definition with_index (this : DriveClient) (i : nat) : DriveClient :=
  {| clientId := clientId this; clientSecret := clientSecret this;
     refreshToken := refreshToken this; env := env this;
     serviceAccounts := serviceAccounts this;
     currentServiceAccountIndex := i;
     accountsLoaded := accountsLoaded this; parents := parents this;
     cachedTokens := cachedTokens this |}.

Definition with_cache (this : DriveClient) (c : gmap string CachedToken)
    : DriveClient :=
  {| clientId := clientId this; clientSecret := clientSecret this;
     refreshToken := refreshToken this; env := env this;
     serviceAccounts := serviceAccounts this;
     currentServiceAccountIndex := currentServiceAccountIndex this;
     accountsLoaded := accountsLoaded this; parents := parents this;
     cachedTokens := c |}.

(** [x || d] for a string-or-undefined [x]. *)
Definition or_else (x : option string) (d : string) : string :=
  match x with
  | Some s => if JsString.truthy s then s else d
  | None => d
  end.

(** [new DriveClient(env)], lines 43-59. *)
Definition new_DriveClient (e : gmap string string) : DriveClient :=
  {| clientId := e !! "GOOGLE_CLIENT_ID";
     clientSecret := e !! "GOOGLE_CLIENT_SECRET";
     refreshToken := e !! "GOOGLE_REFRESH_TOKEN";
     env := e;
     serviceAccounts := [];
     currentServiceAccountIndex := 0;
     accountsLoaded := false;
     parents :=
       List.filter JsString.truthy
         (List.map JsString.trim
            (JsString.split "," (or_else (e !! "DRIVE_UPLOAD_ROOT") EmptyString)));
     cachedTokens := ∅ |}.

(* ===================================================================== *)
(** * The JWT assertion (lines 510-547) *)
(* ===================================================================== *)

Definition jwt_header : string :=
  Json.object (Json.member "alg" (Some (Json.quote "RS256"))
               ++ Json.member "typ" (Some (Json.quote "JWT"))).

(** [JSON.stringify(payload)]: the members in the order the object literal
    gives them; [iss] is left out when the record has no [client_email]. *)
Definition jwt_payload (sa : ServiceAccount) (iat : Z) : string :=
  Json.object (Json.member "iss" (Json.quote <$> client_email sa)
               ++ Json.member "scope" (Some (Json.quote DRIVE_SCOPE))
               ++ Json.member "aud" (Some (Json.quote TOKEN_ENDPOINT))
               ++ Json.member "exp" (Some (Json.number (iat + 3600)))
               ++ Json.member "iat" (Some (Json.number iat))).

(** [sign(input, privateKey)], lines 533-547. *)
Definition sign (W : World) (input : string) (privateKey : option string)
    : Try string :=
  match crypto_sign W input privateKey with
  | Ok signature => Ok (Base64.to_url (Base64.arrayBufferToBase64 signature))
  | Throws m => Throws m
  end.

(** [generateServiceAccountAssertion(serviceAccount)] when [Date.now()]
    reads [now]. *)
Definition generateServiceAccountAssertion (W : World) (sa : ServiceAccount)
    (now : Z) : Try string :=
  let iat := now / 1000 in
  let encHeader := Base64.base64UrlEncode jwt_header in
  let encPayload := Base64.base64UrlEncode (jwt_payload sa iat) in
  match sign W (encHeader +:+ "." +:+ encPayload) (private_key sa) with
  | Ok signature => Ok (encHeader +:+ "." +:+ encPayload +:+ "." +:+ signature)
  | Throws m => Throws m
  end.

(** ** The assertion as the specification words it *)

(** A text in which every apostrophe stands for a double quote: the JSON
    texts below are written in this way. *)
Definition json_text (s : string) : string :=
  JsString.replace_all JsString.squote (String JsString.dquote EmptyString) s.

(** The JSON text of the header [{alg: RS256, typ: JWT}]. *)
Definition header_json : string := json_text "{'alg':'RS256','typ':'JWT'}".

(** The JSON text of the payload [{iss: client_email, scope: drive-scope,
    aud: token-endpoint, exp: iat + 3600, iat}], member by member in the
    order of the object literal; [iss] is the JSON text of the
    [client_email], and the member is absent when the record has none. *)
Definition payload_json (iss : option string) (iat : Z) : string :=
  "{"
  +:+ match iss with
      | Some email => json_text "'iss':" +:+ email +:+ ","
      | None => EmptyString
      end
  +:+ json_text "'scope':'https://www.googleapis.com/auth/drive','aud':'https://oauth2.googleapis.com/token','exp':"
  +:+ pretty (iat + 3600)
  +:+ json_text ",'iat':"
  +:+ pretty iat
  +:+ "}".

(** A character that a JSON string holds as it is: not a control
    character, a double quote or a backslash. *)
Definition json_plain (c : ascii) : bool :=
  let n := N_of_ascii c in
  ((32 <=? n) && negb (n =? 34) && negb (n =? 92))%N.

(** The common end of [fetchServiceAccountToken] and [refreshUserToken]:
    a reply that is not [ok] is thrown with its description. *)
Definition token_reply (fallback : string) (r : Settled HttpResult)
    : Settled (Try TokenJson) :=
  {| settled_at := settled_at r;
     settled :=
       match settled r with
       | NetworkFailure m => Throws m
       | HttpResponse ok json =>
           if negb ok then Throws (or_else (error_description json) fallback)
           else Ok json
       end |}.

(** [fetchServiceAccountToken(serviceAccount)], lines 492-508, called when
    the clock reads [now]. *)
Definition fetchServiceAccountToken (W : World) (sa : ServiceAccount) (now : Z)
    : Settled (Try TokenJson) :=
  match generateServiceAccountAssertion W sa now with
  | Throws m => {| settled_at := now; settled := Throws m |}
  | Ok assertion =>
      token_reply "Failed to exchange service account JWT"
        (post_assertion W assertion now)
  end.

(** [refreshUserToken({clientId, clientSecret, refreshToken})], lines
    470-490. *)
Definition refreshUserToken (W : World) (id secret refresh : option string)
    (now : Z) : Settled (Try TokenJson) :=
  match id, secret, refresh with
  | Some i, Some s, Some r =>
      if JsString.truthy i && JsString.truthy s && JsString.truthy r
      then token_reply "Failed to refresh token" (post_refresh W i s r now)
      else {| settled_at := now;
              settled := Throws "Missing OAuth client credentials for refresh flow" |}
  | _, _, _ =>
      {| settled_at := now;
         settled := Throws "Missing OAuth client credentials for refresh flow" |}
  end.


(* ===================================================================== *)
(** * Credential resolution (lines 38-40 and 69-169) *)
(* ===================================================================== *)

(** The two module-level variables of lines 39-40. *)
Record Globals : Type := {
  bundledServiceAccountsCache : option Doc;
  bundledServiceAccountsPromise : option PromiseState;
}.

(** The state a call runs in: the module variables, the client, the clock
    and the trace of what has been done so far (oldest event first). *)
Record Sys : Type := {
  globals : Globals;
  this : DriveClient;
  clock : Z;
  log : list Event;
}.

Definition set_globals (s : Sys) (g : Globals) : Sys :=
  {| globals := g; this := this s; clock := clock s; log := log s |}.
Definition set_this (s : Sys) (c : DriveClient) : Sys :=
  {| globals := globals s; this := c; clock := clock s; log := log s |}.
Definition set_clock (s : Sys) (t : Z) : Sys :=
  {| globals := globals s; this := this s; clock := t; log := log s |}.
Definition emit (s : Sys) (evs : list Event) : Sys :=
  {| globals := globals s; this := this s; clock := clock s;
     log := log s ++ evs |}.

(** [env[key]] as a condition: the value when it is a non-empty string. *)
Definition env_get (e : gmap string string) (key : string) : option string :=
  match e !! key with
  | Some v => if JsString.truthy v then Some v else None
  | None => None
  end.

(** The body of the [try] of lines 140-149: the blobs are parsed in order
    and pushed; the first [SyntaxError] leaves the loop for the [catch]. *)
Fixpoint parse_joined (W : World) (accountStrings : list string)
    (acc : list ServiceAccount) : list ServiceAccount * list Event :=
  match accountStrings with
  | [] => (acc, [])
  | accountStr :: rest =>
      if JsString.truthy (JsString.trim accountStr) then
        match JSON_parse W (JsString.trim accountStr) with
        | Ok sa => parse_joined W rest (acc ++ [sa])
        | Throws _ => (acc, [EvWarn "Failed to parse GDRIVE_SERVICE_ACCOUNTS"])
        end
      else parse_joined W rest acc
  end.

Definition numbered_key (i : nat) : string :=
  "GDRIVE_SERVICE_ACCOUNT_" +:+ pretty i.

(** The loop of lines 154-166, with [n] iterations left and the counter at
    [i]. *)
Fixpoint parse_numbered (W : World) (e : gmap string string) (n i : nat)
    (acc : list ServiceAccount) : list ServiceAccount * list Event :=
  match n with
  | O => (acc, [])
  | S n' =>
      let key := numbered_key i in
      match env_get e key with
      | Some v =>
          match JSON_parse W v with
          | Ok sa =>
              let r := parse_numbered W e n' (S i) (acc ++ [sa]) in
              (r.1, EvEnvRead key :: r.2)
          | Throws _ =>
              let r := parse_numbered W e n' (S i) acc in
              (r.1, EvEnvRead key :: EvWarn ("Failed to parse " +:+ key) :: r.2)
          end
      | None =>
          if (0 <? i)%nat && (length acc =? 0)%nat
          then (acc, [EvEnvRead key])
          else
            let r := parse_numbered W e n' (S i) acc in
            (r.1, EvEnvRead key :: r.2)
      end
  end.

(** The body of [parseServiceAccounts] with the bound of the loop of line
    154 as a parameter. *)
Definition parse_upto (W : World) (e : gmap string string) (limit : nat)
    : list ServiceAccount * list Event :=
  let joined :=
    match env_get e "GDRIVE_SERVICE_ACCOUNTS" with
    | Some v => parse_joined W (JsString.split "|||" v) []
    | None => ([], [])
    end in
  let numbered := parse_numbered W e limit 0 joined.1 in
  (numbered.1, EvEnvRead "GDRIVE_SERVICE_ACCOUNTS" :: joined.2 ++ numbered.2).

(** [parseServiceAccounts(env)], lines 135-169: the accounts and what was
    read and logged on the way. *)
Definition parseServiceAccounts (W : World) (e : gmap string string)
    : list ServiceAccount * list Event :=
  parse_upto W e 100.

(** The record behind a blob, when the blob is well-formed. *)
Definition parsed (W : World) (blob : string) : option ServiceAccount :=
  match JSON_parse W blob with
  | Ok sa => Some sa
  | Throws _ => None
  end.

(** The blobs of a delimiter-joined value: its pieces, trimmed, the blank
    ones left out. *)
Definition blobs (v : string) : list string :=
  List.filter JsString.truthy (List.map JsString.trim (JsString.split "|||" v)).

(** The record of the numbered key [i], when the key is present and its
    value is well-formed. *)
Definition numbered_record (W : World) (e : gmap string string) (i : nat)
    : option ServiceAccount :=
  env_get e (numbered_key i) ≫= parsed W.

(** The records of all the present, well-formed numbered keys below
    [limit], in order; and those from 0 to 99. *)
Definition numbered_records_upto (W : World) (e : gmap string string)
    (limit : nat) : list ServiceAccount :=
  omap (numbered_record W e) (seq 0 limit).

Definition numbered_records (W : World) (e : gmap string string)
    : list ServiceAccount :=
  numbered_records_upto W e 100.

(** What the [try] of lines 140-149 leaves in [accounts]. *)
Definition joined_part (W : World) (e : gmap string string)
    : list ServiceAccount :=
  match env_get e "GDRIVE_SERVICE_ACCOUNTS" with
  | Some v => (parse_joined W (JsString.split "|||" v) []).1
  | None => []
  end.

(** The module-level promise, if settled, holds what the import gave. *)
Definition coherent (W : World) (g : Globals) : Prop :=
  match bundledServiceAccountsPromise g with
  | Some (Fulfilled module) => module = import_bundled W
  | _ => True
  end.

(** Where a call of [loadServiceAccounts] is suspended. *)
Inductive Pc : Type :=
| AwaitImport
| AwaitFetch (url : string) (requested : Z)
| Resolved.

Definition loaded_message (n : nat) (source : string) : string :=
  "Loaded " +:+ pretty n +:+ " service accounts from " +:+ source.

(** Lines 70-87: from the call to the [await] of the bundled promise. *)
Definition load_enter (s : Sys) : Sys * Pc :=
  if accountsLoaded (this s) then (s, Resolved)
  else
    match bundledServiceAccountsPromise (globals s) with
    | None =>
        (emit (set_globals s
                 {| bundledServiceAccountsCache :=
                      bundledServiceAccountsCache (globals s);
                    bundledServiceAccountsPromise := Some Pending |})
              [EvImport],
         AwaitImport)
    | Some _ => (s, AwaitImport)
    end.

(** The import settles: the [.then] or the [.catch] of lines 77-85 runs. *)
Definition settle (W : World) (g : Globals) : Globals :=
  match bundledServiceAccountsPromise g with
  | Some Pending =>
      {| bundledServiceAccountsCache := import_bundled W;
         bundledServiceAccountsPromise := Some (Fulfilled (import_bundled W)) |}
  | _ => g
  end.

Definition settle_import (W : World) (s : Sys) : Sys :=
  set_globals s (settle W (globals s)).

(** Lines 117-132: the environment variables, then the legacy variable. *)
Definition load_from_env (W : World) (s : Sys) : Sys :=
  let e := env (this s) in
  let found := parseServiceAccounts W e in
  let s1 := emit (set_this s (with_accounts (this s) found.1 false)) found.2 in
  let s2 :=
    if (length found.1 =? 0)%nat then
      match env_get e "GDRIVE_SERVICE_ACCOUNT" with
      | Some v =>
          match JSON_parse W v with
          | Ok sa =>
              emit (set_this s1 (with_accounts (this s1) [sa] false))
                   [EvEnvRead "GDRIVE_SERVICE_ACCOUNT"]
          | Throws _ =>
              emit s1 [EvEnvRead "GDRIVE_SERVICE_ACCOUNT";
                       EvWarn "Failed to parse GDRIVE_SERVICE_ACCOUNT"]
          end
      | None => emit s1 [EvEnvRead "GDRIVE_SERVICE_ACCOUNT"]
      end
    else s1 in
  let n := length (serviceAccounts (this s2)) in
  let s3 := set_this s2 (with_accounts (this s2) (serviceAccounts (this s2)) true) in
  if (0 <? n)%nat then emit s3 [EvLog (loaded_message n "environment")] else s3.

(** Lines 88-102: from the bundled module to the [await] of the fetch, or
    to the end when no URL is configured. *)
Definition load_after_import (W : World) (s : Sys) (module : option Doc)
    : Sys * Pc :=
  match module ≫= accounts with
  | Some l =>
      (emit (set_this s (with_accounts (this s) l true))
            [EvLog (loaded_message (length l) "bundled JSON")],
       Resolved)
  | None =>
      let s1 := emit s [EvEnvRead "SERVICE_ACCOUNTS_URL"] in
      match env_get (env (this s)) "SERVICE_ACCOUNTS_URL" with
      | Some url => (emit s1 [EvFetch url], AwaitFetch url (clock s))
      | None => (load_from_env W s1, Resolved)
      end
  end.

(** Lines 103-133: from the reply of the URL to the end. *)
Definition load_after_fetch (W : World) (s : Sys) (r : Settled FetchOutcome)
    : Sys :=
  let s0 := set_clock s (settled_at r) in
  let warned m :=
    load_from_env W
      (emit s0 [EvWarn ("Failed to load service accounts from URL: " +:+ m)]) in
  match settled r with
  | FetchThrows m => warned m
  | FetchResponse false _ => load_from_env W s0
  | FetchResponse true (Throws m) => warned m
  | FetchResponse true (Ok data) =>
      match accounts data with
      | Some l =>
          emit (set_this s0 (with_accounts (this s0) l true))
               [EvLog (loaded_message (length l) "URL")]
      | None => load_from_env W s0
      end
  end.

(** [loadServiceAccounts()] run by one caller from call to return. *)
Definition loadServiceAccounts (W : World) (s : Sys) : Sys :=
  match load_enter s with
  | (s1, Resolved) => s1
  | (s1, _) =>
      let s2 := settle_import W s1 in
      match bundledServiceAccountsPromise (globals s2) with
      | Some (Fulfilled module) =>
          match load_after_import W s2 module with
          | (s3, AwaitFetch url t) => load_after_fetch W s3 (http_get W url t)
          | (s3, _) => s3
          end
      | _ => s2
      end
  end.

(* ===================================================================== *)
(** * Token cache and rotation (lines 171-182 and 396-451) *)
(* ===================================================================== *)

(** [getCurrentServiceAccount()] on a set whose entries are records;
    [None] is [null]. [current_entry] covers entries of any kind. *)
Definition getCurrentServiceAccount (c : DriveClient) : option ServiceAccount :=
  if (length (serviceAccounts c) =? 0)%nat then None
  else serviceAccounts c
         !! (currentServiceAccountIndex c mod length (serviceAccounts c))%nat.

(** [rotateServiceAccount()]. *)
Definition rotateServiceAccount (c : DriveClient) : DriveClient :=
  if (1 <? length (serviceAccounts c))%nat
  then with_index c
         ((currentServiceAccountIndex c + 1) mod length (serviceAccounts c))%nat
  else c.

(** [serviceAccount.client_email || 'default'], line 404. *)
Definition accountKey (sa : ServiceAccount) : string :=
  or_else (client_email sa) "default".

(** [cached && cached.expiresAt > Date.now() + 60000]. *)
Definition still_valid (cached : option CachedToken) (now : Z) : bool :=
  match cached with
  | Some c => now + 60000 <? expiresAt c
  | None => false
  end.

(** [tokenData.expires_in || 3600]: zero is falsy. *)
Definition lifetime (tokenData : TokenJson) : Z :=
  match expires_in tokenData with
  | Some l => if l =? 0 then 3600 else l
  | None => 3600
  end.

(** The entry written at lines 413-416 and 445-448. *)
Definition cache_entry (tokenData : TokenJson) (now : Z) : CachedToken :=
  {| token := access_token tokenData;
     expiresAt := now + lifetime tokenData * 1000 |}.

(** How a call of an [async] function ends. [Unfinished] is a run that
    was cut after the given number of calls of [getAccessToken]. *)
Inductive Completion : Type :=
| Returned (value : option string)
| Rejected (message : string)
| Unfinished.

(** Lines 429-450: the OAuth refresh-token path. *)
Definition oauth_path (W : World) (s : Sys) : Completion * Sys :=
  let c := this s in
  if negb (JsString.truthy_opt (clientId c))
     || negb (JsString.truthy_opt (clientSecret c))
     || negb (JsString.truthy_opt (refreshToken c))
  then (Rejected "No authentication method available. Configure service accounts or OAuth credentials.", s)
  else
    let cached := cachedTokens c !! "oauth" in
    if still_valid cached (clock s)
    then (Returned (cached ≫= token), s)
    else
      let r := refreshUserToken W (clientId c) (clientSecret c) (refreshToken c)
                 (clock s) in
      let s1 := set_clock (emit s [EvRefresh]) (settled_at r) in
      match settled r with
      | Ok tokenData =>
          (Returned (access_token tokenData),
           set_this s1
             (with_cache (this s1)
                (<["oauth" := cache_entry tokenData (clock s1)]>
                   (cachedTokens (this s1)))))
      | Throws m => (Rejected m, s1)
      end.

(** [getAccessToken()], lines 396-451. Each call of the function, the
    first as well as every recursive one at line 423, uses one unit of
    [fuel]. *)
Fixpoint getAccessToken (W : World) (fuel : nat) (s : Sys) : Completion * Sys :=
  match fuel with
  | O => (Unfinished, s)
  | S fuel' =>
      let s1 := loadServiceAccounts W s in
      match getCurrentServiceAccount (this s1) with
      | Some serviceAccount =>
          let key := accountKey serviceAccount in
          let cached := cachedTokens (this s1) !! key in
          if still_valid cached (clock s1)
          then (Returned (cached ≫= token), s1)
          else
            let r := fetchServiceAccountToken W serviceAccount (clock s1) in
            let s2 := set_clock (emit s1 [EvMint serviceAccount]) (settled_at r) in
            match settled r with
            | Ok tokenData =>
                (Returned (access_token tokenData),
                 set_this s2
                   (with_cache (this s2)
                      (<[key := cache_entry tokenData (clock s2)]>
                         (cachedTokens (this s2)))))
            | Throws m =>
                let s3 :=
                  set_this
                    (emit s2 [EvError ("Service account " +:+ key
                                        +:+ " failed, rotating...")])
                    (rotateServiceAccount (this s2)) in
                if (1 <? length (serviceAccounts (this s3)))%nat
                then getAccessToken W fuel' s3
                else (Rejected m, s3)
            end
      | None => oauth_path W s1
      end
  end.

(** A call of [getAccessToken] from the moment the [await] of line 412
    settles with [r]: lines 413-426, [retry] being the call of line 423.
    [s] is the state in which the call resumes, which other calls may
    have changed while it was suspended. *)
Definition after_mint (retry : Sys -> Completion * Sys) (s : Sys)
    (sa : ServiceAccount) (r : Settled (Try TokenJson)) : Completion * Sys :=
  let key := accountKey sa in
  let s2 := set_clock s (settled_at r) in
  match settled r with
  | Ok tokenData =>
      (Returned (access_token tokenData),
       set_this s2
         (with_cache (this s2)
            (<[key := cache_entry tokenData (clock s2)]>
               (cachedTokens (this s2)))))
  | Throws m =>
      let s3 :=
        set_this
          (emit s2 [EvError ("Service account " +:+ key
                              +:+ " failed, rotating...")])
          (rotateServiceAccount (this s2)) in
      if (1 <? length (serviceAccounts (this s3)))%nat
      then retry s3
      else (Rejected m, s3)
  end.

(** No entry of the cache can be served at time [now]. *)
Definition no_valid_token (c : DriveClient) (now : Z) : Prop :=
  forall k e, cachedTokens c !! k = Some e -> expiresAt e <= now + 60000.

(** An exchange never settles before it was started. *)
Definition steady_clock (W : World) : Prop :=
  forall sa t, t <= settled_at (fetchServiceAccountToken W sa t).

(** A record whose mint fails whenever it is attempted, and one whose mint
    succeeds whenever it is attempted. *)
Definition always_fails (W : World) (sa : ServiceAccount) : Prop :=
  forall t, exists m, settled (fetchServiceAccountToken W sa t) = Throws m.

Definition never_fails (W : World) (sa : ServiceAccount) : Prop :=
  forall t, exists tokenData, settled (fetchServiceAccountToken W sa t) = Ok tokenData.

(** How many times the record [sa] occurs in a list of mint attempts. *)
Definition attempts_of (sa : ServiceAccount) (l : list ServiceAccount) : nat :=
  length (List.filter (fun x => bool_decide (x = sa)) l).

(** The mint attempts of a trace: the calls of [fetchServiceAccountToken]. *)
Definition mints (l : list Event) : list ServiceAccount :=
  omap (fun e => match e with EvMint sa => Some sa | _ => None end) l.

(** How many events of a trace satisfy [P]. *)
Definition count_events (P : Event -> bool) (l : list Event) : nat :=
  length (List.filter P l).

Definition is_import (e : Event) : bool :=
  match e with EvImport => true | _ => false end.

Definition is_fetch (e : Event) : bool :=
  match e with EvFetch _ => true | _ => false end.

Definition imports (l : list Event) : nat := count_events is_import l.

Definition fetches (l : list Event) : nat := count_events is_fetch l.

(** The keys of [env] that a trace reads. *)
Definition env_reads (l : list Event) : list string :=
  omap (fun e => match e with EvEnvRead k => Some k | _ => None end) l.

Definition warnings (l : list Event) : list string :=
  omap (fun e => match e with EvWarn t => Some t | _ => None end) l.

(** The calls within a run: the events added to the trace of [before]. *)
Definition new_events (before after : Sys) : list Event :=
  drop (length (log before)) (log after).

(* ===================================================================== *)
(** * Listing (lines 7-36, 61-67, 284-317 and 454-468) *)
(* ===================================================================== *)

Definition q (s : string) : string :=
  String JsString.squote (s +:+ String JsString.squote EmptyString).

(** [TYPE_FILTERS[type]] for the own keys of the table. *)
Definition TYPE_FILTERS (type : string) : option (list string) :=
  if decide (type = "images") then Some ["mimeType contains " +:+ q "image/"]
  else if decide (type = "video") then Some ["mimeType contains " +:+ q "video/"]
  else if decide (type = "audio") then Some ["mimeType contains " +:+ q "audio/"]
  else if decide (type = "documents") then
    Some ["mimeType = " +:+ q "application/pdf";
          "mimeType contains " +:+ q "text/";
          "mimeType contains " +:+ q "application/msword";
          "mimeType contains " +:+ q "application/vnd.openxmlformats-officedocument";
          "mimeType contains " +:+ q "application/vnd.google-apps.document";
          "mimeType contains " +:+ q "application/vnd.google-apps.presentation";
          "mimeType contains " +:+ q "application/vnd.google-apps.spreadsheet"]
  else if decide (type = "code") then
    Some ["mimeType = " +:+ q "application/javascript";
          "mimeType = " +:+ q "application/x-javascript";
          "mimeType = " +:+ q "text/css";
          "mimeType = " +:+ q "text/html";
          "mimeType contains " +:+ q "text/x-";
          "mimeType contains " +:+ q "application/json"]
  else if decide (type = "data") then
    Some ["mimeType = " +:+ q "text/csv";
          "mimeType = " +:+ q "application/csv";
          "mimeType contains " +:+ q "spreadsheet";
          "mimeType contains " +:+ q "application/vnd.ms-excel";
          "mimeType contains " +:+ q "application/vnd.google-apps.spreadsheet";
          "mimeType = " +:+ q "application/json"]
  else None.

(** [buildTypeClause(type)] for a name that the table does not inherit
    from [Object.prototype]; [buildTypeClause_of] covers every name. *)
Definition buildTypeClause (type : option string) : string :=
  match type with
  | None => EmptyString
  | Some t =>
      if negb (JsString.truthy t) then EmptyString
      else
        match TYPE_FILTERS t with
        | None | Some [] => EmptyString
        | Some [f] => f
        | Some filters => "(" +:+ JsString.join " or " filters +:+ ")"
        end
  end.

(** [escapeQueryValue(value)]: [value.replace(/'/g, "\\'")]. *)
Definition escapeQueryValue (value : string) : string :=
  JsString.replace_all JsString.squote
    (String JsString.backslash (String JsString.squote EmptyString)) value.

(** [buildParentsQuery()]. *)
Definition buildParentsQuery (c : DriveClient) : string :=
  match List.map (fun parentId => q parentId +:+ " in parents") (parents c) with
  | [] => EmptyString
  | [clause] => clause
  | clauses => "(" +:+ JsString.join " or " clauses +:+ ")"
  end.

(** The part of the query that the configured roots contribute. *)
Definition parents_part (c : DriveClient) : list string :=
  match parents c with
  | [] => []
  | _ :: _ => [buildParentsQuery c]
  end.

(** The options of [listFiles]; [None] is a member left [undefined]. *)
Record ListOptions : Type := {
  pageSize : option Z;
  pageToken : option string;
  search : option string;
  type_ : option string;
}.

(** [Math.min(Math.max(pageSize || 24, 1), MAX_LIST_PAGE_SIZE)] after the
    default [pageSize = 24] of the destructuring. *)
Definition safeSize (o : ListOptions) : Z :=
  let size := match pageSize o with Some n => n | None => 24 end in
  Z.min (Z.max (if size =? 0 then 24 else size) 1) MAX_LIST_PAGE_SIZE.

(** Lines 304-317: the value of the [q] parameter. *)
Definition listFiles_q (c : DriveClient) (o : ListOptions) : string :=
  let parentsClause := buildParentsQuery c in
  let trimmedSearch :=
    match search o with Some s => JsString.trim s | None => EmptyString end in
  let typeClause := buildTypeClause (type_ o) in
  JsString.join " and "
    (["trashed = false"]
     ++ (if JsString.truthy parentsClause then [parentsClause] else [])
     ++ (if JsString.truthy trimmedSearch
         then ["name contains " +:+ q (escapeQueryValue trimmedSearch)] else [])
     ++ (if JsString.truthy typeClause then [typeClause] else [])).

(** Lines 285-317: the parameters of the request that [listFiles] sends,
    in the order of a [URLSearchParams]. *)
Definition listFiles_params (c : DriveClient) (o : ListOptions)
    : list (string * string) :=
  [("pageSize", pretty (safeSize o));
   ("orderBy", "modifiedTime desc");
   ("supportsAllDrives", "true");
   ("includeItemsFromAllDrives", "true");
   ("spaces", "drive");
   ("fields",
    JsString.join ","
      ["nextPageToken";
       "files(id,name,mimeType,size,description,modifiedTime,createdTime,thumbnailLink,iconLink,webViewLink,webContentLink,md5Checksum,hasThumbnail)"])]
  ++ (match pageToken o with
      | Some t => if JsString.truthy t then [("pageToken", t)] else []
      | None => []
      end)
  ++ [("q", listFiles_q c o)].


(* ===================================================================== *)
(** * Callers that overlap *)
(* ===================================================================== *)

(** Several calls of [loadServiceAccounts] in one process, on one client or
    on several. A call runs without interruption from one [await] to the
    next; between two such runs any other call may run, the import may
    settle and the network may reply. The [await response.json()] of line
    104 is taken together with the [await fetch] before it. *)
Module Race.

(** A caller: the client it calls on, and where it stands ([None]: it has
    not called yet). *)
Record Task : Type := {
  client : nat;
  pc : option Pc;
}.

Record Machine : Type := {
  m_globals : Globals;
  m_clock : Z;
  m_log : list Event;
  m_clients : list DriveClient;
  m_tasks : list Task;
}.

Inductive Label : Type :=
| Call (i : nat)
| ImportSettles
| ResumeImport (i : nat)
| FetchReplies (i : nat).

Definition view (m : Machine) (c : DriveClient) : Sys :=
  {| globals := m_globals m; this := c; clock := m_clock m; log := m_log m |}.

Definition commit (m : Machine) (i k : nat) (s : Sys) (p : Pc) : Machine :=
  {| m_globals := globals s; m_clock := clock s; m_log := log s;
     m_clients := <[k := this s]> (m_clients m);
     m_tasks := <[i := {| client := k; pc := Some p |}]> (m_tasks m) |}.

Definition step (W : World) (l : Label) (m : Machine) : option Machine :=
  match l with
  | Call i =>
      t ← m_tasks m !! i;
      c ← m_clients m !! client t;
      match pc t with
      | None =>
          let r := load_enter (view m c) in
          Some (commit m i (client t) r.1 r.2)
      | Some _ => None
      end
  | ImportSettles =>
      match bundledServiceAccountsPromise (m_globals m) with
      | Some Pending =>
          Some {| m_globals := settle W (m_globals m); m_clock := m_clock m;
                  m_log := m_log m; m_clients := m_clients m;
                  m_tasks := m_tasks m |}
      | _ => None
      end
  | ResumeImport i =>
      t ← m_tasks m !! i;
      c ← m_clients m !! client t;
      match pc t, bundledServiceAccountsPromise (m_globals m) with
      | Some AwaitImport, Some (Fulfilled module) =>
          let r := load_after_import W (view m c) module in
          Some (commit m i (client t) r.1 r.2)
      | _, _ => None
      end
  | FetchReplies i =>
      t ← m_tasks m !! i;
      c ← m_clients m !! client t;
      match pc t with
      | Some (AwaitFetch url requested) =>
          Some (commit m i (client t)
                  (load_after_fetch W (view m c) (http_get W url requested))
                  Resolved)
      | _ => None
      end
  end.

(** A schedule, run from left to right; [None] when a step is not enabled. *)
Fixpoint run (W : World) (schedule : list Label) (m : Machine) : option Machine :=
  match schedule with
  | [] => Some m
  | l :: rest => step W l m ≫= run W rest
  end.

(** A process that has just started: nothing imported, nothing logged, no
    caller has called yet. *)
Definition fresh (clients : list DriveClient) (callers : list nat) (now : Z)
    : Machine :=
  {| m_globals := {| bundledServiceAccountsCache := None;
                     bundledServiceAccountsPromise := None |};
     m_clock := now; m_log := [];
     m_clients := clients;
     m_tasks := List.map (fun k => {| client := k; pc := None |}) callers |}.

(** What holds of the module-level promise and of the trace throughout a
    process: an import has been started exactly when the promise exists,
    and a settled promise holds what the import gave. *)
Definition import_once (W : World) (g : Globals) (l : list Event) : Prop :=
  match bundledServiceAccountsPromise g with
  | None => imports l = 0%nat
  | Some Pending => imports l = 1%nat
  | Some (Fulfilled module) => imports l = 1%nat /\ module = import_bundled W
  end.

(** Whether a caller has sent its request to the URL. *)
Definition fetched (t : Task) : nat :=
  match pc t with
  | Some (AwaitFetch _ _) | Some Resolved => 1
  | _ => 0
  end.

(** Every caller has called, the URL is configured on every client, and
    the trace holds [base] fetches besides one for each caller that has
    sent its request. *)
Definition fetch_ledger (W : World) (base : nat) (m : Machine) : Prop :=
  import_once W (m_globals m) (m_log m)
  /\ Forall (fun c => env_get (env c) "SERVICE_ACCOUNTS_URL" <> None) (m_clients m)
  /\ Forall (fun t => pc t <> None) (m_tasks m)
  /\ fetches (m_log m) = (base + sum_list (fetched <$> m_tasks m))%nat.

End Race.

(* ===================================================================== *)
(** * Concrete records and worlds, for the examples *)
(* ===================================================================== *)

Module Sample.

Definition alice : ServiceAccount :=
  {| client_email := Some "alice@demo.iam.gserviceaccount.com";
     private_key := Some "KEY-A"; project_id := Some "demo" |}.

Definition bob : ServiceAccount :=
  {| client_email := Some "bob@demo.iam.gserviceaccount.com";
     private_key := Some "KEY-B"; project_id := Some "demo" |}.

(** Two records without [client_email]. *)
Definition anon1 : ServiceAccount :=
  {| client_email := None; private_key := Some "KEY-1"; project_id := None |}.

Definition anon2 : ServiceAccount :=
  {| client_email := None; private_key := Some "KEY-2"; project_id := None |}.

(** A token endpoint that grants every assertion one second after it is
    posted; the token names the signature it was granted for. *)
Definition granting (lifetime_seconds : option Z) (assertion : string) (now : Z)
    : Settled HttpResult :=
  {| settled_at := now + 1000;
     settled := HttpResponse true
                  {| access_token := Some ("ya29." +:+ assertion);
                     expires_in := lifetime_seconds;
                     error_description := None |} |}.

(** A token endpoint that rejects every assertion. *)
Definition rejecting (assertion : string) (now : Z) : Settled HttpResult :=
  {| settled_at := now + 1000;
     settled := HttpResponse false
                  {| access_token := None; expires_in := None;
                     error_description := Some "invalid_grant" |} |}.

(** A token endpoint that grants what is posted before [deadline] and
    rejects what is posted from then on. *)
Definition granting_until (deadline : Z) (assertion : string) (now : Z)
    : Settled HttpResult :=
  if now <? deadline then granting (Some 3599) assertion now
  else rejecting assertion now.

(** [JSON.parse] on the three blobs the examples use: two well-formed
    keys, anything else is a syntax error. *)
Definition parse (blob : string) : Try ServiceAccount :=
  if decide (blob = "{alice}") then Ok alice
  else if decide (blob = "{bob}") then Ok bob
  else Throws "SyntaxError".

(** WebCrypto that signs with every key but ["KEY-B"], which it rejects. *)
Definition signer (input : string) (key : option string) : Try string :=
  if decide (key = Some "KEY-B") then Throws "DataError" else Ok "signature".

Definition offline (url : string) (now : Z) : Settled FetchOutcome :=
  {| settled_at := now; settled := FetchThrows "offline" |}.

Definition world (bundled : option Doc)
    (get : string -> Z -> Settled FetchOutcome)
    (endpoint : string -> Z -> Settled HttpResult) : World :=
  {| import_bundled := bundled;
     http_get := get;
     JSON_parse := parse;
     crypto_sign := signer;
     post_assertion := endpoint;
     post_refresh := fun _ _ _ => endpoint EmptyString |}.

(** A process in which [client] has just been created at time [now]. *)
Definition boot (client : DriveClient) (now : Z) : Sys :=
  {| globals := {| bundledServiceAccountsCache := None;
                   bundledServiceAccountsPromise := None |};
     this := client; clock := now; log := [] |}.

(** A client whose Credential Set has been resolved to [l]. *)
Definition resolved (l : list ServiceAccount) : DriveClient :=
  with_accounts (new_DriveClient ∅) l true.

End Sample.

(* ===================================================================== *)
(** * Further observations on traces and on the rotation *)
(* ===================================================================== *)

Definition is_refresh (e : Event) : bool :=
  match e with EvRefresh => true | _ => false end.

Definition is_mint (e : Event) : bool :=
  match e with EvMint _ => true | _ => false end.

(** [k] calls of [rotateServiceAccount()]. *)
Definition rotations (k : nat) (c : DriveClient) : DriveClient :=
  Nat.iter k rotateServiceAccount c.

(** The record [k] places after the cursor, going round the set. *)
Definition record_after (c : DriveClient) (k : nat) : option ServiceAccount :=
  serviceAccounts c
    !! ((currentServiceAccountIndex c + k) mod length (serviceAccounts c))%nat.

(** The fields of a client that a call of [getAccessToken] leaves alone
    once the Credential Set is resolved. *)
Definition same_configuration (c c' : DriveClient) : Prop :=
  clientId c' = clientId c
  /\ clientSecret c' = clientSecret c
  /\ refreshToken c' = refreshToken c
  /\ env c' = env c
  /\ serviceAccounts c' = serviceAccounts c
  /\ accountsLoaded c' = accountsLoaded c
  /\ parents c' = parents c.

(** The state in which a failed mint leaves the client before the retry. *)
Definition rotated (s : Sys) (sa : ServiceAccount) (t : Z) : Sys :=
  set_this
    (emit (set_clock (emit s [EvMint sa]) t)
       [EvError ("Service account " +:+ accountKey sa +:+ " failed, rotating...")])
    (rotateServiceAccount (this s)).


(** An environment that configures the OAuth refresh flow and no
    service account. *)
Definition oauth_env : gmap string string :=
  {[ "GOOGLE_CLIENT_ID" := "client-1";
     "GOOGLE_CLIENT_SECRET" := "secret-1";
     "GOOGLE_REFRESH_TOKEN" := "1//refresh" ]}.

(** What credential resolution leaves alone in a client: everything but
    [serviceAccounts] and [accountsLoaded]. *)
Definition resolution_frame (c c' : DriveClient) : Prop :=
  clientId c' = clientId c /\ clientSecret c' = clientSecret c
  /\ refreshToken c' = refreshToken c /\ env c' = env c
  /\ parents c' = parents c
  /\ currentServiceAccountIndex c' = currentServiceAccountIndex c
  /\ cachedTokens c' = cachedTokens c.

(** The failures of the URL method: [fetch] threw, the reply was not ok,
    its body was not JSON, or the JSON held no accounts array. *)
Definition url_gave_nothing (r : FetchOutcome) : bool :=
  match r with
  | FetchThrows _ => true
  | FetchResponse false _ => true
  | FetchResponse true (Throws _) => true
  | FetchResponse true (Ok data) =>
      match accounts data with Some _ => false | None => true end
  end.

(** The message of the [catch] of lines 112-114, when it runs. *)
Definition url_warning (r : FetchOutcome) : option string :=
  match r with
  | FetchThrows m | FetchResponse true (Throws m) =>
      Some ("Failed to load service accounts from URL: " +:+ m)
  | _ => None
  end.

(** What the URL method leaves in the trace after the request, when it
    gives nothing. *)
Definition url_trace (r : FetchOutcome) : list Event :=
  match url_warning r with Some m => [EvWarn m] | None => [] end.

(** Whether every apostrophe of [s] comes right after a backslash;
    [after_backslash] tells whether the character before [s] is one. *)
Fixpoint apostrophes_guarded (after_backslash : bool) (s : string) : bool :=
  match s with
  | EmptyString => true
  | String a rest =>
      (negb (JsString.ascii_eqb a JsString.squote) || after_backslash)
      && apostrophes_guarded (JsString.ascii_eqb a JsString.backslash) rest
  end.

(* ===================================================================== *)
(** * The dashboard listing handler (index.js, lines 398-421) *)
(* ===================================================================== *)

Definition DEFAULT_FILE_PAGE_SIZE : Z := 24.

Definition is_digit (a : ascii) : bool :=
  let n := N_of_ascii a in ((48 <=? n) && (n <=? 57))%N.

Definition digit_value (a : ascii) : Z := Z.of_N (N_of_ascii a) - 48.

(** The integer of the longest prefix of decimal digits of [s], read after
    the digits that gave [acc]; [None] when no digit has been read. *)
Fixpoint read_digits (acc : option Z) (s : string) : option Z :=
  match s with
  | EmptyString => acc
  | String a rest =>
      if is_digit a
      then read_digits
             (Some (10 * (match acc with Some v => v | None => 0 end)
                    + digit_value a)) rest
      else acc
  end.

(** [parseInt(s, 10)]: leading white space is skipped, a sign is read,
    then the longest run of decimal digits; [None] is [NaN]. The Number
    that JavaScript returns is the double nearest to this integer. *)
Definition parseInt (s : string) : option Z :=
  match JsString.trim_start s with
  | String "-" rest => Z.opp <$> read_digits None rest
  | String "+" rest => read_digits None rest
  | s1 => read_digits None s1
  end.

(** [Number.isFinite] of the double nearest to the integer [n]: from
    [2^1024 - 2^970] on, the nearest double is [Infinity]. *)
Definition Number_isFinite (n : Z) : bool :=
  Z.abs n <? 2 ^ 1024 - 2 ^ 970.

(** [s.toLowerCase()] on code units 0..255: the letters A-Z and the
    capital letters of Latin-1 (U+00C0-U+00DE but U+00D7). *)
Definition lower_char (a : ascii) : ascii :=
  let n := N_of_ascii a in
  if ((65 <=? n) && (n <=? 90)
      || (192 <=? n) && (n <=? 222) && negb (n =? 215))%N
  then ascii_of_N (n + 32)
  else a.

Fixpoint toLowerCase (s : string) : string :=
  match s with
  | EmptyString => EmptyString
  | String a rest => String (lower_char a) (toLowerCase rest)
  end.

(** Lines 400-401: the page size that the handler passes on;
    [param] is [url.searchParams.get('pageSize')], [None] being [null]. *)
Definition dashboard_pageSize (param : option string) : Z :=
  match parseInt (or_else param EmptyString) with
  | Some pageSizeParam =>
      if Number_isFinite pageSizeParam && (0 <? pageSizeParam)
      then pageSizeParam
      else DEFAULT_FILE_PAGE_SIZE
  | None => DEFAULT_FILE_PAGE_SIZE
  end.

(** Lines 399-406: the options that [handleDashboardFiles] passes to
    [drive.listFiles]; [get] is [url.searchParams.get]. Comparing the
    page size with 1 and 100, as [listFiles] does, gives the same on the
    integer as on the double nearest to it. *)
Definition handleDashboardFiles_options (get : string -> option string)
    : ListOptions :=
  {| pageSize := Some (dashboard_pageSize (get "pageSize"));
     pageToken := match get "pageToken" with
                  | Some t => if JsString.truthy t then Some t else None
                  | None => None
                  end;
     search := Some (or_else (get "search") EmptyString);
     type_ := Some (toLowerCase (or_else (get "type") EmptyString)) |}.

(* ===================================================================== *)
(** * Counting the files (drive.js, lines 331-373) *)
(* ===================================================================== *)

Definition COUNT_PAGE_SIZE : Z := 1000.
Definition FILE_COUNT_MAX_PAGES : Z := 20.

(** How an awaited call ends: with a value, with an error, or never. *)
Inductive Reply (A : Type) : Type :=
| Gives (a : A)
| Fails (m : string)
| NeverSettles.
Arguments Gives {A} a.
Arguments Fails {A} m.
Arguments NeverSettles {A}.

(** What [countFiles] reads of a file and of a page of the listing. *)
Record DriveFile : Type := { mimeType : option string }.

Record Page : Type := {
  files : option (list DriveFile);
  nextPageToken : option string;
}.

Record Counts : Type := {
  totalFiles : Z;
  folderCount : Z;
  complete : bool;
}.

(** [item.mimeType === 'application/vnd.google-apps.folder']. *)
Definition is_folder (item : DriveFile) : bool :=
  bool_decide (mimeType item = Some "application/vnd.google-apps.folder").

(** [response.files || []]. *)
Definition files_of (response : Page) : list DriveFile :=
  match files response with Some l => l | None => [] end.

(** A [URLSearchParams] is the list of its pairs, in order.
    [params.delete(name)] removes every pair of that name. *)
Definition params_delete (name : string) (params : list (string * string))
    : list (string * string) :=
  List.filter (fun p => negb (bool_decide (p.1 = name))) params.

(** [params.set(name, value)]: the first pair of that name takes the value
    and the others are removed; without such a pair, one is appended. *)
Fixpoint params_set (name value : string) (params : list (string * string))
    : list (string * string) :=
  match params with
  | [] => [(name, value)]
  | (k, v) :: rest =>
      if bool_decide (k = name)
      then (name, value) :: params_delete name rest
      else (k, v) :: params_set name value rest
  end.

(** Lines 333-345: the parameters before the first request. *)
Definition countFiles_params (c : DriveClient) : list (string * string) :=
  let parentsClause := buildParentsQuery c in
  [("fields", "nextPageToken,files(mimeType)");
   ("pageSize", pretty COUNT_PAGE_SIZE);
   ("supportsAllDrives", "true");
   ("includeItemsFromAllDrives", "true");
   ("spaces", "drive");
   ("q", JsString.join " and "
           (["trashed = false"]
            ++ (if JsString.truthy parentsClause then [parentsClause] else [])))].

(** The parameters of the request that follows a reply whose token is
    [next], when [params0] holds no page token. *)
Definition params_after (params0 : list (string * string))
    (next : option string) : list (string * string) :=
  match next with
  | Some t => if JsString.truthy t then params0 ++ [("pageToken", t)]
              else params0
  | None => params0
  end.

(** The two shapes that the parameters take during the loop. *)
Definition shaped (params0 params : list (string * string)) : Prop :=
  params = params0 \/ exists t, params = params0 ++ [("pageToken", t)].

(** The address of a page of the listing, given [params.toString()]. *)
Definition files_url (toString : list (string * string) -> string)
    (params : list (string * string)) : string :=
  "https://www.googleapis.com/drive/v3/files?" +:+ toString params.

Section Counting.

(** [this.fetchJson(url)] for a state of the client and of the world of
    type [St], and [params.toString()]. *)
Variable St : Type.
Variable fetchJson : string -> St -> Reply Page * St.
Variable toString : list (string * string) -> string.

(** The [do ... while] of lines 351-366 from the top of its body. Each
    pass uses one unit of [fuel]; [sent] lists the requests made so far
    with their replies. *)
Fixpoint count_pages (fuel : nat) (maxPages : Z)
    (params : list (string * string)) (nextPageToken0 : option string)
    (totalFiles0 folderCount0 page : Z) (st : St)
    (sent : list (string * Reply Page))
    : option (Reply Counts * St * list (string * Reply Page)) :=
  match fuel with
  | O => None
  | S fuel' =>
      let params1 :=
        if JsString.truthy_opt nextPageToken0
        then params_set "pageToken"
               (match nextPageToken0 with Some t => t | None => EmptyString end)
               params
        else params_delete "pageToken" params in
      let url := files_url toString params1 in
      match fetchJson url st with
      | (Gives response, st1) =>
          let sent1 := sent ++ [(url, Gives response)] in
          let totalFiles1 := totalFiles0 + Z.of_nat (length (files_of response)) in
          let folderCount1 :=
            folderCount0
            + Z.of_nat (length (List.filter is_folder (files_of response))) in
          let nextPageToken1 := nextPageToken response in
          let page1 := page + 1 in
          let result :=
            Gives {| totalFiles := totalFiles1;
                     folderCount := folderCount1;
                     complete := negb (JsString.truthy_opt nextPageToken1) |} in
          if negb (JsString.truthy_opt nextPageToken1)
          then Some (result, st1, sent1)
          else if page1 <? maxPages
               then count_pages fuel' maxPages params1 nextPageToken1
                      totalFiles1 folderCount1 page1 st1 sent1
               else Some (result, st1, sent1)
      | (Fails m, st1) => Some (Fails m, st1, sent ++ [(url, Fails m)])
      | (NeverSettles, st1) =>
          Some (NeverSettles, st1, sent ++ [(url, NeverSettles)])
      end
  end.

(** [countFiles(options)]; [maxPages] is [options.maxPages], an integer
    when given. *)
Definition countFiles (fuel : nat) (c : DriveClient) (maxPages : option Z)
    (st : St) : option (Reply Counts * St * list (string * Reply Page)) :=
  count_pages fuel
    (match maxPages with Some m => m | None => FILE_COUNT_MAX_PAGES end)
    (countFiles_params c) None 0 0 0 st [].

End Counting.

(** The passes that the loop makes at most. *)
Definition page_budget (maxPages : option Z) : Z :=
  Z.max 1 (match maxPages with Some m => m | None => FILE_COUNT_MAX_PAGES end).

(** The pages among the replies, and what they hold. *)
Definition pages_of (sent : list (string * Reply Page)) : list Page :=
  omap (fun x => match x.2 with Gives p => Some p | _ => None end) sent.

Definition sum_Z (l : list Z) : Z := fold_right Z.add 0 l.

(** A scripted [fetchJson] for the examples: the replies are served in
    order whatever the request is, and nothing more arrives after them. *)
Definition scripted (url : string) (st : list (Reply Page))
    : Reply Page * list (Reply Page) :=
  match st with
  | r :: rest => (r, rest)
  | [] => (NeverSettles, [])
  end.

(** [params.toString()] for the examples, without the percent-encoding. *)
Definition plain_toString (params : list (string * string)) : string :=
  JsString.join "&" (List.map (fun p => p.1 +:+ "=" +:+ p.2) params).

(** The events by which a credential source is consulted. *)
Definition is_source_read (e : Event) : bool :=
  match e with
  | EvImport | EvFetch _ | EvEnvRead _ => true
  | _ => false
  end.

(* ===================================================================== *)
(** * The type clause for every name (drive.js, lines 454-464) *)
(* ===================================================================== *)

(** What [TYPE_FILTERS[type]] gives: an array of the table, a value that
    the table inherits from [Object.prototype], or [undefined]. Of an
    inherited value only its [length] matters here: the inherited
    functions have one, the prototype object that [__proto__] gives has
    none; none of them has a member [0] or [join]. *)
Inductive Filters : Type :=
| OwnFilters (filters : list string)
| InheritedValue (length : option nat)
| NoFilters.

Definition TYPE_FILTERS_get (type : string) : Filters :=
  match TYPE_FILTERS type with
  | Some filters => OwnFilters filters
  | None =>
      if bool_decide (type = "__proto__") then InheritedValue None
      else if bool_decide (type ∈ ["__defineGetter__"; "__defineSetter__"])
      then InheritedValue (Some 2%nat)
      else if bool_decide
                (type ∈ ["constructor"; "hasOwnProperty"; "isPrototypeOf";
                         "propertyIsEnumerable"; "__lookupGetter__";
                         "__lookupSetter__"])
      then InheritedValue (Some 1%nat)
      else if bool_decide (type ∈ ["toString"; "toLocaleString"; "valueOf"])
      then InheritedValue (Some 0%nat)
      else NoFilters
  end.

(** [buildTypeClause(type)] for every name: the clause, [undefined]
    ([Ok None], for [filters[0]] of an inherited function of length 1),
    or the [TypeError] of line 463 when the value has no [join]. *)
Definition buildTypeClause_of (type : option string)
    : Try (option string) :=
  match type with
  | None => Ok (Some EmptyString)
  | Some t =>
      if negb (JsString.truthy t) then Ok (Some EmptyString)
      else
        match TYPE_FILTERS_get t with
        | NoFilters => Ok (Some EmptyString)
        | OwnFilters [] => Ok (Some EmptyString)
        | OwnFilters [f] => Ok (Some f)
        | OwnFilters filters =>
            Ok (Some ("(" +:+ JsString.join " or " filters +:+ ")"))
        | InheritedValue (Some O) => Ok (Some EmptyString)
        | InheritedValue (Some (S O)) => Ok None
        | InheritedValue _ =>
            Throws "TypeError: filters.join is not a function"
        end
  end.

(** Lines 304-317 for every type name: the value of the [q] parameter, or
    the error thrown before any request is made. *)
Definition listFiles_query (c : DriveClient) (o : ListOptions) : Try string :=
  let parentsClause := buildParentsQuery c in
  let trimmedSearch :=
    match search o with Some s => JsString.trim s | None => EmptyString end in
  match buildTypeClause_of (type_ o) with
  | Throws m => Throws m
  | Ok typeClause =>
      Ok (JsString.join " and "
            (["trashed = false"]
             ++ (if JsString.truthy parentsClause then [parentsClause] else [])
             ++ (if JsString.truthy trimmedSearch
                 then ["name contains " +:+ q (escapeQueryValue trimmedSearch)]
                 else [])
             ++ (match typeClause with
                 | Some clause =>
                     if JsString.truthy clause then [clause] else []
                 | None => []
                 end)))
  end.

(** The names for which line 463 throws. *)
Definition names_without_join : list string :=
  ["__proto__"; "__defineGetter__"; "__defineSetter__"].

(* ===================================================================== *)
(** * The Credential Set with entries of any kind *)
(* ===================================================================== *)

(** The sources give any JSON value as an entry of [serviceAccounts]
    (lines 92, 106, 123, 144 and 158). [FalsyEntry] is an entry that is
    falsy ([null], [false], [0] or the empty string); any other entry is
    read through its members, and a value that is not an object has none
    of them. *)
Inductive Entry : Type :=
| FalsyEntry
| TruthyEntry (members : ServiceAccount).

Definition is_truthy (e : Entry) : bool :=
  match e with TruthyEntry _ => true | FalsyEntry => false end.

(** A client whose Credential Set is resolved ([accountsLoaded] is set, so
    that the [loadServiceAccounts()] of line 398 returns at line 71), with
    the fields that [getAccessToken] reads and writes. *)
Record ResolvedClient : Type := {
  r_clientId : option string;
  r_clientSecret : option string;
  r_refreshToken : option string;
  r_serviceAccounts : list Entry;
  r_currentServiceAccountIndex : nat;
  r_cachedTokens : gmap string CachedToken;
}.

(** The state a call on such a client runs in: the client, the clock and
    the trace. *)
Record Run : Type := {
  r_this : ResolvedClient;
  r_clock : Z;
  r_log : list Event;
}.

Definition r_with_index (c : ResolvedClient) (i : nat) : ResolvedClient :=
  {| r_clientId := r_clientId c; r_clientSecret := r_clientSecret c;
     r_refreshToken := r_refreshToken c;
     r_serviceAccounts := r_serviceAccounts c;
     r_currentServiceAccountIndex := i;
     r_cachedTokens := r_cachedTokens c |}.

Definition r_with_cache (c : ResolvedClient) (m : gmap string CachedToken)
    : ResolvedClient :=
  {| r_clientId := r_clientId c; r_clientSecret := r_clientSecret c;
     r_refreshToken := r_refreshToken c;
     r_serviceAccounts := r_serviceAccounts c;
     r_currentServiceAccountIndex := r_currentServiceAccountIndex c;
     r_cachedTokens := m |}.

Definition r_set_this (r : Run) (c : ResolvedClient) : Run :=
  {| r_this := c; r_clock := r_clock r; r_log := r_log r |}.
Definition r_set_clock (r : Run) (t : Z) : Run :=
  {| r_this := r_this r; r_clock := t; r_log := r_log r |}.
Definition r_emit (r : Run) (evs : list Event) : Run :=
  {| r_this := r_this r; r_clock := r_clock r; r_log := r_log r ++ evs |}.

(** [getCurrentServiceAccount()], lines 171-176: [None] is the [null] of
    line 173; otherwise the entry under the cursor, whatever it is. *)
Definition current_entry (c : ResolvedClient) : option Entry :=
  if (length (r_serviceAccounts c) =? 0)%nat then None
  else r_serviceAccounts c
         !! (r_currentServiceAccountIndex c
               mod length (r_serviceAccounts c))%nat.

(** [rotateServiceAccount()], lines 178-182. *)
Definition rotate_entries (c : ResolvedClient) : ResolvedClient :=
  if (1 <? length (r_serviceAccounts c))%nat
  then r_with_index c
         ((r_currentServiceAccountIndex c + 1)
            mod length (r_serviceAccounts c))%nat
  else c.

(** Lines 429-450: the OAuth refresh-token path. *)
Definition oauth_entries (W : World) (r : Run) : Completion * Run :=
  let c := r_this r in
  if negb (JsString.truthy_opt (r_clientId c))
     || negb (JsString.truthy_opt (r_clientSecret c))
     || negb (JsString.truthy_opt (r_refreshToken c))
  then (Rejected "No authentication method available. Configure service accounts or OAuth credentials.", r)
  else
    let cached := r_cachedTokens c !! "oauth" in
    if still_valid cached (r_clock r)
    then (Returned (cached ≫= token), r)
    else
      let x := refreshUserToken W (r_clientId c) (r_clientSecret c)
                 (r_refreshToken c) (r_clock r) in
      let r1 := r_set_clock (r_emit r [EvRefresh]) (settled_at x) in
      match settled x with
      | Ok tokenData =>
          (Returned (access_token tokenData),
           r_set_this r1
             (r_with_cache (r_this r1)
                (<["oauth" := cache_entry tokenData (r_clock r1)]>
                   (r_cachedTokens (r_this r1)))))
      | Throws m => (Rejected m, r1)
      end.

(** [getAccessToken()], lines 400-450, on a resolved client. The test of
    line 403 sends a falsy entry, like the [null] of an empty set, to the
    OAuth path. Each call of the function uses one unit of [fuel]. *)
Fixpoint getAccessToken_entries (W : World) (fuel : nat) (r : Run)
    : Completion * Run :=
  match fuel with
  | O => (Unfinished, r)
  | S fuel' =>
      match current_entry (r_this r) with
      | Some (TruthyEntry serviceAccount) =>
          let key := accountKey serviceAccount in
          let cached := r_cachedTokens (r_this r) !! key in
          if still_valid cached (r_clock r)
          then (Returned (cached ≫= token), r)
          else
            let x := fetchServiceAccountToken W serviceAccount (r_clock r) in
            let r2 := r_set_clock (r_emit r [EvMint serviceAccount])
                        (settled_at x) in
            match settled x with
            | Ok tokenData =>
                (Returned (access_token tokenData),
                 r_set_this r2
                   (r_with_cache (r_this r2)
                      (<[key := cache_entry tokenData (r_clock r2)]>
                         (r_cachedTokens (r_this r2)))))
            | Throws m =>
                let r3 :=
                  r_set_this
                    (r_emit r2 [EvError ("Service account " +:+ key
                                         +:+ " failed, rotating...")])
                    (rotate_entries (r_this r2)) in
                if (1 <? length (r_serviceAccounts (r_this r3)))%nat
                then getAccessToken_entries W fuel' r3
                else (Rejected m, r3)
            end
      | Some FalsyEntry | None => oauth_entries W r
      end
  end.

(** A client of records, seen as a client of entries; and a state whose
    client is resolved, seen as a state of a call. *)
Definition entries_of (c : DriveClient) : ResolvedClient :=
  {| r_clientId := clientId c; r_clientSecret := clientSecret c;
     r_refreshToken := refreshToken c;
     r_serviceAccounts := TruthyEntry <$> serviceAccounts c;
     r_currentServiceAccountIndex := currentServiceAccountIndex c;
     r_cachedTokens := cachedTokens c |}.

Definition run_of (s : Sys) : Run :=
  {| r_this := entries_of (this s); r_clock := clock s; r_log := log s |}.

(** The events that a call has added to the trace of [before]. *)
Definition r_new_events (before after : Run) : list Event :=
  drop (length (r_log before)) (r_log after).

(* ===================================================================== *)
(** * Properties of the base64url encoding and of the assertion *)
(* ===================================================================== *)

Section Base64Facts.
Import JsString Base64.

Example split_on_separator :
  split "|||" "a|||b||||c" = ["a"; "b"; "|c"]
  /\ split "|||" "a|||" = ["a"; EmptyString]
  /\ split "," EmptyString = [EmptyString]
  /\ split "," "r1, r2,,r3" = ["r1"; " r2"; EmptyString; "r3"].
Proof. repeat apply conj; reflexivity. Qed.

Example trim_both_ends :
  trim "  a b  " = "a b"
  /\ trim "   " = EmptyString
  /\ trim (String (ascii_of_N 9) (String "x" (String (ascii_of_N 10) EmptyString)))
     = "x".
Proof. repeat apply conj; reflexivity. Qed.

Lemma below_64 (P : N -> Prop) :
  (forall n : nat, (n < 64)%nat -> P (N.of_nat n)) -> forall v : N, (v < 64)%N -> P v.
Proof.
  intros H v Hv. rewrite <- (N2Nat.id v). apply H. lia.
Qed.

Lemma digit_decodes (v : N) :
  (v < 64)%N -> url_value (url_char (digit v)) = Some v.
Proof.
  revert v. apply below_64. intros n Hn.
  do 64 (destruct n as [|n]; [reflexivity|]). lia.
Qed.

Lemma digit_not_pad (v : N) :
  (v < 64)%N -> ascii_eqb (url_char (digit v)) pad = false.
Proof.
  revert v. apply below_64. intros n Hn.
  do 64 (destruct n as [|n]; [reflexivity|]). lia.
Qed.


Ltac nlia := zify; Z.to_euclidean_division_equations; lia.

Lemma byte_bound (a : ascii) : (N_of_ascii a < 256)%N.
Proof. apply N_ascii_bounded. Qed.

(** Induction on a string three characters at a time, as [btoa] reads it. *)
Lemma string_ind3 (P : string -> Prop) :
  P EmptyString ->
  (forall a, P (String a EmptyString)) ->
  (forall a b, P (String a (String b EmptyString))) ->
  (forall a b c s, P s -> P (String a (String b (String c s)))) ->
  forall s, P s.
Proof.
  intros H0 H1 H2 H3.
  fix IH 1. intros [|a [|b [|c s]]];
    [apply H0 | apply H1 | apply H2 | apply H3, IH].
Qed.

Lemma replace_pair s :
  replace_all "/" "_" (replace_all "+" "-" s) = smap url_char s.
Proof.
  induction s as [|a s IH]; [reflexivity|].
  cbn [replace_all smap]. unfold url_char at 1.
  destruct (ascii_eqb a "+") eqn:E1.
  - change ("-" +:+ replace_all "+" "-" s) with (String "-" (replace_all "+" "-" s)).
    cbn [replace_all]. change (ascii_eqb "-" "/") with false. cbv iota.
    now rewrite IH.
  - cbn [replace_all]. destruct (ascii_eqb a "/") eqn:E2.
    + change ("_" +:+ ?x) with (String "_" x). now rewrite IH.
    + now rewrite IH.
Qed.

Lemma strip_pad_keep c s :
  ascii_eqb c pad = false -> strip_pad (String c s) = String c (strip_pad s).
Proof.
  intros H. cbn [strip_pad]. rewrite H. now destruct (strip_pad s).
Qed.

Lemma to_url_digit v s :
  (v < 64)%N -> to_url (String (digit v) s) = String (url_char (digit v)) (to_url s).
Proof.
  intros Hv. unfold to_url. rewrite !replace_pair. cbn [smap].
  now rewrite strip_pad_keep by now apply digit_not_pad.
Qed.

Lemma to_url_pads : to_url (String pad EmptyString) = EmptyString
  /\ to_url (String pad (String pad EmptyString)) = EmptyString.
Proof. split; reflexivity. Qed.

Lemma encode_1 a :
  base64UrlEncode (String a EmptyString) =
  (let x := N_of_ascii a in
   String (url_char (digit (x / 4)))
     (String (url_char (digit (x mod 4 * 16))) EmptyString))%N.
Proof.
  pose proof (byte_bound a). unfold base64UrlEncode. cbn [btoa]. cbv zeta.
  rewrite !to_url_digit by nlia. now rewrite (proj2 to_url_pads).
Qed.

Lemma encode_2 a b :
  base64UrlEncode (String a (String b EmptyString)) =
  (let x := N_of_ascii a in let y := N_of_ascii b in
   String (url_char (digit (x / 4)))
     (String (url_char (digit (x mod 4 * 16 + y / 16)))
        (String (url_char (digit (y mod 16 * 4))) EmptyString)))%N.
Proof.
  pose proof (byte_bound a). pose proof (byte_bound b).
  unfold base64UrlEncode. cbn [btoa]. cbv zeta.
  rewrite !to_url_digit by nlia. now rewrite (proj1 to_url_pads).
Qed.

Lemma encode_3 a b c s :
  base64UrlEncode (String a (String b (String c s))) =
  (let x := N_of_ascii a in let y := N_of_ascii b in let z := N_of_ascii c in
   String (url_char (digit (x / 4)))
     (String (url_char (digit (x mod 4 * 16 + y / 16)))
        (String (url_char (digit (y mod 16 * 4 + z / 64)))
           (String (url_char (digit (z mod 64))) (base64UrlEncode s)))))%N.
Proof.
  pose proof (byte_bound a). pose proof (byte_bound b). pose proof (byte_bound c).
  unfold base64UrlEncode. cbn [btoa]. cbv zeta.
  now rewrite !to_url_digit by nlia.
Qed.

Lemma ascii_of_byte a n : n = N_of_ascii a -> ascii_of_N n = a.
Proof. intros ->. apply ascii_N_embedding. Qed.

Theorem decode_encode s : base64UrlDecode (base64UrlEncode s) = Some s.
Proof.
  induction s as [|a|a b|a b c s IH] using string_ind3.
  - reflexivity.
  - rewrite encode_1. pose proof (byte_bound a). cbv zeta. cbn [base64UrlDecode].
    rewrite !digit_decodes by nlia. cbn [mbind option_bind].
    f_equal. f_equal. apply ascii_of_byte. nlia.
  - rewrite encode_2. pose proof (byte_bound a). pose proof (byte_bound b).
    cbv zeta. cbn [base64UrlDecode].
    rewrite !digit_decodes by nlia. cbn [mbind option_bind].
    f_equal. f_equal; [|f_equal]; apply ascii_of_byte; nlia.
  - rewrite encode_3. pose proof (byte_bound a). pose proof (byte_bound b).
    pose proof (byte_bound c).
    cbv zeta. cbn [base64UrlDecode].
    rewrite !digit_decodes by nlia. rewrite IH. cbn [mbind option_bind].
    f_equal. f_equal; [|f_equal; [|f_equal]]; apply ascii_of_byte; nlia.
Qed.

Lemma digit_is_url v : (v < 64)%N -> is_url_digit (url_char (digit v)) = true.
Proof. intros H. unfold is_url_digit. now rewrite digit_decodes. Qed.

Lemma encode_alphabet s : all_chars is_url_digit (base64UrlEncode s) = true.
Proof.
  induction s as [|a|a b|a b c s IH] using string_ind3.
  - reflexivity.
  - rewrite encode_1. pose proof (byte_bound a). cbv zeta. cbn [all_chars].
    now rewrite !digit_is_url by nlia.
  - rewrite encode_2. pose proof (byte_bound a). pose proof (byte_bound b).
    cbv zeta. cbn [all_chars]. now rewrite !digit_is_url by nlia.
  - rewrite encode_3. pose proof (byte_bound a). pose proof (byte_bound b).
    pose proof (byte_bound c). cbv zeta. cbn [all_chars].
    now rewrite !digit_is_url, IH by nlia.
Qed.

Lemma append_cons a s r : String a s +:+ r = String a (s +:+ r).
Proof. reflexivity. Qed.

Lemma append_empty_r s : s +:+ EmptyString = s.
Proof. induction s as [|a s IH]; [reflexivity|]. rewrite append_cons. now rewrite IH. Qed.

Lemma all_chars_occurs P c s :
  all_chars P s = true -> P c = false -> occurs c s = false.
Proof.
  intros Hs Hc. induction s as [|a s IH]; [reflexivity|].
  cbn [all_chars occurs] in *. apply andb_true_iff in Hs as [Ha Hs].
  rewrite (IH Hs), orb_false_r. unfold ascii_eqb.
  destruct (Ascii.eqb a c) eqn:E; [|reflexivity].
  apply Ascii.eqb_eq in E. congruence.
Qed.

Lemma split_dot_piece h cur rest :
  occurs "." h = false ->
  split_go "." 0 cur (h +:+ rest)
  = split_go "." 0 (rev (list_ascii_of_string h) ++ cur) rest.
Proof.
  revert cur. induction h as [|a h IH]; intros cur Hh; [reflexivity|].
  cbn [occurs] in Hh. apply orb_false_iff in Hh as [Ha Hh].
  rewrite append_cons. cbn [split_go String.prefix list_ascii_of_string rev].
  destruct (ascii_dec "." a) as [<-|_]; [discriminate Ha|].
  rewrite (IH _ Hh). now rewrite <- app_assoc.
Qed.

Lemma split_dot_sep cur rest :
  split_go "." 0 cur (String "." rest)
  = string_of_list_ascii (rev cur) :: split_go "." 0 [] rest.
Proof.
  cbn [split_go String.prefix].
  destruct (ascii_dec "." ".") as [_|N]; [|now destruct N].
  now destruct rest.
Qed.

Lemma rev_chars h :
  string_of_list_ascii (rev (rev (list_ascii_of_string h) ++ [])) = h.
Proof.
  rewrite app_nil_r, rev_involutive. apply string_of_list_ascii_of_string.
Qed.

Lemma split_three h p g :
  occurs "." h = false -> occurs "." p = false -> occurs "." g = false ->
  split "." (h +:+ "." +:+ p +:+ "." +:+ g) = [h; p; g].
Proof.
  intros Hh Hp Hg. unfold split.
  rewrite (split_dot_piece h [] _ Hh).
  change ("." +:+ ?x) with (String "." x). rewrite split_dot_sep, rev_chars.
  rewrite (split_dot_piece p [] _ Hp).
  change ("." +:+ ?x) with (String "." x). rewrite split_dot_sep, rev_chars.
  rewrite <- (append_empty_r g) at 1.
  rewrite (split_dot_piece g [] _ Hg). cbn [split_go]. now rewrite rev_chars.
Qed.

Lemma append_assoc (a b c : string) : (a +:+ b) +:+ c = a +:+ (b +:+ c).
Proof.
  induction a as [|x a IH]; [reflexivity|].
  rewrite !append_cons. now rewrite IH.
Qed.

(** The header and the payload, as texts. *)
Lemma header_text : jwt_header = header_json.
Proof. reflexivity. Qed.

Lemma payload_text (sa : ServiceAccount) (iat : Z) :
  jwt_payload sa iat = payload_json (Json.quote <$> client_email sa) iat.
Proof.
  unfold jwt_payload, payload_json, Json.object, Json.member, Json.number,
    DRIVE_SCOPE, TOKEN_ENDPOINT.
  generalize (pretty (iat + 3600)) (pretty iat). intros e i.
  destruct (client_email sa) as [email|]; cbn [fmap option_fmap option_map app].
  - generalize (Json.quote email). intros m.
    unfold join. cbn [String.concat].
    rewrite !append_assoc. reflexivity.
  - unfold join. cbn [String.concat].
    rewrite !append_assoc. reflexivity.
Qed.

(** A string of plain characters is written between two double quotes. *)
Lemma quote_plain (s : string) :
  all_chars json_plain s = true ->
  Json.quote s = String dquote (s +:+ String dquote EmptyString).
Proof.
  intros H. unfold Json.quote. f_equal. f_equal.
  induction s as [|c s IH]; [reflexivity|].
  cbn [all_chars] in H. apply andb_true_iff in H as [Hc Hs].
  cbn [Json.quote_body]. rewrite (IH Hs).
  assert (Json.quote_char c = String c EmptyString) as ->; [|reflexivity].
  unfold json_plain in Hc. unfold Json.quote_char. cbv zeta in *.
  apply andb_true_iff in Hc as [Hc H92]. apply andb_true_iff in Hc as [H32 H34].
  apply negb_true_iff in H34, H92. apply N.leb_le in H32.
  rewrite H34, H92.
  repeat match goal with
         | |- context [(?n =? ?k)%N] =>
             destruct (N.eqb_spec n k); [lia|]
         end.
  destruct (N.ltb_spec (N_of_ascii c) 32); [lia|reflexivity].
Qed.

(** C7. The assertion is [header.payload.signature]: splitting it at the
    dots gives three segments, none of which holds a padding character.
    Decoding the first as base64url gives the JSON text of the header,
    [{alg: RS256, typ: JWT}] with its members and strings between double
    quotes (the segment is eyJhbGciOiJSUzI1NiIsInR5cCI6IkpXVCJ9).
    Decoding the second gives the JSON text of the payload: the member
    [iss] with the [client_email] as a JSON string (the email between
    double quotes when its characters are plain; no member when the
    record has none), then [scope] with the Drive scope, [aud] with the
    token endpoint, [exp] with [iat + 3600] and [iat], in decimal, where
    [iat] is the clock in whole seconds. *)
Theorem jwt_round_trip (W : World) (sa : ServiceAccount) (now : Z) (raw : string) :
  let h := base64UrlEncode jwt_header in
  let p := base64UrlEncode (jwt_payload sa (now / 1000)) in
  let g := to_url (arrayBufferToBase64 raw) in
  crypto_sign W (h +:+ "." +:+ p) (private_key sa) = Ok raw ->
  generateServiceAccountAssertion W sa now = Ok (h +:+ "." +:+ p +:+ "." +:+ g)
  /\ split "." (h +:+ "." +:+ p +:+ "." +:+ g) = [h; p; g]
  /\ base64UrlDecode h = Some jwt_header
  /\ base64UrlDecode p = Some (jwt_payload sa (now / 1000))
  /\ occurs pad h = false /\ occurs pad p = false /\ occurs pad g = false
  /\ h = "eyJhbGciOiJSUzI1NiIsInR5cCI6IkpXVCJ9"
  /\ base64UrlDecode h = Some (json_text "{'alg':'RS256','typ':'JWT'}")
  /\ base64UrlDecode p
     = Some (payload_json (Json.quote <$> client_email sa) (now / 1000))
  /\ (forall email,
        client_email sa = Some email ->
        all_chars json_plain email = true ->
        base64UrlDecode p
        = Some (json_text "{'iss':'" +:+ email
                +:+ json_text "','scope':'https://www.googleapis.com/auth/drive','aud':'https://oauth2.googleapis.com/token','exp':"
                +:+ pretty (now / 1000 + 3600)
                +:+ json_text ",'iat':"
                +:+ pretty (now / 1000)
                +:+ "}")).
Proof.
  intros h p g Hsign.
  assert (Hh : all_chars is_url_digit h = true) by apply encode_alphabet.
  assert (Hp : all_chars is_url_digit p = true) by apply encode_alphabet.
  assert (Hg : all_chars is_url_digit g = true) by apply (encode_alphabet raw).
  repeat apply conj.
  - unfold generateServiceAccountAssertion, sign. cbv zeta. fold h p.
    now rewrite Hsign.
  - apply split_three; eapply all_chars_occurs; eauto.
  - apply decode_encode.
  - apply decode_encode.
  - eapply all_chars_occurs; eauto.
  - eapply all_chars_occurs; eauto.
  - eapply all_chars_occurs; eauto.
  - reflexivity.
  - subst h. rewrite decode_encode. reflexivity.
  - subst p. rewrite decode_encode. now rewrite payload_text.
  - intros email He Hplain. subst p.
    rewrite decode_encode, payload_text, He. cbn [fmap option_fmap option_map].
    rewrite (quote_plain email Hplain). apply (f_equal Some).
    unfold payload_json.
    generalize (pretty (now / 1000 + 3600)) (pretty (now / 1000)). intros e i.
    repeat match goal with
           | |- context [json_text ?s] =>
               let v := eval vm_compute in (json_text s) in
               change (json_text s) with v
           end.
    change (String dquote (email +:+ String dquote EmptyString))
      with (String dquote EmptyString +:+ (email +:+ String dquote EmptyString)).
    rewrite !append_assoc. cbv [String.append]. reflexivity.
Qed.

End Base64Facts.

Lemma jwt_round_trip_witness :
  let W := Sample.world None Sample.offline (Sample.granting None) in
  let now := 1730000000123 in
  let h := Base64.base64UrlEncode jwt_header in
  let p := Base64.base64UrlEncode (jwt_payload Sample.alice (now / 1000)) in
  let g := Base64.to_url (Base64.arrayBufferToBase64 "signature") in
  crypto_sign W (h +:+ "." +:+ p) (private_key Sample.alice) = Ok "signature"
  /\ generateServiceAccountAssertion W Sample.alice now
     = Ok (h +:+ "." +:+ p +:+ "." +:+ g)
  /\ JsString.split "." (h +:+ "." +:+ p +:+ "." +:+ g) = [h; p; g]
  /\ h = "eyJhbGciOiJSUzI1NiIsInR5cCI6IkpXVCJ9"
  /\ g = "c2lnbmF0dXJl"
  /\ Base64.base64UrlDecode h = Some (json_text "{'alg':'RS256','typ':'JWT'}")
  /\ Base64.base64UrlDecode p
     = Some (json_text "{'iss':'alice@demo.iam.gserviceaccount.com','scope':'https://www.googleapis.com/auth/drive','aud':'https://oauth2.googleapis.com/token','exp':1730003600,'iat':1730000000}").
Proof.
  intros W now h p g.
  pose proof (jwt_round_trip W Sample.alice now "signature" eq_refl)
    as (Hgen & Hsplit & _ & _ & _ & _ & _ & Hh & Hdh & _ & Hdp).
  split; [reflexivity|]. split; [exact Hgen|]. split; [exact Hsplit|].
  split; [exact Hh|]. split; [reflexivity|]. split; [exact Hdh|].
  subst p. rewrite (Hdp "alice@demo.iam.gserviceaccount.com" eq_refl eq_refl).
  vm_compute. reflexivity.
Defined.

(** The text of the header, through its well-known encoding. *)
Example jwt_header_encoded :
  Base64.base64UrlEncode jwt_header = "eyJhbGciOiJSUzI1NiIsInR5cCI6IkpXVCJ9".
Proof. reflexivity. Qed.

Example btoa_rfc4648 :
  List.map Base64.btoa ["f"; "fo"; "foo"; "foob"; "fooba"; "foobar"]
  = ["Zg=="; "Zm8="; "Zm9v"; "Zm9vYg=="; "Zm9vYmE="; "Zm9vYmFy"].
Proof. reflexivity. Qed.

(* ===================================================================== *)
(** * Properties of the listing request *)
(* ===================================================================== *)

Section ListingFacts.
Import JsString.

Lemma truthy_cons a s : truthy (String a s) = true.
Proof. reflexivity. Qed.

(** The parent clause is the empty string exactly when no root is
    configured. *)
Lemma parents_clause_truthy (c : DriveClient) :
  truthy (buildParentsQuery c)
  = match parents c with [] => false | _ :: _ => true end.
Proof.
  unfold buildParentsQuery.
  destruct (parents c) as [|p1 [|p2 rest]]; reflexivity.
Qed.

Lemma escape_cons a s :
  escapeQueryValue (String a s)
  = (if ascii_eqb a squote then String backslash (String squote EmptyString)
     else String a EmptyString) +:+ escapeQueryValue s.
Proof.
  unfold escapeQueryValue. cbn [replace_all].
  now destruct (ascii_eqb a squote).
Qed.

Lemma parents_part_spec (c : DriveClient) :
  (if truthy (buildParentsQuery c) then [buildParentsQuery c] else [])
  = parents_part c.
Proof.
  rewrite parents_clause_truthy. unfold parents_part.
  now destruct (parents c).
Qed.

(** C8. With [type = images] and [search = cat] the query is the
    conjunction, joined by [ and ], of [trashed = false], the parent clause
    when roots are configured, [name contains 'cat'] and the group of image
    predicates (a single predicate). For every search term the clause is
    built from the trimmed term in which each apostrophe is preceded by a
    backslash and every other character is copied; [O'Brien] becomes
    [O\'Brien]. *)
Theorem listFiles_query_shape (c : DriveClient) (size : option Z)
    (page : option string) :
  listFiles_q c {| pageSize := size; pageToken := page;
                   search := Some "cat"; type_ := Some "images" |}
  = join " and "
      (["trashed = false"] ++ parents_part c
       ++ ["name contains 'cat'"; "mimeType contains 'image/'"])
  /\ (forall term : string,
        listFiles_q c {| pageSize := size; pageToken := page;
                         search := Some term; type_ := None |}
        = join " and "
            (["trashed = false"] ++ parents_part c
             ++ (if truthy (trim term)
                 then ["name contains " +:+ q (escapeQueryValue (trim term))]
                 else [])))
  /\ escapeQueryValue EmptyString = EmptyString
  /\ (forall a s,
        escapeQueryValue (String a s)
        = (if ascii_eqb a squote
           then String backslash (String squote EmptyString)
           else String a EmptyString) +:+ escapeQueryValue s)
  /\ "name contains " +:+ q (escapeQueryValue "O'Brien")
     = "name contains 'O\'Brien'".
Proof.
  repeat apply conj.
  - unfold listFiles_q. cbn [search type_]. rewrite parents_part_spec.
    reflexivity.
  - intros term. unfold listFiles_q. cbn [search type_].
    rewrite parents_part_spec. cbn [buildTypeClause truthy].
    now rewrite app_nil_r.
  - reflexivity.
  - apply escape_cons.
  - reflexivity.
Qed.

Example listFiles_q_one_root :
  listFiles_q (new_DriveClient {[ "DRIVE_UPLOAD_ROOT" := "root" ]})
    {| pageSize := None; pageToken := None;
       search := Some "cat"; type_ := Some "images" |}
  = "trashed = false and 'root' in parents and name contains 'cat' and mimeType contains 'image/'".
Proof. reflexivity. Qed.

Example listFiles_q_two_roots :
  listFiles_q (new_DriveClient {[ "DRIVE_UPLOAD_ROOT" := "r1, r2" ]})
    {| pageSize := None; pageToken := None;
       search := Some " O'Brien "; type_ := Some "audio" |}
  = "trashed = false and ('r1' in parents or 'r2' in parents) and name contains 'O\'Brien' and mimeType contains 'audio/'".
Proof. reflexivity. Qed.

(** C9, as the specification states it, fails for a request of 0: the
    default 24 is sent, not 1. *)
Lemma page_size_zero_not_one :
  let o := {| pageSize := Some 0; pageToken := None;
              search := None; type_ := None |} in
  0 < 1
  /\ safeSize o = 24
  /\ listFiles_params (new_DriveClient ∅) o !! 0%nat = Some ("pageSize", "24")
  /\ safeSize o <> 1.
Proof. repeat apply conj; [reflexivity | reflexivity | reflexivity | discriminate]. Qed.

(** C9 (amended). The size sent lies in [1, 100]: a request above 100 is
    sent as 100, a negative request as 1, a request from 1 to 100 as it
    is, and a request of 0 or no request as the default 24. *)
Theorem page_size_clamped (c : DriveClient) (o : ListOptions) :
  listFiles_params c o !! 0%nat = Some ("pageSize", pretty (safeSize o))
  /\ 1 <= safeSize o <= 100
  /\ safeSize o
     = match pageSize o with
       | None => 24
       | Some n =>
           if n =? 0 then 24
           else if n <? 0 then 1
           else if 100 <? n then 100
           else n
       end.
Proof.
  repeat apply conj.
  - reflexivity.
  - unfold safeSize, MAX_LIST_PAGE_SIZE. destruct (pageSize o) as [n|]; [|lia].
    destruct (n =? 0); lia.
  - unfold safeSize, MAX_LIST_PAGE_SIZE. destruct (pageSize o) as [n|]; [|lia].
    destruct (Z.eqb_spec n 0); [lia|].
    destruct (Z.ltb_spec n 0); [lia|].
    destruct (Z.ltb_spec 100 n); lia.
  - unfold safeSize, MAX_LIST_PAGE_SIZE. destruct (pageSize o) as [n|]; [|reflexivity].
    destruct (Z.eqb_spec n 0); [reflexivity|].
    destruct (Z.ltb_spec n 0); [lia|].
    destruct (Z.ltb_spec 100 n); lia.
Qed.

End ListingFacts.

(* ===================================================================== *)
(** * Properties of credential resolution *)
(* ===================================================================== *)

Section ResolverFacts.

Lemma new_events_app (s s' : Sys) (evs : list Event) :
  log s' = log s ++ evs -> new_events s s' = evs.
Proof. intros H. unfold new_events. rewrite H. apply drop_app_length. Qed.

Lemma new_events_same (s : Sys) : new_events s s = [].
Proof. apply new_events_app. now rewrite app_nil_r. Qed.

(** A call on a client whose Credential Set is resolved does nothing. *)
Lemma load_when_loaded (W : World) (s : Sys) :
  accountsLoaded (this s) = true -> loadServiceAccounts W s = s.
Proof.
  intros H. unfold loadServiceAccounts, load_enter. now rewrite H.
Qed.

(** From the call to the moment the bundled module is known. *)
Lemma load_unfold (W : World) (s : Sys) :
  accountsLoaded (this s) = false ->
  coherent W (globals s) ->
  exists s2 evs,
    loadServiceAccounts W s
    = match load_after_import W s2 (import_bundled W) with
      | (s3, AwaitFetch url t) => load_after_fetch W s3 (http_get W url t)
      | (s3, _) => s3
      end
    /\ this s2 = this s /\ clock s2 = clock s /\ log s2 = log s ++ evs
    /\ fetches evs = 0%nat /\ env_reads evs = [].
Proof.
  intros Hl Hc. unfold loadServiceAccounts, load_enter. rewrite Hl.
  unfold coherent in Hc.
  destruct s as [[cache [[|module]|]] c t l]; cbn in *.
  - eexists _, []. split; [reflexivity|]. now rewrite app_nil_r.
  - subst module. eexists _, []. split; [reflexivity|]. now rewrite app_nil_r.
  - eexists _, [EvImport]. split; [reflexivity|]. easy.
Qed.

Lemma counters_app (l k : list Event) :
  fetches (l ++ k) = (fetches l + fetches k)%nat
  /\ env_reads (l ++ k) = env_reads l ++ env_reads k.
Proof.
  unfold fetches, count_events, env_reads.
  now rewrite List.filter_app, length_app, omap_app.
Qed.

(** C4, as the specification states it, fails when the bundled collection
    has an empty [accounts] array: the first source with a non-empty
    collection is the URL, which is not fetched, and the Credential Set is
    empty. *)
Lemma empty_bundle_shadows_url :
  let url := "https://example.test/accounts.json" in
  let remote (u : string) (t : Z) :=
    {| settled_at := t + 50;
       settled := FetchResponse true (Ok {| accounts := Some [Sample.alice] |}) |} in
  let W := Sample.world (Some {| accounts := Some [] |}) remote
             (Sample.granting None) in
  let s := Sample.boot (new_DriveClient {[ "SERVICE_ACCOUNTS_URL" := url ]}) 0 in
  let s' := loadServiceAccounts W s in
  import_bundled W = Some {| accounts := Some [] |}
  /\ env_get (env (this s)) "SERVICE_ACCOUNTS_URL" = Some url
  /\ settled (http_get W url 0)
     = FetchResponse true (Ok {| accounts := Some [Sample.alice] |})
  /\ serviceAccounts (this s') = []
  /\ accountsLoaded (this s') = true
  /\ fetches (log s') = 0%nat.
Proof. vm_compute. repeat apply conj; reflexivity. Qed.

(** C4 (amended). The first source that yields an [accounts] array, empty
    or not, is used exclusively. When the bundled collection is present
    with an [accounts] array, that array becomes the Credential Set, the
    URL is not fetched and no variable of the environment is read. When
    the bundled collection yields no array and the configured URL answers
    with one, that array becomes the Credential Set and no credential
    variable is read. *)
Theorem first_accounts_array_wins (W : World) (s : Sys) :
  accountsLoaded (this s) = false ->
  coherent W (globals s) ->
  (forall l,
     import_bundled W = Some {| accounts := Some l |} ->
     let s' := loadServiceAccounts W s in
     serviceAccounts (this s') = l
     /\ accountsLoaded (this s') = true
     /\ fetches (new_events s s') = 0%nat
     /\ env_reads (new_events s s') = [])
  /\ (forall url body l,
        import_bundled W ≫= accounts = None ->
        env_get (env (this s)) "SERVICE_ACCOUNTS_URL" = Some url ->
        settled (http_get W url (clock s)) = FetchResponse true (Ok body) ->
        accounts body = Some l ->
        let s' := loadServiceAccounts W s in
        serviceAccounts (this s') = l
        /\ accountsLoaded (this s') = true
        /\ fetches (new_events s s') = 1%nat
        /\ env_reads (new_events s s') = ["SERVICE_ACCOUNTS_URL"]).
Proof.
  intros Hl Hc.
  destruct (load_unfold W s Hl Hc) as (s2 & evs & Hrun & Hthis & Hclock & Hlog & Hf & He).
  split.
  - intros l Hb s'. subst s'. rewrite Hrun, Hb.
    unfold load_after_import. cbn.
    repeat apply conj; try reflexivity.
    + erewrite new_events_app;
        [|cbn; rewrite Hlog, <- app_assoc; reflexivity].
      rewrite (proj1 (counters_app _ _)), Hf. reflexivity.
    + erewrite new_events_app;
        [|cbn; rewrite Hlog, <- app_assoc; reflexivity].
      rewrite (proj2 (counters_app _ _)), He. reflexivity.
  - intros url body l Hb Hurl Hget Hacc s'. subst s'. rewrite Hrun.
    unfold load_after_import. rewrite Hb, Hthis, Hurl, Hclock.
    unfold load_after_fetch. rewrite Hget, Hacc. cbn.
    repeat apply conj; try reflexivity.
    + erewrite new_events_app;
        [|cbn; rewrite Hlog, <- !app_assoc; reflexivity].
      rewrite (proj1 (counters_app _ _)), Hf. reflexivity.
    + erewrite new_events_app;
        [|cbn; rewrite Hlog, <- !app_assoc; reflexivity].
      rewrite (proj2 (counters_app _ _)), He. reflexivity.
Qed.

Lemma first_accounts_array_wins_witness :
  let W := Sample.world (Some {| accounts := Some [Sample.alice; Sample.bob] |})
             Sample.offline (Sample.granting None) in
  let s := Sample.boot
             (new_DriveClient {[ "SERVICE_ACCOUNTS_URL" := "https://example.test/a.json" ]})
             0 in
  let s' := loadServiceAccounts W s in
  accountsLoaded (this s) = false
  /\ coherent W (globals s)
  /\ serviceAccounts (this s') = [Sample.alice; Sample.bob]
  /\ fetches (new_events s s') = 0%nat
  /\ env_reads (new_events s s') = [].
Proof.
  intros W s s'.
  assert (Hl : accountsLoaded (this s) = false) by reflexivity.
  assert (Hc : coherent W (globals s)) by exact I.
  destruct (proj1 (first_accounts_array_wins W s Hl Hc)
              [Sample.alice; Sample.bob] eq_refl) as (H1 & _ & H3 & H4).
  repeat apply conj; assumption.
Defined.

(** ** The environment-variable method *)

Lemma parse_joined_all (W : World) (l : list string) (acc : list ServiceAccount) :
  Forall (fun b => parsed W b <> None)
         (List.filter JsString.truthy (List.map JsString.trim l)) ->
  parse_joined W l acc
  = (acc ++ omap (parsed W)
              (List.filter JsString.truthy (List.map JsString.trim l)), []).
Proof.
  revert acc. induction l as [|b l IH]; intros acc H; cbn.
  - now rewrite app_nil_r.
  - cbn in H. destruct (JsString.truthy (JsString.trim b)) eqn:Eb.
    + inversion H as [|? ? Hb Hrest]; subst. cbn. unfold parsed in *.
      destruct (JSON_parse W (JsString.trim b)) as [sa|m]; [|congruence].
      rewrite (IH _ Hrest), <- app_assoc. reflexivity.
    + apply IH, H.
Qed.

(** Whether the numbered key [j] is present (set to a non-empty value). *)
Lemma present_of_record (W : World) (e : gmap string string) (k : nat) :
  numbered_record W e k <> None -> env_get e (numbered_key k) <> None.
Proof. unfold numbered_record. now destruct (env_get e (numbered_key k)). Qed.

Lemma omap_step {A B} (f : A -> option B) (x : A) (l : list A) :
  omap f (x :: l)
  = match f x with Some y => y :: omap f l | None => omap f l end.
Proof. reflexivity. Qed.

Lemma warnings_read (k : string) (l : list Event) :
  warnings (EvEnvRead k :: l) = warnings l.
Proof. reflexivity. Qed.

Lemma warnings_app (l k : list Event) :
  warnings (l ++ k) = warnings l ++ warnings k.
Proof. unfold warnings. apply omap_app. Qed.

Lemma warnings_warn (t : string) (l : list Event) :
  warnings (EvWarn t :: l) = t :: warnings l.
Proof. reflexivity. Qed.

Lemma record_ok (W : World) (e : gmap string string) (i : nat) v sa :
  env_get e (numbered_key i) = Some v -> JSON_parse W v = Ok sa ->
  numbered_record W e i = Some sa.
Proof.
  intros Ev Ep. unfold numbered_record, parsed. rewrite Ev. cbn. now rewrite Ep.
Qed.

Lemma record_bad (W : World) (e : gmap string string) (i : nat) v m :
  env_get e (numbered_key i) = Some v -> JSON_parse W v = Throws m ->
  numbered_record W e i = None.
Proof.
  intros Ev Ep. unfold numbered_record, parsed. rewrite Ev. cbn. now rewrite Ep.
Qed.

Lemma record_absent (W : World) (e : gmap string string) (i : nat) :
  env_get e (numbered_key i) = None -> numbered_record W e i = None.
Proof. intros Ev. unfold numbered_record. now rewrite Ev. Qed.

(** The loop of lines 154-166 reads every key when it is never stopped:
    when a record has been collected before it starts, or when it meets a
    well-formed key before any absent key of index 1 or more. *)
Lemma parse_numbered_all (W : World) (e : gmap string string) (n i : nat)
    (acc : list ServiceAccount) :
  (acc <> []
   \/ exists k, (i <= k < i + n)%nat /\ numbered_record W e k <> None
        /\ forall j, (1 <= j)%nat -> (i <= j < k)%nat ->
                     env_get e (numbered_key j) <> None) ->
  (parse_numbered W e n i acc).1 = acc ++ omap (numbered_record W e) (seq i n)
  /\ forall j v m, (i <= j < i + n)%nat ->
       env_get e (numbered_key j) = Some v -> JSON_parse W v = Throws m ->
       ("Failed to parse " +:+ numbered_key j)
         ∈ warnings (parse_numbered W e n i acc).2.
Proof.
  revert i acc. induction n as [|n IH]; intros i acc H.
  - cbn. rewrite app_nil_r. split; [reflexivity|]. intros; lia.
  - cbn [parse_numbered seq]. rewrite omap_step.
    destruct (env_get e (numbered_key i)) as [v|] eqn:Ev.
    + destruct (JSON_parse W v) as [sa|m] eqn:Ep.
      * rewrite (record_ok W e i v sa Ev Ep).
        destruct (IH (S i) (acc ++ [sa])) as [IH1 IH2].
        { left. now destruct acc. }
        cbn [fst snd]. rewrite IH1, <- app_assoc. split; [reflexivity|].
        intros j v' m' Hj Hv' Hm'. rewrite warnings_read.
        destruct (decide (j = i)) as [->|Hne]; [congruence|].
        apply IH2 with (v := v') (m := m'); [lia|assumption..].
      * rewrite (record_bad W e i v m Ev Ep).
        destruct (IH (S i) acc) as [IH1 IH2].
        { destruct H as [H|(k & Hk & Hrec & Hgap)]; [now left|right].
          exists k. repeat split; try lia.
          - destruct (decide (k = i)) as [->|]; [|lia].
            now rewrite (record_bad W e i v m Ev Ep) in Hrec.
          - assumption.
          - intros j H1 Hj. apply Hgap; lia. }
        cbn [fst snd]. rewrite IH1. split; [reflexivity|].
        intros j v' m' Hj Hv' Hm'. rewrite warnings_read, warnings_warn.
        destruct (decide (j = i)) as [->|Hne]; [left|right].
        apply IH2 with (v := v') (m := m'); [lia|assumption..].
    + rewrite (record_absent W e i Ev).
      assert (Hgo : ((0 <? i)%nat && (length acc =? 0)%nat = false)
                    /\ (acc <> []
                        \/ exists k, (S i <= k < S i + n)%nat
                             /\ numbered_record W e k <> None
                             /\ forall j, (1 <= j)%nat -> (S i <= j < k)%nat ->
                                          env_get e (numbered_key j) <> None)).
      { destruct H as [H|(k & Hk & Hrec & Hgap)].
        - split; [|now left]. destruct acc; [congruence|].
          cbn. now rewrite andb_false_r.
        - assert (k <> i).
          { intros ->. apply present_of_record in Hrec. congruence. }
          destruct (Nat.ltb_spec 0 i) as [Hpos|Hz].
          + exfalso. apply (Hgap i); [lia|lia|assumption].
          + split; [reflexivity|]. right. exists k.
            repeat split; try lia; [assumption|].
            intros j H1 Hj. apply Hgap; lia. }
      destruct Hgo as [Hb Hnext]. rewrite Hb.
      destruct (IH (S i) acc Hnext) as [IH1 IH2].
      cbn [fst snd]. rewrite IH1. split; [reflexivity|].
      intros j v' m' Hj Hv' Hm'. rewrite warnings_read.
      destruct (decide (j = i)) as [->|Hne]; [congruence|].
      apply IH2 with (v := v') (m := m'); [lia|assumption..].
Qed.

(** The loop stops at key 1 when nothing has been collected by then. *)
Lemma parse_numbered_stops_at_1 (W : World) (e : gmap string string) (n : nat) :
  numbered_record W e 0 = None ->
  env_get e (numbered_key 1) = None ->
  (parse_numbered W e (S (S n)) 0 []).1 = [].
Proof.
  intros H0 H1. cbn [parse_numbered].
  unfold numbered_record, parsed in H0.
  destruct (env_get e (numbered_key 0)) as [v|]; cbn in H0.
  - destruct (JSON_parse W v); [discriminate|]. cbn [fst]. now rewrite H1.
  - cbn [Nat.ltb Nat.leb andb fst]. now rewrite H1.
Qed.

(** [parse_upto] for any bound of the loop. *)
Lemma parse_upto_facts (W : World) (e : gmap string string) (n : nat) :
  ((joined_part W e <> []
    \/ exists k, (k < n)%nat /\ numbered_record W e k <> None
         /\ forall j, (1 <= j < k)%nat ->
                      env_get e (numbered_key j) <> None) ->
   (parse_upto W e n).1 = joined_part W e ++ numbered_records_upto W e n
   /\ forall j v m, (j < n)%nat ->
        env_get e (numbered_key j) = Some v -> JSON_parse W v = Throws m ->
        ("Failed to parse " +:+ numbered_key j)
          ∈ warnings (parse_upto W e n).2)
  /\ (joined_part W e = [] -> numbered_record W e 0 = None ->
      env_get e (numbered_key 1) = None ->
      (parse_upto W e (S (S n))).1 = []).
Proof.
  assert (Hj : (match env_get e "GDRIVE_SERVICE_ACCOUNTS" with
                | Some v => parse_joined W (JsString.split "|||" v) []
                | None => ([], [])
                end).1 = joined_part W e).
  { unfold joined_part. now destruct (env_get e "GDRIVE_SERVICE_ACCOUNTS"). }
  split.
  - intros H.
    destruct (parse_numbered_all W e n 0 (joined_part W e)) as [H1 H2].
    { destruct H as [H|(k & Hk & Hrec & Hgap)]; [now left|right].
      exists k. repeat split; try lia; [assumption|].
      intros j Hj1 Hj2. apply Hgap. lia. }
    unfold parse_upto. cbv zeta. rewrite Hj. cbn [fst snd].
    split; [exact H1|].
    intros j v m Hlt Hv Hm. rewrite warnings_read, warnings_app.
    apply elem_of_app. right.
    apply (H2 j v m); [lia|assumption..].
  - intros Hnone H0 H1. unfold parse_upto. cbv zeta.
    rewrite Hj, Hnone. cbn [fst]. now apply parse_numbered_stops_at_1.
Qed.

Lemma load_from_env_loaded (W : World) (s : Sys) :
  accountsLoaded (this (load_from_env W s)) = true
  /\ ((parseServiceAccounts W (env (this s))).1 <> [] ->
      serviceAccounts (this (load_from_env W s))
      = (parseServiceAccounts W (env (this s))).1).
Proof.
  unfold load_from_env. cbv zeta.
  set (r := parseServiceAccounts W (env (this s))).
  destruct r.1 as [|sa l] eqn:Er.
  - cbn [length Nat.eqb]. split; [|congruence].
    destruct (env_get _ _) as [v|]; [destruct (JSON_parse W v)|]; reflexivity.
  - cbn [length Nat.eqb]. split; reflexivity.
Qed.

(** C5, as the specification states it, fails when the numbered keys do
    not start at 0: with only [GDRIVE_SERVICE_ACCOUNT_2] set, to a
    well-formed key, no record is resolved. *)
Lemma numbered_key_after_gap_is_lost :
  let W := Sample.world None Sample.offline (Sample.granting None) in
  let e : gmap string string := {[ "GDRIVE_SERVICE_ACCOUNT_2" := "{alice}" ]} in
  numbered_record W e 2 = Some Sample.alice
  /\ (parseServiceAccounts W e).1 = []
  /\ serviceAccounts (this (loadServiceAccounts W (Sample.boot (new_DriveClient e) 0)))
     = [].
Proof. vm_compute. repeat apply conj; reflexivity. Qed.

(** C5 (amended). When resolution reaches the environment-variable method
    it always completes, with the records collected, even none. The blobs
    of the delimiter-joined value, when all are well-formed, are all
    collected, in order. The numbered keys are read from index 0: when a
    record has been collected from the joined value, or a well-formed
    numbered key comes before any absent key of index 1 or more, every
    present well-formed key up to 99 is collected after those of the
    joined value, and each malformed one is logged and skipped; when
    nothing has been collected and key 1 is absent, the reading stops
    there with no record. *)
Theorem env_method_collects (W : World) (e : gmap string string) :
  (forall s, accountsLoaded (this (load_from_env W s)) = true
             /\ ((parseServiceAccounts W (env (this s))).1 <> [] ->
                 serviceAccounts (this (load_from_env W s))
                 = (parseServiceAccounts W (env (this s))).1))
  /\ (forall v, env_get e "GDRIVE_SERVICE_ACCOUNTS" = Some v ->
        Forall (fun b => parsed W b <> None) (blobs v) ->
        joined_part W e = omap (parsed W) (blobs v))
  /\ ((joined_part W e <> []
       \/ exists k, (k < 100)%nat /\ numbered_record W e k <> None
            /\ forall j, (1 <= j < k)%nat ->
                         env_get e (numbered_key j) <> None) ->
      (parseServiceAccounts W e).1 = joined_part W e ++ numbered_records W e
      /\ forall j v m, (j < 100)%nat ->
           env_get e (numbered_key j) = Some v -> JSON_parse W v = Throws m ->
           ("Failed to parse " +:+ numbered_key j)
             ∈ warnings (parseServiceAccounts W e).2)
  /\ (joined_part W e = [] -> numbered_record W e 0 = None ->
      env_get e (numbered_key 1) = None ->
      (parseServiceAccounts W e).1 = []).
Proof.
  repeat apply conj.
  - intros s. apply load_from_env_loaded.
  - intros v Hv Hall. unfold joined_part. rewrite Hv.
    unfold blobs in *. now rewrite parse_joined_all.
  - intros H. apply (proj1 (parse_upto_facts W e 100) H).
  - intros Hj H0 H1. apply (proj2 (parse_upto_facts W e 98) Hj H0 H1).
Qed.

Lemma env_method_collects_witness :
  let W := Sample.world None Sample.offline (Sample.granting None) in
  let e : gmap string string :=
    {[ "GDRIVE_SERVICE_ACCOUNTS" := "{alice}|||  ";
       "GDRIVE_SERVICE_ACCOUNT_0" := "not json";
       "GDRIVE_SERVICE_ACCOUNT_3" := "{bob}" ]} in
  joined_part W e = [Sample.alice]
  /\ (parseServiceAccounts W e).1 = [Sample.alice; Sample.bob]
  /\ "Failed to parse GDRIVE_SERVICE_ACCOUNT_0"
       ∈ warnings (parseServiceAccounts W e).2.
Proof.
  intros W e.
  destruct (env_method_collects W e) as (_ & _ & H3 & _).
  destruct H3 as [Hall Hwarn].
  { left. vm_compute. discriminate. }
  split; [vm_compute; reflexivity|]. split.
  - rewrite Hall. vm_compute. reflexivity.
  - apply (Hwarn 0%nat "not json" "SyntaxError");
      [lia | vm_compute; reflexivity | reflexivity].
Defined.

End ResolverFacts.

(* ===================================================================== *)
(** * Properties of the token cache and of the rotation *)
(* ===================================================================== *)

Section TokenFacts.

(** One call of [getAccessToken] on a client whose Credential Set is
    resolved and not empty. *)
Lemma getAccessToken_loaded (W : World) (fuel : nat) (s : Sys)
    (sa : ServiceAccount) :
  accountsLoaded (this s) = true ->
  getCurrentServiceAccount (this s) = Some sa ->
  getAccessToken W (S fuel) s
  = let key := accountKey sa in
    let cached := cachedTokens (this s) !! key in
    if still_valid cached (clock s)
    then (Returned (cached ≫= token), s)
    else
      let r := fetchServiceAccountToken W sa (clock s) in
      let s2 := set_clock (emit s [EvMint sa]) (settled_at r) in
      match settled r with
      | Ok tokenData =>
          (Returned (access_token tokenData),
           set_this s2
             (with_cache (this s2)
                (<[key := cache_entry tokenData (clock s2)]>
                   (cachedTokens (this s2)))))
      | Throws m =>
          let s3 :=
            set_this
              (emit s2 [EvError ("Service account " +:+ key
                                  +:+ " failed, rotating...")])
              (rotateServiceAccount (this s2)) in
          if (1 <? length (serviceAccounts (this s3)))%nat
          then getAccessToken W fuel s3
          else (Rejected m, s3)
      end.
Proof.
  intros Hl Hc. cbn [getAccessToken]. rewrite (load_when_loaded W s Hl), Hc.
  reflexivity.
Qed.

Lemma current_lookup (c : DriveClient) :
  (0 < length (serviceAccounts c))%nat ->
  getCurrentServiceAccount c
  = serviceAccounts c
      !! (currentServiceAccountIndex c mod length (serviceAccounts c))%nat.
Proof.
  intros H. unfold getCurrentServiceAccount.
  destruct (Nat.eqb_spec (length (serviceAccounts c)) 0); [lia|reflexivity].
Qed.

Lemma current_exists (c : DriveClient) :
  (0 < length (serviceAccounts c))%nat ->
  exists sa, getCurrentServiceAccount c = Some sa /\ sa ∈ serviceAccounts c.
Proof.
  intros H. rewrite (current_lookup c H).
  destruct (lookup_lt_is_Some_2 (serviceAccounts c)
              (currentServiceAccountIndex c mod length (serviceAccounts c))%nat)
    as [sa Hsa].
  { apply Nat.mod_upper_bound. lia. }
  exists sa. split; [assumption|]. eapply list_elem_of_lookup_2, Hsa.
Qed.

Lemma rotate_fields (c : DriveClient) :
  serviceAccounts (rotateServiceAccount c) = serviceAccounts c
  /\ accountsLoaded (rotateServiceAccount c) = accountsLoaded c
  /\ cachedTokens (rotateServiceAccount c) = cachedTokens c.
Proof.
  unfold rotateServiceAccount.
  now destruct (1 <? length (serviceAccounts c))%nat.
Qed.

Lemma rotate_index (c : DriveClient) :
  (1 < length (serviceAccounts c))%nat ->
  currentServiceAccountIndex (rotateServiceAccount c)
  = ((currentServiceAccountIndex c + 1) mod length (serviceAccounts c))%nat.
Proof.
  intros H. unfold rotateServiceAccount.
  destruct (Nat.ltb_spec 1 (length (serviceAccounts c))); [reflexivity|lia].
Qed.

Lemma not_valid_of_none (c : DriveClient) (now : Z) (k : string) :
  no_valid_token c now -> still_valid (cachedTokens c !! k) now = false.
Proof.
  intros H. unfold still_valid.
  destruct (cachedTokens c !! k) as [e|] eqn:E; [|reflexivity].
  specialize (H k e E). apply Z.ltb_ge. lia.
Qed.

Lemma no_valid_later (c : DriveClient) (now later : Z) :
  no_valid_token c now -> now <= later -> no_valid_token c later.
Proof. intros H Hle k e E. specialize (H k e E). lia. Qed.

Lemma mints_app (l k : list Event) : mints (l ++ k) = mints l ++ mints k.
Proof. unfold mints. apply omap_app. Qed.

(** When every record fails, a call on two records or more never ends:
    a run cut after [fuel] calls has made [fuel] mint attempts and is not
    finished. *)
Lemma all_fail_unfinished (W : World) (fuel : nat) (s : Sys) :
  accountsLoaded (this s) = true ->
  (2 <= length (serviceAccounts (this s)))%nat ->
  (forall sa, sa ∈ serviceAccounts (this s) -> always_fails W sa) ->
  steady_clock W ->
  no_valid_token (this s) (clock s) ->
  exists s' evs,
    getAccessToken W fuel s = (Unfinished, s')
    /\ log s' = log s ++ evs
    /\ length (mints evs) = fuel.
Proof.
  revert s. induction fuel as [|fuel IH]; intros s Hl Hn Hall Hclock Hcache.
  - exists s, []. cbn. now rewrite app_nil_r.
  - destruct (current_exists (this s)) as (sa & Hcur & Hin); [lia|].
    rewrite (getAccessToken_loaded W fuel s sa Hl Hcur). cbv zeta.
    rewrite (not_valid_of_none _ _ _ Hcache).
    destruct (Hall sa Hin (clock s)) as [m Hm]. rewrite Hm.
    set (s3 := set_this _ _).
    assert (Hacc : serviceAccounts (this s3) = serviceAccounts (this s)).
    { subst s3. cbn. apply rotate_fields. }
    rewrite Hacc.
    destruct (Nat.ltb_spec 1 (length (serviceAccounts (this s)))) as [_|]; [|lia].
    destruct (IH s3) as (s' & evs & Hrun & Hlog & Hlen).
    + subst s3. cbn. rewrite (proj1 (proj2 (rotate_fields _))). exact Hl.
    + now rewrite Hacc.
    + now rewrite Hacc.
    + exact Hclock.
    + subst s3. cbn. intros k e E.
      rewrite (proj2 (proj2 (rotate_fields _))) in E. cbn in E.
      specialize (Hcache k e E). specialize (Hclock sa (clock s)). lia.
    + exists s', ([EvMint sa;
                   EvError ("Service account " +:+ accountKey sa
                            +:+ " failed, rotating...")] ++ evs).
      split; [exact Hrun|]. split.
      * rewrite Hlog. subst s3. cbn. now rewrite <- !app_assoc.
      * rewrite mints_app. cbn. now rewrite Hlen.
Qed.

(** With a single record the failure of its mint is the failure of the
    call, after one attempt. *)
Lemma single_record_failure (W : World) (fuel : nat) (s : Sys)
    (sa : ServiceAccount) (m : string) :
  accountsLoaded (this s) = true ->
  serviceAccounts (this s) = [sa] ->
  no_valid_token (this s) (clock s) ->
  settled (fetchServiceAccountToken W sa (clock s)) = Throws m ->
  exists s' evs,
    getAccessToken W (S fuel) s = (Rejected m, s')
    /\ log s' = log s ++ evs
    /\ mints evs = [sa].
Proof.
  intros Hl Hacc Hcache Hm.
  assert (Hcur : getCurrentServiceAccount (this s) = Some sa).
  { rewrite current_lookup by (rewrite Hacc; cbn; lia).
    rewrite Hacc. change (length [sa]) with 1%nat.
    now rewrite Nat.mod_1_r. }
  rewrite (getAccessToken_loaded W fuel s sa Hl Hcur). cbv zeta.
  rewrite (not_valid_of_none _ _ _ Hcache), Hm.
  set (s3 := set_this _ _).
  assert (Hacc3 : serviceAccounts (this s3) = [sa]).
  { subst s3. cbn. rewrite (proj1 (rotate_fields _)). exact Hacc. }
  rewrite Hacc3. cbn [length Nat.ltb Nat.leb].
  exists s3, [EvMint sa;
              EvError ("Service account " +:+ accountKey sa
                       +:+ " failed, rotating...")].
  split; [reflexivity|]. split; [|reflexivity].
  subst s3. cbn. now rewrite <- app_assoc.
Qed.

(** ** A world in which no record can mint *)

Lemma rejecting_world_fails (b : option Doc)
    (g : string -> Z -> Settled FetchOutcome) (sa : ServiceAccount) (t : Z) :
  let r := fetchServiceAccountToken (Sample.world b g Sample.rejecting) sa t in
  (exists m, settled r = Throws m) /\ t <= settled_at r.
Proof.
  unfold fetchServiceAccountToken, generateServiceAccountAssertion, sign.
  cbn [crypto_sign Sample.world post_assertion]. unfold Sample.signer.
  destruct (decide (private_key sa = Some "KEY-B")); cbn.
  - split; [eauto | lia].
  - split; [eauto | lia].
Qed.

(** C1 (the code does not do this). Two records, every mint rejected by
    the token endpoint, nothing cached: however many calls of
    [getAccessToken] the run is given, it has made that many mint
    attempts, more than the two records once it is given three, and it
    has neither returned nor failed. *)
Theorem all_records_failing_never_surfaces (fuel : nat) :
  let W := Sample.world None Sample.offline Sample.rejecting in
  let s := Sample.boot (Sample.resolved [Sample.alice; Sample.bob]) 0 in
  exists s',
    getAccessToken W fuel s = (Unfinished, s')
    /\ length (mints (log s')) = fuel.
Proof.
  intros W s.
  destruct (all_fail_unfinished W fuel s) as (s' & evs & Hrun & Hlog & Hlen).
  - reflexivity.
  - cbn. lia.
  - intros sa _ t. apply rejecting_world_fails.
  - intros sa t. apply rejecting_world_fails.
  - intros k e E. cbn in E. now rewrite lookup_empty in E.
  - exists s'. split; [exact Hrun|]. rewrite Hlog. exact Hlen.
Qed.

(** The same world with a single record: the call fails after one
    attempt, with the error of that attempt. *)
Example single_record_surfaces :
  let W := Sample.world None Sample.offline Sample.rejecting in
  let s := Sample.boot (Sample.resolved [Sample.alice]) 0 in
  (getAccessToken W 5 s).1 = Rejected "invalid_grant"
  /\ mints (log (getAccessToken W 5 s).2) = [Sample.alice].
Proof. vm_compute. split; reflexivity. Qed.

(** ** One failing record among several *)

Lemma succ_mod_neq (c n : nat) :
  (2 <= n)%nat -> ((c + 1) mod n)%nat <> (c mod n)%nat.
Proof.
  intros Hn. rewrite <- Nat.Div0.add_mod_idemp_l.
  pose proof (Nat.mod_upper_bound c n ltac:(lia)) as Hr.
  set (r := (c mod n)%nat) in *.
  destruct (decide (r + 1 < n)%nat) as [Hlt|Hge].
  - rewrite Nat.mod_small by exact Hlt. lia.
  - replace (r + 1)%nat with n by lia. rewrite Nat.Div0.mod_same. lia.
Qed.

Lemma attempts_of_le (sa : ServiceAccount) (l : list ServiceAccount) :
  (attempts_of sa l <= length l)%nat.
Proof. unfold attempts_of. apply List.filter_length_le. Qed.

(** A successful mint at the cursor. *)
Lemma mint_at_cursor (W : World) (fuel : nat) (s : Sys) (sa : ServiceAccount)
    (tokenData : TokenJson) :
  accountsLoaded (this s) = true ->
  getCurrentServiceAccount (this s) = Some sa ->
  still_valid (cachedTokens (this s) !! accountKey sa) (clock s) = false ->
  settled (fetchServiceAccountToken W sa (clock s)) = Ok tokenData ->
  let T := settled_at (fetchServiceAccountToken W sa (clock s)) in
  let s' :=
    {| globals := globals s;
       this := with_cache (this s)
                 (<[accountKey sa := cache_entry tokenData T]>
                    (cachedTokens (this s)));
       clock := T;
       log := log s ++ [EvMint sa] |} in
  getAccessToken W (S fuel) s = (Returned (access_token tokenData), s').
Proof.
  intros Hl Hcur Hv Hok. cbv zeta.
  rewrite (getAccessToken_loaded W fuel s sa Hl Hcur). cbv zeta.
  rewrite Hv, Hok. reflexivity.
Qed.

(** C2. Two records or more, exactly one of which always fails, nothing
    valid in the cache: the call returns the token minted for a record
    that does not fail, after at most as many mint attempts as there are
    records (in fact at most two); the failing record is attempted at
    most once; when the cursor was on it, the call mints for it once,
    logs the failure, mints for the next record, and the cursor ends on
    the next position modulo the size of the set; otherwise the call
    mints once, for the record under the cursor, and the cursor stays. *)
Theorem one_failing_identity_is_skipped (W : World) (s : Sys) (bad : nat)
    (sa_bad : ServiceAccount) (fuel : nat) :
  accountsLoaded (this s) = true ->
  (2 <= length (serviceAccounts (this s)))%nat ->
  serviceAccounts (this s) !! bad = Some sa_bad ->
  always_fails W sa_bad ->
  (forall j sa, j <> bad -> serviceAccounts (this s) !! j = Some sa ->
                never_fails W sa) ->
  steady_clock W ->
  no_valid_token (this s) (clock s) ->
  (2 <= fuel)%nat ->
  exists j sa tokenData t s' evs,
    getAccessToken W fuel s = (Returned (access_token tokenData), s')
    /\ log s' = log s ++ evs
    /\ j <> bad
    /\ serviceAccounts (this s) !! j = Some sa
    /\ settled (fetchServiceAccountToken W sa t) = Ok tokenData
    /\ (length (mints evs) <= length (serviceAccounts (this s)))%nat
    /\ (attempts_of sa_bad (mints evs) <= 1)%nat
    /\ serviceAccounts (this s') = serviceAccounts (this s)
    /\ (currentServiceAccountIndex (this s')
          mod length (serviceAccounts (this s)))%nat = j
    /\ j = (if decide ((currentServiceAccountIndex (this s)
                          mod length (serviceAccounts (this s)))%nat = bad)
            then ((bad + 1) mod length (serviceAccounts (this s)))%nat
            else (currentServiceAccountIndex (this s)
                    mod length (serviceAccounts (this s)))%nat)
    /\ evs = (if decide ((currentServiceAccountIndex (this s)
                            mod length (serviceAccounts (this s)))%nat = bad)
              then [EvMint sa_bad;
                    EvError ("Service account " +:+ accountKey sa_bad
                             +:+ " failed, rotating...");
                    EvMint sa]
              else [EvMint sa]).
Proof.
  intros Hl Hn Hbad Hfail Hgood Hclock Hcache Hfuel.
  destruct fuel as [|[|fuel]]; [lia|lia|].
  set (n := length (serviceAccounts (this s))) in *.
  set (c := currentServiceAccountIndex (this s)) in *.
  assert (Hcur : getCurrentServiceAccount (this s)
                 = serviceAccounts (this s) !! (c mod n)%nat).
  { apply current_lookup. fold n. lia. }
  destruct (decide ((c mod n)%nat = bad)) as [Hat|Hnot].
  - (* the cursor is on the failing record *)
    rewrite Hat, Hbad in Hcur.
    rewrite (getAccessToken_loaded W (S fuel) s sa_bad Hl Hcur). cbv zeta.
    rewrite (not_valid_of_none _ _ _ Hcache).
    destruct (Hfail (clock s)) as [m Hm]. rewrite Hm.
    set (s3 := set_this _ _).
    assert (Hacc : serviceAccounts (this s3) = serviceAccounts (this s)).
    { subst s3. cbn. apply rotate_fields. }
    rewrite Hacc. fold n.
    destruct (Nat.ltb_spec 1 n) as [_|]; [|lia].
    assert (Hl3 : accountsLoaded (this s3) = true).
    { subst s3. cbn. rewrite (proj1 (proj2 (rotate_fields _))). exact Hl. }
    assert (Hidx : currentServiceAccountIndex (this s3) = ((c + 1) mod n)%nat).
    { subst s3. cbn. rewrite rotate_index; [reflexivity|]. cbn. fold n. lia. }
    assert (Hj : ((c + 1) mod n)%nat <> bad).
    { rewrite <- Hat. apply succ_mod_neq. lia. }
    destruct (lookup_lt_is_Some_2 (serviceAccounts (this s)) ((c + 1) mod n)%nat)
      as [sa Hsa].
    { fold n. apply Nat.mod_upper_bound. lia. }
    assert (Hcur3 : getCurrentServiceAccount (this s3) = Some sa).
    { rewrite current_lookup; rewrite Hacc; fold n; [|lia].
      rewrite Hidx, Nat.Div0.mod_mod. exact Hsa. }
    assert (Hcache3 : no_valid_token (this s3) (clock s3)).
    { subst s3. cbn. intros k e E.
      rewrite (proj2 (proj2 (rotate_fields _))) in E. cbn in E.
      specialize (Hcache k e E). specialize (Hclock sa_bad (clock s)). lia. }
    destruct (Hgood _ _ Hj Hsa (clock s3)) as [tokenData Hok].
    rewrite (mint_at_cursor W fuel s3 sa tokenData Hl3 Hcur3
               (not_valid_of_none _ _ _ Hcache3) Hok).
    exists ((c + 1) mod n)%nat, sa, tokenData, (clock s3).
    eexists. exists [EvMint sa_bad;
                     EvError ("Service account " +:+ accountKey sa_bad
                              +:+ " failed, rotating...");
                     EvMint sa].
    split; [reflexivity|].
    assert (Hne : sa <> sa_bad).
    { intros ->. destruct (Hfail 0) as [m' Hm'].
      destruct (Hgood _ _ Hj Hsa 0) as [td' Htd']. congruence. }
    repeat apply conj.
    + subst s3. cbn. now rewrite <- !app_assoc.
    + exact Hj.
    + exact Hsa.
    + exact Hok.
    + cbn. lia.
    + unfold attempts_of, mints. cbn.
      rewrite bool_decide_eq_true_2 by reflexivity.
      rewrite bool_decide_eq_false_2 by exact Hne. cbn. lia.
    + cbn. exact Hacc.
    + change ((currentServiceAccountIndex (this s3) mod n)%nat
              = ((c + 1) mod n)%nat).
      rewrite Hidx. apply Nat.Div0.mod_mod.
    + rewrite <- Hat. rewrite Nat.Div0.add_mod_idemp_l. reflexivity.
    + reflexivity.
  - (* the cursor is on a record that does not fail *)
    destruct (lookup_lt_is_Some_2 (serviceAccounts (this s)) (c mod n)%nat)
      as [sa Hsa].
    { fold n. apply Nat.mod_upper_bound. lia. }
    rewrite Hsa in Hcur.
    destruct (Hgood _ _ Hnot Hsa (clock s)) as [tokenData Hok].
    rewrite (mint_at_cursor W (S fuel) s sa tokenData Hl Hcur
               (not_valid_of_none _ _ _ Hcache) Hok).
    exists (c mod n)%nat, sa, tokenData, (clock s).
    eexists. exists [EvMint sa].
    split; [reflexivity|].
    repeat apply conj; try reflexivity; try assumption.
    + cbn. lia.
    + etransitivity; [apply attempts_of_le|]. cbn. lia.
Qed.

Lemma one_failing_identity_is_skipped_witness :
  let W := Sample.world None Sample.offline (Sample.granting (Some 3599)) in
  let s := Sample.boot
             (with_index
                (Sample.resolved [Sample.alice; Sample.bob; Sample.anon1]) 4)
             0 in
  exists tokenData t s',
    getAccessToken W 2 s = (Returned (access_token tokenData), s')
    /\ settled (fetchServiceAccountToken W Sample.anon1 t) = Ok tokenData
    /\ log s'
       = [EvMint Sample.bob;
          EvError "Service account bob@demo.iam.gserviceaccount.com failed, rotating...";
          EvMint Sample.anon1]
    /\ mints (log s') = [Sample.bob; Sample.anon1]
    /\ (length (mints (log s')) <= 3)%nat
    /\ attempts_of Sample.bob (mints (log s')) = 1%nat
    /\ serviceAccounts (this s') = [Sample.alice; Sample.bob; Sample.anon1]
    /\ (currentServiceAccountIndex (this s) mod 3)%nat = 1%nat
    /\ (currentServiceAccountIndex (this s') mod 3)%nat = 2%nat.
Proof.
  intros W s.
  assert (Hsign : forall sa t,
            private_key sa <> Some "KEY-B" ->
            exists tokenData,
              fetchServiceAccountToken W sa t
              = {| settled_at := t + 1000; settled := Ok tokenData |}).
  { intros sa t Hk.
    unfold fetchServiceAccountToken, generateServiceAccountAssertion, sign.
    cbn [crypto_sign Sample.world W post_assertion]. unfold Sample.signer.
    destruct (decide (private_key sa = Some "KEY-B")); [contradiction|].
    cbn. eauto. }
  assert (Hbob : forall t,
            fetchServiceAccountToken W Sample.bob t
            = {| settled_at := t; settled := Throws "DataError" |}).
  { intros t. reflexivity. }
  destruct (one_failing_identity_is_skipped W s 1 Sample.bob 2)
    as (j & sa & td & t & s' & evs
        & H1 & H2 & H3 & H4 & H5 & H6 & H7 & H8 & H9 & H10 & H11).
  - reflexivity.
  - cbn. lia.
  - reflexivity.
  - intros t. rewrite Hbob. cbn. eauto.
  - intros j sa Hj Hsa t.
    destruct j as [|[|[|j]]]; [|contradiction| |discriminate].
    + injection Hsa as <-.
      destruct (Hsign Sample.alice t) as [td Htd]; [discriminate|].
      rewrite Htd. cbn. eauto.
    + injection Hsa as <-.
      destruct (Hsign Sample.anon1 t) as [td Htd]; [discriminate|].
      rewrite Htd. cbn. eauto.
  - intros sa t.
    destruct (decide (private_key sa = Some "KEY-B")) as [Hk|Hk].
    + unfold fetchServiceAccountToken, generateServiceAccountAssertion, sign.
      cbn [crypto_sign Sample.world W]. unfold Sample.signer.
      destruct (decide (private_key sa = Some "KEY-B")); [|contradiction].
      cbn. lia.
    + destruct (Hsign sa t Hk) as [td Htd]. rewrite Htd. cbn. lia.
  - intros k e E. cbn in E. now rewrite lookup_empty in E.
  - lia.
  - change ((currentServiceAccountIndex (this s)
               mod length (serviceAccounts (this s)))%nat) with 1%nat in H10, H11.
    change (length (serviceAccounts (this s))) with 3%nat in H6, H9, H10.
    destruct (decide (1%nat = 1%nat)) as [_|Hne]; [|now destruct Hne].
    change ((1 + 1) mod 3)%nat with 2%nat in H10. subst j.
    rewrite H10 in H4.
    assert (sa = Sample.anon1) as ->.
    { change (Some Sample.anon1 = Some sa) in H4. congruence. }
    assert (Hlog : log s'
                   = [EvMint Sample.bob;
                      EvError "Service account bob@demo.iam.gserviceaccount.com failed, rotating...";
                      EvMint Sample.anon1]).
    { rewrite H2, H11. reflexivity. }
    exists td, t, s'.
    split; [exact H1|]. split; [exact H5|]. split; [exact Hlog|].
    rewrite Hlog.
    split; [reflexivity|]. split; [cbn; lia|]. split; [reflexivity|].
    split; [exact H8|]. split; [reflexivity|exact H10].
Defined.

(** ** Expiry and the sixty-second margin *)

(** A call only adds to the trace. *)
Lemma log_extends (W : World) (fuel : nat) (s : Sys) :
  accountsLoaded (this s) = true ->
  exists evs, log (getAccessToken W fuel s).2 = log s ++ evs.
Proof.
  revert s. induction fuel as [|fuel IH]; intros s Hl.
  - exists []. cbn. now rewrite app_nil_r.
  - cbn [getAccessToken]. rewrite (load_when_loaded W s Hl).
    destruct (getCurrentServiceAccount (this s)) as [sa|].
    + destruct (still_valid _ _).
      * exists []. cbn. now rewrite app_nil_r.
      * destruct (settled (fetchServiceAccountToken W sa (clock s))) as [td|m].
        -- exists [EvMint sa]. reflexivity.
        -- set (s3 := set_this _ _).
           destruct (1 <? length (serviceAccounts (this s3)))%nat.
           ++ destruct (IH s3) as [evs Hevs].
              { subst s3. cbn. rewrite (proj1 (proj2 (rotate_fields _))).
                exact Hl. }
              rewrite Hevs. subst s3. cbn. rewrite <- !app_assoc. eauto.
           ++ subst s3. cbn. rewrite <- !app_assoc. eauto.
    + unfold oauth_path.
      destruct (_ || _).
      * exists []. cbn. now rewrite app_nil_r.
      * destruct (still_valid _ _).
        -- exists []. cbn. now rewrite app_nil_r.
        -- destruct (settled _); cbn; eauto.
Qed.

(** Without a valid entry for the record at the cursor, a mint is
    attempted for it. *)
Lemma mint_attempted (W : World) (fuel : nat) (s : Sys) (sa : ServiceAccount) :
  accountsLoaded (this s) = true ->
  getCurrentServiceAccount (this s) = Some sa ->
  still_valid (cachedTokens (this s) !! accountKey sa) (clock s) = false ->
  exists evs, log (getAccessToken W (S fuel) s).2 = log s ++ EvMint sa :: evs.
Proof.
  intros Hl Hcur Hv.
  rewrite (getAccessToken_loaded W fuel s sa Hl Hcur). cbv zeta. rewrite Hv.
  destruct (settled (fetchServiceAccountToken W sa (clock s))) as [td|m].
  - exists []. reflexivity.
  - set (s3 := set_this _ _).
    destruct (1 <? length (serviceAccounts (this s3)))%nat.
    + destruct (log_extends W fuel s3) as [evs Hevs].
      { subst s3. cbn. rewrite (proj1 (proj2 (rotate_fields _))). exact Hl. }
      rewrite Hevs. subst s3. cbn. rewrite <- !app_assoc. cbn. eauto.
    + subst s3. cbn. rewrite <- !app_assoc. cbn. eauto.
Qed.

(** With a valid entry for the record at the cursor, its token is
    returned and nothing else happens. *)
Lemma served_from_cache (W : World) (fuel : nat) (s : Sys) (sa : ServiceAccount)
    (c : CachedToken) :
  accountsLoaded (this s) = true ->
  getCurrentServiceAccount (this s) = Some sa ->
  cachedTokens (this s) !! accountKey sa = Some c ->
  clock s + 60000 < expiresAt c ->
  getAccessToken W (S fuel) s = (Returned (token c), s).
Proof.
  intros Hl Hcur Hc Hlt.
  rewrite (getAccessToken_loaded W fuel s sa Hl Hcur). cbv zeta. rewrite Hc.
  unfold still_valid. destruct (Z.ltb_spec (clock s + 60000) (expiresAt c)); [|lia].
  reflexivity.
Qed.

(** C3, as the specification states it, fails for a reply that carries
    [expires_in = 0]: the entry expires an hour after the mint, not at the
    mint. *)
Lemma zero_lifetime_is_an_hour :
  let W := Sample.world None Sample.offline (Sample.granting (Some 0)) in
  let s := Sample.boot (Sample.resolved [Sample.alice]) 0 in
  let r := fetchServiceAccountToken W Sample.alice 0 in
  match settled r with Ok td => expires_in td | Throws _ => None end = Some 0
  /\ settled_at r = 1000
  /\ expiresAt <$> (cachedTokens (this (getAccessToken W 1 s).2)
                      !! accountKey Sample.alice)
     = Some (1000 + 3600 * 1000)
  /\ 1000 + 3600 * 1000 <> 1000 + 0 * 1000.
Proof. vm_compute. repeat apply conj; try reflexivity. discriminate. Qed.

(** C3 (amended). A token minted at time [T] from a reply whose lifetime
    is [L] seconds, [L] being [expires_in] or 3600 when the reply omits it
    or carries 0, is stored with [expiresAt = T + L * 1000]. An entry is
    served without a mint exactly when [now + 60000 < expiresAt]: the
    stored token is served at [T + (L - 61)] seconds and a mint is
    attempted at [T + (L - 59)] seconds. *)
Theorem token_served_until_margin (W : World) (s : Sys) (sa : ServiceAccount)
    (fuel : nat) :
  accountsLoaded (this s) = true ->
  getCurrentServiceAccount (this s) = Some sa ->
  (forall c, cachedTokens (this s) !! accountKey sa = Some c ->
     (clock s + 60000 < expiresAt c ->
      getAccessToken W (S fuel) s = (Returned (token c), s))
     /\ (expiresAt c <= clock s + 60000 ->
         exists evs,
           log (getAccessToken W (S fuel) s).2 = log s ++ EvMint sa :: evs))
  /\ (forall tokenData,
        still_valid (cachedTokens (this s) !! accountKey sa) (clock s) = false ->
        settled (fetchServiceAccountToken W sa (clock s)) = Ok tokenData ->
        let T := settled_at (fetchServiceAccountToken W sa (clock s)) in
        let L := lifetime tokenData in
        let s' := (getAccessToken W (S fuel) s).2 in
        (getAccessToken W (S fuel) s).1 = Returned (access_token tokenData)
        /\ cachedTokens (this s') !! accountKey sa
           = Some {| token := access_token tokenData;
                     expiresAt := T + L * 1000 |}
        /\ (expires_in tokenData = None -> L = 3600)
        /\ (expires_in tokenData = Some 0 -> L = 3600)
        /\ (forall l, expires_in tokenData = Some l -> l <> 0 -> L = l)
        /\ getAccessToken W (S fuel) (set_clock s' (T + (L - 61) * 1000))
           = (Returned (access_token tokenData),
              set_clock s' (T + (L - 61) * 1000))
        /\ exists evs,
             log (getAccessToken W (S fuel)
                    (set_clock s' (T + (L - 59) * 1000))).2
             = log s' ++ EvMint sa :: evs).
Proof.
  intros Hl Hcur. split.
  - intros c Hc. split.
    + intros Hlt. now apply served_from_cache with (sa := sa).
    + intros Hge. apply mint_attempted; [assumption..|].
      rewrite Hc. unfold still_valid. apply Z.ltb_ge. lia.
  - intros td Hv Hok T L s'.
    pose proof (mint_at_cursor W fuel s sa td Hl Hcur Hv Hok) as Hrun.
    cbv zeta in Hrun. fold T in Hrun.
    subst s'. rewrite Hrun. cbn [fst snd].
    set (s' := {| globals := globals s; this := _; clock := T; log := _ |}).
    assert (Hentry : cachedTokens (this s') !! accountKey sa
                     = Some {| token := access_token td;
                               expiresAt := T + L * 1000 |}).
    { subst s'. cbn. rewrite lookup_insert_eq. reflexivity. }
    repeat apply conj.
    + reflexivity.
    + exact Hentry.
    + intros E. subst L. unfold lifetime. now rewrite E.
    + intros E. subst L. unfold lifetime. now rewrite E.
    + intros l E Hne. subst L. unfold lifetime. rewrite E.
      destruct (Z.eqb_spec l 0); [contradiction|reflexivity].
    + apply (served_from_cache W fuel (set_clock s' (T + (L - 61) * 1000)) sa
               {| token := access_token td; expiresAt := T + L * 1000 |}).
      * exact Hl.
      * exact Hcur.
      * exact Hentry.
      * cbn. lia.
    + apply (mint_attempted W fuel (set_clock s' (T + (L - 59) * 1000)) sa).
      * exact Hl.
      * exact Hcur.
      * change (cachedTokens (this (set_clock s' (T + (L - 59) * 1000))))
          with (cachedTokens (this s')).
        rewrite Hentry. unfold still_valid. apply Z.ltb_ge. cbn. lia.
Qed.

Lemma token_served_until_margin_witness :
  let W := Sample.world None Sample.offline (Sample.granting (Some 3599)) in
  let s := Sample.boot (Sample.resolved [Sample.alice]) 5000 in
  let s' := (getAccessToken W 1 s).2 in
  accountsLoaded (this s) = true
  /\ getCurrentServiceAccount (this s) = Some Sample.alice
  /\ expiresAt <$> (cachedTokens (this s') !! accountKey Sample.alice)
     = Some (6000 + 3599 * 1000)
  /\ (getAccessToken W 1 (set_clock s' (6000 + (3599 - 61) * 1000))).1
     = (getAccessToken W 1 s).1.
Proof.
  intros W s s'.
  assert (Hl : accountsLoaded (this s) = true) by reflexivity.
  assert (Hcur : getCurrentServiceAccount (this s) = Some Sample.alice)
    by reflexivity.
  destruct (token_served_until_margin W s Sample.alice 0 Hl Hcur) as [_ Hstore].
  assert (Hreply : exists td,
            fetchServiceAccountToken W Sample.alice (clock s)
            = {| settled_at := 6000; settled := Ok td |}
            /\ expires_in td = Some 3599).
  { eexists. split; reflexivity. }
  destruct Hreply as (td & Hreply & Hexp).
  destruct (Hstore td) as (H1 & H2 & _ & _ & H5 & H6 & _).
  - reflexivity.
  - now rewrite Hreply.
  - rewrite Hreply in H2, H6. cbn [settled_at] in H2, H6.
    rewrite (H5 3599 Hexp ltac:(discriminate)) in H2, H6.
    repeat apply conj; [exact Hl | exact Hcur | |].
    + subst s'. now rewrite H2.
    + subst s'. rewrite H6, H1. reflexivity.
Defined.

(** ** Records without [client_email] *)

Lemma accountKey_default (sa : ServiceAccount) :
  client_email sa = None -> accountKey sa = "default".
Proof. intros H. unfold accountKey. now rewrite H. Qed.

(** C10. A record without [client_email] is cached and looked up under
    the key [default]. So two distinct such records share one entry: the
    token minted for the first is stored under [default], and once the
    cursor is on the second, that token is returned, without a mint, for
    as long as the entry is valid. More generally, whatever record wrote
    the entry under [default], a call with the cursor on a record without
    [client_email] returns it while it is valid. *)
Theorem records_without_email_share_default (W : World) (s : Sys)
    (A B : ServiceAccount) (fuel : nat) :
  client_email A = None ->
  client_email B = None ->
  A <> B ->
  accountsLoaded (this s) = true ->
  serviceAccounts (this s) = [A; B] ->
  currentServiceAccountIndex (this s) = 0%nat ->
  accountKey A = "default"
  /\ accountKey B = "default"
  /\ (forall tokenData,
        still_valid (cachedTokens (this s) !! "default") (clock s) = false ->
        settled (fetchServiceAccountToken W A (clock s)) = Ok tokenData ->
        let T := settled_at (fetchServiceAccountToken W A (clock s)) in
        let s1 := (getAccessToken W (S fuel) s).2 in
        (getAccessToken W (S fuel) s).1 = Returned (access_token tokenData)
        /\ mints (new_events s s1) = [A]
        /\ cachedTokens (this s1) !! "default" = Some (cache_entry tokenData T)
        /\ forall later,
             later + 60000 < T + lifetime tokenData * 1000 ->
             let s2 := set_clock (set_this s1 (rotateServiceAccount (this s1)))
                         later in
             getCurrentServiceAccount (this s2) = Some B
             /\ getAccessToken W (S fuel) s2
                = (Returned (access_token tokenData), s2))
  /\ (forall s2 c,
        accountsLoaded (this s2) = true ->
        getCurrentServiceAccount (this s2) = Some B ->
        cachedTokens (this s2) !! "default" = Some c ->
        clock s2 + 60000 < expiresAt c ->
        getAccessToken W (S fuel) s2 = (Returned (token c), s2)).
Proof.
  intros HA HB Hne Hl Hacc Hidx.
  pose proof (accountKey_default A HA) as HkA.
  pose proof (accountKey_default B HB) as HkB.
  assert (Hcur : getCurrentServiceAccount (this s) = Some A).
  { rewrite current_lookup by (rewrite Hacc; cbn; lia).
    rewrite Hacc, Hidx. reflexivity. }
  split; [exact HkA|]. split; [exact HkB|]. split.
  - intros td Hv Hok T s1.
    rewrite <- HkA in Hv.
    pose proof (mint_at_cursor W fuel s A td Hl Hcur Hv Hok) as Hrun.
    cbv zeta in Hrun. fold T in Hrun. rewrite HkA in Hrun.
    subst s1. rewrite Hrun. cbn [fst snd].
    set (s1 := {| globals := globals s; this := _; clock := T; log := _ |}).
    assert (Hentry : cachedTokens (this s1) !! "default"
                     = Some (cache_entry td T)).
    { subst s1. cbn. now rewrite lookup_insert_eq. }
    repeat apply conj.
    + reflexivity.
    + rewrite (new_events_app s s1 [EvMint A]) by reflexivity. reflexivity.
    + exact Hentry.
    + intros later Hlater.
      set (s2 := set_clock (set_this s1 (rotateServiceAccount (this s1))) later).
      assert (Hacc1 : serviceAccounts (this s1) = [A; B]) by exact Hacc.
      assert (Hcur2 : getCurrentServiceAccount (this s2) = Some B).
      { subst s2. cbn [this set_clock set_this].
        rewrite current_lookup;
          rewrite (proj1 (rotate_fields _)), Hacc1; [|cbn; lia].
        rewrite rotate_index by (rewrite Hacc1; cbn; lia).
        rewrite Hacc1.
        change (currentServiceAccountIndex (this s1))
          with (currentServiceAccountIndex (this s)).
        rewrite Hidx. reflexivity. }
      split; [exact Hcur2|].
      apply (served_from_cache W fuel s2 B (cache_entry td T)).
      * subst s2. cbn [this set_clock set_this].
        rewrite (proj1 (proj2 (rotate_fields _))). exact Hl.
      * exact Hcur2.
      * rewrite HkB. subst s2. cbn [this set_clock set_this].
        rewrite (proj2 (proj2 (rotate_fields _))). exact Hentry.
      * cbn. exact Hlater.
  - intros s2 c Hl2 Hcur2 Hc Hlt.
    apply (served_from_cache W fuel s2 B c); [assumption..| |assumption].
    now rewrite HkB.
Qed.

Lemma records_without_email_share_default_witness :
  let W := Sample.world None Sample.offline (Sample.granting (Some 3599)) in
  let s := Sample.boot (Sample.resolved [Sample.anon1; Sample.anon2]) 0 in
  let s1 := (getAccessToken W 1 s).2 in
  let s2 := set_clock (set_this s1 (rotateServiceAccount (this s1))) 2000000 in
  Sample.anon1 <> Sample.anon2
  /\ mints (new_events s s1) = [Sample.anon1]
  /\ getCurrentServiceAccount (this s2) = Some Sample.anon2
  /\ (getAccessToken W 1 s2).1 = (getAccessToken W 1 s).1
  /\ (getAccessToken W 1 s2).2 = s2.
Proof.
  intros W s s1 s2.
  assert (Hne : Sample.anon1 <> Sample.anon2) by discriminate.
  destruct (records_without_email_share_default W s Sample.anon1 Sample.anon2 0
              eq_refl eq_refl Hne eq_refl eq_refl eq_refl)
    as (_ & _ & Hmint & _).
  assert (Hreply : exists td,
            fetchServiceAccountToken W Sample.anon1 (clock s)
            = {| settled_at := 1000; settled := Ok td |}
            /\ expires_in td = Some 3599).
  { eexists. split; reflexivity. }
  destruct Hreply as (td & Hreply & Hexp).
  destruct (Hmint td) as (H1 & H2 & _ & H4).
  - reflexivity.
  - now rewrite Hreply.
  - rewrite Hreply in H4. cbn [settled_at] in H4.
    destruct (H4 2000000) as [H5 H6].
    { unfold lifetime. rewrite Hexp. cbn. lia. }
    repeat apply conj; [exact Hne | exact H2 | exact H5 | |].
    + subst s2 s1. rewrite H6, H1. reflexivity.
    + subst s2 s1. now rewrite H6.
Defined.

(** A call that misses the cache is the mint followed by [after_mint]. *)
Lemma getAccessToken_resumes (W : World) (fuel : nat) (s : Sys)
    (sa : ServiceAccount) :
  accountsLoaded (this s) = true ->
  getCurrentServiceAccount (this s) = Some sa ->
  still_valid (cachedTokens (this s) !! accountKey sa) (clock s) = false ->
  getAccessToken W (S fuel) s
  = after_mint (getAccessToken W fuel) (emit s [EvMint sa]) sa
      (fetchServiceAccountToken W sa (clock s)).
Proof.
  intros Hl Hcur Hv.
  rewrite (getAccessToken_loaded W fuel s sa Hl Hcur). cbv zeta. rewrite Hv.
  reflexivity.
Qed.

(** Two calls that overlap on two records without [client_email]. The
    first misses the cache at time 0 and posts an assertion for the first
    record; the second misses it at time 10 and posts another one. The
    first is granted, and its token is stored under [default]. The second
    is rejected: the call rotates, retries with the cursor on the second
    record, and returns the token of the first record from the cache. *)
Example overlapping_calls_share_default :
  let W := Sample.world None Sample.offline (Sample.granting_until 10) in
  let s := Sample.boot (Sample.resolved [Sample.anon1; Sample.anon2]) 0 in
  let first_reply := fetchServiceAccountToken W Sample.anon1 0 in
  let second_reply := fetchServiceAccountToken W Sample.anon1 10 in
  let suspended :=
    emit (set_clock (emit s [EvMint Sample.anon1]) 10) [EvMint Sample.anon1] in
  let first := after_mint (getAccessToken W 3) suspended Sample.anon1 first_reply in
  let second := after_mint (getAccessToken W 3) first.2 Sample.anon1 second_reply in
  still_valid (cachedTokens (this s) !! accountKey Sample.anon1) 0 = false
  /\ still_valid (cachedTokens (this s) !! accountKey Sample.anon1) 10 = false
  /\ (exists tokenData, settled first_reply = Ok tokenData
                        /\ first.1 = Returned (access_token tokenData)
                        /\ second.1 = Returned (access_token tokenData))
  /\ (exists m, settled second_reply = Throws m)
  /\ getCurrentServiceAccount (this second.2) = Some Sample.anon2
  /\ mints (log second.2) = [Sample.anon1; Sample.anon1].
Proof.
  vm_compute. repeat apply conj; try reflexivity.
  - eexists. repeat apply conj; reflexivity.
  - eexists. reflexivity.
Qed.

End TokenFacts.

(* ===================================================================== *)
(** * Properties of overlapping callers *)
(* ===================================================================== *)

Section RaceFacts.
Import Race.

(** ** Events that a step cannot add *)

Section Quiet.

(** A class of events that reading the environment, warning and logging
    do not belong to: the imports, or the fetches. *)
Variable P : Event -> bool.
Hypothesis P_read : forall k, P (EvEnvRead k) = false.
Hypothesis P_warn : forall t, P (EvWarn t) = false.
Hypothesis P_log : forall t, P (EvLog t) = false.

Lemma count_app (l k : list Event) :
  count_events P (l ++ k) = (count_events P l + count_events P k)%nat.
Proof. unfold count_events. now rewrite List.filter_app, length_app. Qed.

Lemma count_cons (e : Event) (l : list Event) :
  count_events P (e :: l)
  = ((if P e then 1 else 0) + count_events P l)%nat.
Proof. unfold count_events. cbn [List.filter]. now destruct (P e). Qed.

Lemma count_nil : count_events P [] = 0%nat.
Proof. reflexivity. Qed.

Lemma parse_joined_quiet (W : World) (l : list string)
    (acc : list ServiceAccount) :
  count_events P (parse_joined W l acc).2 = 0%nat.
Proof.
  revert acc. induction l as [|b l IH]; intros acc; cbn [parse_joined];
    [reflexivity|].
  destruct (JsString.truthy (JsString.trim b)); [|apply IH].
  destruct (JSON_parse W (JsString.trim b)); [apply IH|].
  cbn [snd]. now rewrite count_cons, P_warn.
Qed.

Lemma parse_numbered_quiet (W : World) (e : gmap string string) (n i : nat)
    (acc : list ServiceAccount) :
  count_events P (parse_numbered W e n i acc).2 = 0%nat.
Proof.
  revert i acc. induction n as [|n IH]; intros i acc; [reflexivity|].
  cbn [parse_numbered].
  destruct (env_get e (numbered_key i)) as [v|].
  - destruct (JSON_parse W v); cbn [snd];
      rewrite ?count_cons, ?P_read, ?P_warn; apply (IH (S i)).
  - destruct (_ && _); cbn [snd]; rewrite count_cons, P_read;
      [reflexivity|apply (IH (S i))].
Qed.

Lemma parse_upto_quiet (W : World) (e : gmap string string) (n : nat) :
  count_events P (parse_upto W e n).2 = 0%nat.
Proof.
  unfold parse_upto. cbv zeta. cbn [snd].
  rewrite count_cons, P_read, count_app, parse_numbered_quiet.
  destruct (env_get e "GDRIVE_SERVICE_ACCOUNTS"); [|reflexivity].
  now rewrite parse_joined_quiet.
Qed.

(** The environment method touches neither the module variables nor the
    environment of the client, and adds no event of the class. *)
Lemma load_from_env_quiet (W : World) (s : Sys) :
  globals (load_from_env W s) = globals s
  /\ env (this (load_from_env W s)) = env (this s)
  /\ count_events P (log (load_from_env W s)) = count_events P (log s).
Proof.
  unfold load_from_env. cbv zeta.
  pose proof (parse_upto_quiet W (env (this s)) 100) as Hq.
  change (parse_upto W (env (this s)) 100)
    with (parseServiceAccounts W (env (this s))) in Hq.
  generalize dependent (parseServiceAccounts W (env (this s))).
  intros [accs evs] Hq. cbn [fst snd] in *.
  destruct (length accs =? 0)%nat.
  - destruct (env_get (env (this s)) "GDRIVE_SERVICE_ACCOUNT") as [v|];
      [destruct (JSON_parse W v)|];
      match goal with
      | |- context [if ?b then _ else _] => destruct b
      end;
      cbn [globals log this emit set_this env with_accounts];
      rewrite ?count_app, ?count_cons, ?count_nil, ?P_read, ?P_warn, ?P_log, Hq;
      repeat apply conj; (reflexivity || lia).
  - match goal with
    | |- context [if ?b then _ else _] => destruct b
    end;
    cbn [globals log this emit set_this env with_accounts];
    rewrite ?count_app, ?count_cons, ?count_nil, ?P_log, Hq;
    repeat apply conj; (reflexivity || lia).
Qed.

(** So does the end of a call, after the reply of the URL. *)
Lemma load_after_fetch_quiet (W : World) (s : Sys) (r : Settled FetchOutcome) :
  globals (load_after_fetch W s r) = globals s
  /\ env (this (load_after_fetch W s r)) = env (this s)
  /\ count_events P (log (load_after_fetch W s r)) = count_events P (log s).
Proof.
  unfold load_after_fetch. cbv zeta.
  assert (Hw : forall m,
            let s1 := emit (set_clock s (settled_at r))
                        [EvWarn ("Failed to load service accounts from URL: "
                                 +:+ m)] in
            globals (load_from_env W s1) = globals s
            /\ env (this (load_from_env W s1)) = env (this s)
            /\ count_events P (log (load_from_env W s1)) = count_events P (log s)).
  { intros m s1. destruct (load_from_env_quiet W s1) as (-> & -> & ->).
    subst s1. cbn [globals log this emit set_clock].
    rewrite count_app, count_cons, P_warn. cbn. repeat apply conj; (reflexivity || lia). }
  assert (H0 : globals (load_from_env W (set_clock s (settled_at r))) = globals s
               /\ env (this (load_from_env W (set_clock s (settled_at r))))
                  = env (this s)
               /\ count_events P (log (load_from_env W (set_clock s (settled_at r))))
                  = count_events P (log s)).
  { destruct (load_from_env_quiet W (set_clock s (settled_at r))) as (-> & -> & ->).
    repeat apply conj; reflexivity. }
  destruct (settled r) as [m|ok body].
  - apply Hw.
  - destruct ok; [|exact H0].
    destruct body as [data|m]; [|apply Hw].
    destruct (accounts data) as [l|]; [|exact H0].
    cbn [globals log this emit set_this set_clock env with_accounts].
    rewrite count_app, count_cons, P_log. cbn.
    repeat apply conj; (reflexivity || lia).
Qed.

End Quiet.

Lemma imports_app (l k : list Event) :
  imports (l ++ k) = (imports l + imports k)%nat.
Proof. apply count_app. Qed.

Lemma load_enter_once (W : World) (s : Sys) :
  import_once W (globals s) (log s) ->
  import_once W (globals (load_enter s).1) (log (load_enter s).1).
Proof.
  unfold load_enter, import_once.
  destruct (accountsLoaded (this s)); [easy|].
  destruct (bundledServiceAccountsPromise (globals s)) as [p|] eqn:E.
  - cbn [fst]. rewrite E. auto.
  - cbn [fst globals log emit set_globals bundledServiceAccountsPromise].
    intros H. rewrite imports_app, H. reflexivity.
Qed.

Lemma import_once_emit (W : World) (s : Sys) (evs : list Event) :
  imports evs = 0%nat ->
  import_once W (globals s) (log s) ->
  import_once W (globals s) (log s ++ evs).
Proof.
  intros H0. unfold import_once. rewrite imports_app, H0, Nat.add_0_r. auto.
Qed.

Lemma load_from_env_once (W : World) (s : Sys) :
  import_once W (globals s) (log s) ->
  import_once W (globals (load_from_env W s)) (log (load_from_env W s)).
Proof.
  intros H.
  destruct (load_from_env_quiet is_import ltac:(reflexivity) ltac:(reflexivity)
              ltac:(reflexivity) W s) as (Hg & _ & Hl).
  unfold import_once, imports in *. rewrite Hg, Hl. exact H.
Qed.

Lemma load_after_import_once (W : World) (s : Sys) (module : option Doc) :
  import_once W (globals s) (log s) ->
  import_once W (globals (load_after_import W s module).1)
    (log (load_after_import W s module).1).
Proof.
  intros H. unfold load_after_import.
  destruct (module ≫= accounts) as [l|].
  - cbn [fst globals log emit set_this]. now apply import_once_emit.
  - destruct (env_get (env (this s)) "SERVICE_ACCOUNTS_URL") as [url|].
    + cbn [fst globals log emit]. rewrite <- app_assoc.
      now apply import_once_emit.
    + cbn [fst]. apply load_from_env_once.
      cbn [globals log emit]. now apply import_once_emit.
Qed.

Lemma load_after_fetch_once (W : World) (s : Sys) (r : Settled FetchOutcome) :
  import_once W (globals s) (log s) ->
  import_once W (globals (load_after_fetch W s r))
    (log (load_after_fetch W s r)).
Proof.
  intros H. unfold load_after_fetch. cbv zeta.
  assert (H0 : import_once W (globals (set_clock s (settled_at r)))
                 (log (set_clock s (settled_at r)))) by exact H.
  assert (Hw : forall m,
            import_once W
              (globals (load_from_env W (emit (set_clock s (settled_at r))
                 [EvWarn ("Failed to load service accounts from URL: " +:+ m)])))
              (log (load_from_env W (emit (set_clock s (settled_at r))
                 [EvWarn ("Failed to load service accounts from URL: " +:+ m)])))).
  { intros m. apply load_from_env_once.
    cbn [globals log emit set_clock]. now apply import_once_emit. }
  destruct (settled r) as [m|ok body].
  - apply Hw.
  - destruct ok.
    + destruct body as [data|m]; [|apply Hw].
      destruct (accounts data) as [l|].
      * cbn [globals log emit set_this set_clock]. now apply import_once_emit.
      * now apply load_from_env_once.
    + now apply load_from_env_once.
Qed.

Lemma step_once (W : World) (l : Label) (m m' : Machine) :
  step W l m = Some m' ->
  import_once W (m_globals m) (m_log m) ->
  import_once W (m_globals m') (m_log m').
Proof.
  intros Hstep H. destruct l as [i| |i|i]; cbn in Hstep.
  - destruct (m_tasks m !! i) as [t|]; [|discriminate]. cbn in Hstep.
    destruct (m_clients m !! client t) as [c|]; [|discriminate]. cbn in Hstep.
    destruct (pc t); [discriminate|]. injection Hstep as <-.
    cbn. apply (load_enter_once W (view m c)). exact H.
  - destruct (bundledServiceAccountsPromise (m_globals m)) as [[|module]|] eqn:E;
      try discriminate.
    injection Hstep as <-. unfold import_once, settle in *. rewrite E in *.
    cbn. split; [exact H|reflexivity].
  - destruct (m_tasks m !! i) as [t|]; [|discriminate]. cbn in Hstep.
    destruct (m_clients m !! client t) as [c|]; [|discriminate]. cbn in Hstep.
    destruct (pc t) as [[| |]|]; try discriminate.
    destruct (bundledServiceAccountsPromise (m_globals m)) as [[|module]|];
      try discriminate.
    injection Hstep as <-. cbn.
    apply (load_after_import_once W (view m c)). exact H.
  - destruct (m_tasks m !! i) as [t|]; [|discriminate]. cbn in Hstep.
    destruct (m_clients m !! client t) as [c|]; [|discriminate]. cbn in Hstep.
    destruct (pc t) as [[|url requested|]|]; try discriminate.
    injection Hstep as <-. cbn.
    apply (load_after_fetch_once W (view m c)). exact H.
Qed.

Lemma run_once (W : World) (schedule : list Label) (m m' : Machine) :
  run W schedule m = Some m' ->
  import_once W (m_globals m) (m_log m) ->
  import_once W (m_globals m') (m_log m').
Proof.
  revert m. induction schedule as [|l rest IH]; intros m Hrun H; cbn in Hrun.
  - now injection Hrun as <-.
  - destruct (step W l m) as [m1|] eqn:E; [|discriminate]. cbn in Hrun.
    apply (IH m1 Hrun). eapply step_once; eauto.
Qed.

(** ** Every caller that has called fetches the URL *)

Lemma sum_list_cons (a : nat) (l : list nat) :
  sum_list (a :: l) = (a + sum_list l)%nat.
Proof. reflexivity. Qed.

Lemma sum_insert (f : Task -> nat) (l : list Task) (i : nat) (x y : Task) :
  l !! i = Some x ->
  (sum_list (f <$> <[i:=y]> l) + f x = sum_list (f <$> l) + f y)%nat.
Proof.
  revert i. induction l as [|a l IH]; intros [|i] H; try discriminate.
  - injection H as ->.
    change (<[0%nat:=y]> (x :: l)) with (y :: l).
    rewrite !fmap_cons, !sum_list_cons. lia.
  - change (<[S i:=y]> (a :: l)) with (a :: <[i:=y]> l).
    specialize (IH i H). rewrite !fmap_cons, !sum_list_cons. lia.
Qed.

Lemma step_ledger (W : World) (base : nat) (l : Label) (m m' : Machine) :
  import_bundled W ≫= accounts = None ->
  step W l m = Some m' ->
  fetch_ledger W base m -> fetch_ledger W base m'.
Proof.
  intros Hnone Hstep (Honce & Hurl & Hpc & Hcount).
  pose proof (step_once W l m m' Hstep Honce) as Honce'.
  destruct l as [i| |i|i]; cbn [step] in Hstep.
  - destruct (m_tasks m !! i) as [t|] eqn:Et; [|discriminate].
    cbn [mbind option_bind] in Hstep.
    destruct (m_clients m !! client t) as [c|]; [|discriminate].
    cbn [mbind option_bind] in Hstep.
    destruct (pc t) eqn:Ep; [discriminate|].
    exfalso. apply (proj1 (Forall_lookup _ _) Hpc i t Et). exact Ep.
  - destruct (bundledServiceAccountsPromise (m_globals m)) as [[|module]|];
      try discriminate.
    injection Hstep as <-. repeat split; assumption.
  - destruct (m_tasks m !! i) as [t|] eqn:Et; [|discriminate].
    cbn [mbind option_bind] in Hstep.
    destruct (m_clients m !! client t) as [c|] eqn:Ec; [|discriminate].
    cbn [mbind option_bind] in Hstep.
    destruct (pc t) as [[| |]|] eqn:Ep; try discriminate.
    destruct (bundledServiceAccountsPromise (m_globals m)) as [[|module]|] eqn:Eg;
      try discriminate.
    assert (module = import_bundled W) as ->.
    { unfold import_once in Honce. rewrite Eg in Honce. apply Honce. }
    pose proof (proj1 (Forall_lookup _ _) Hurl _ _ Ec) as Hc.
    unfold load_after_import in Hstep. rewrite Hnone in Hstep.
    cbn [view this env] in Hstep.
    destruct (env_get (env c) "SERVICE_ACCOUNTS_URL") as [url|] eqn:Eu;
      [|congruence].
    injection Hstep as <-.
    split; [exact Honce'|].
    cbn [commit fst snd m_clients m_tasks m_log emit log this view].
    repeat apply conj.
    + apply Forall_insert; assumption.
    + apply Forall_insert; [assumption|discriminate].
    + unfold fetches in *. rewrite !count_app, Hcount.
      pose proof (sum_insert fetched (m_tasks m) i t
                    {| client := client t;
                       pc := Some (AwaitFetch url (m_clock m)) |} Et) as Hs.
      assert (Hold : fetched t = 0%nat) by (unfold fetched; now rewrite Ep).
      rewrite Hold in Hs.
      change (fetched {| client := client t;
                         pc := Some (AwaitFetch url (m_clock m)) |})
        with 1%nat in Hs.
      change (count_events is_fetch [EvEnvRead "SERVICE_ACCOUNTS_URL"]) with 0%nat.
      change (count_events is_fetch [EvFetch url]) with 1%nat.
      lia.
  - destruct (m_tasks m !! i) as [t|] eqn:Et; [|discriminate].
    cbn [mbind option_bind] in Hstep.
    destruct (m_clients m !! client t) as [c|] eqn:Ec; [|discriminate].
    cbn [mbind option_bind] in Hstep.
    destruct (pc t) as [[|url requested|]|] eqn:Ep; try discriminate.
    injection Hstep as <-.
    pose proof (proj1 (Forall_lookup _ _) Hurl _ _ Ec) as Hc.
    destruct (load_after_fetch_quiet is_fetch ltac:(reflexivity)
                ltac:(reflexivity) ltac:(reflexivity) W (view m c)
                (http_get W url requested)) as (_ & Henv & Hlog).
    split; [exact Honce'|].
    cbn [commit fst snd m_clients m_tasks m_log].
    repeat apply conj.
    + apply Forall_insert; [assumption|]. rewrite Henv. exact Hc.
    + apply Forall_insert; [assumption|discriminate].
    + unfold fetches in *. rewrite Hlog. cbn [view log]. rewrite Hcount.
      pose proof (sum_insert fetched (m_tasks m) i t
                    {| client := client t; pc := Some Resolved |} Et) as Hs.
      assert (Hold : fetched t = 1%nat) by (unfold fetched; now rewrite Ep).
      rewrite Hold in Hs.
      change (fetched {| client := client t; pc := Some Resolved |})
        with 1%nat in Hs.
      lia.
Qed.

Lemma run_ledger (W : World) (base : nat) (schedule : list Label)
    (m m' : Machine) :
  import_bundled W ≫= accounts = None ->
  run W schedule m = Some m' ->
  fetch_ledger W base m -> fetch_ledger W base m'.
Proof.
  intros Hnone. revert m.
  induction schedule as [|l rest IH]; intros m Hrun H; cbn in Hrun.
  - now injection Hrun as <-.
  - destruct (step W l m) as [m1|] eqn:E; [|discriminate]. cbn in Hrun.
    apply (IH m1 Hrun). eapply step_ledger; eauto.
Qed.

(** Callers that have all called before resolution completed, on clients
    with the URL configured, when the bundled collection gives no array:
    whatever the order in which they then run, by the time all of them
    have returned the URL has been fetched once for each of them. *)
Lemma every_caller_fetches (W : World) (schedule : list Label) (m m' : Machine) :
  import_bundled W ≫= accounts = None ->
  import_once W (m_globals m) (m_log m) ->
  Forall (fun c => env_get (env c) "SERVICE_ACCOUNTS_URL" <> None) (m_clients m) ->
  Forall (fun t => pc t = Some AwaitImport) (m_tasks m) ->
  run W schedule m = Some m' ->
  Forall (fun t => pc t = Some Resolved) (m_tasks m') ->
  fetches (m_log m') = (fetches (m_log m) + length (m_tasks m'))%nat.
Proof.
  intros Hnone Honce Hurl Hwait Hrun Hdone.
  assert (Hstart : fetch_ledger W (fetches (m_log m)) m).
  { repeat split; try assumption.
    - eapply Forall_impl; [exact Hwait|]. intros t ->. discriminate.
    - assert (sum_list (fetched <$> m_tasks m) = 0%nat) as ->; [|lia].
      induction Hwait as [|t l Ht _ IH]; [reflexivity|].
      cbn. unfold fetched at 1. now rewrite Ht, IH. }
  destruct (run_ledger W _ schedule m m' Hnone Hrun Hstart) as (_ & _ & _ & ->).
  f_equal.
  induction Hdone as [|t l Ht _ IH]; [reflexivity|].
  cbn. unfold fetched at 1. now rewrite Ht, IH.
Qed.

(** A caller that runs alone goes through the machine as
    [loadServiceAccounts] describes. *)
Lemma single_caller_run (W : World) (c : DriveClient) (now : Z) :
  exists schedule m c',
    run W schedule (fresh [c] [0%nat] now) = Some m
    /\ m_clients m = [c']
    /\ m_tasks m = [{| client := 0; pc := Some Resolved |}]
    /\ view m c' = loadServiceAccounts W (Sample.boot c now).
Proof.
  unfold loadServiceAccounts, load_enter, Sample.boot.
  cbn [this globals bundledServiceAccountsPromise].
  destruct (accountsLoaded c) eqn:El.
  - exists [Call 0%nat]. eexists. exists c.
    cbn -[load_from_env load_after_fetch load_after_import].
    unfold load_enter. cbn [view this]. rewrite El. cbn. repeat split.
  - unfold settle_import, settle.
    cbn [globals set_globals emit bundledServiceAccountsPromise].
    unfold load_after_import.
    destruct (import_bundled W ≫= accounts) as [l|] eqn:Eb.
    + exists [Call 0%nat; ImportSettles; ResumeImport 0%nat]. eexists. eexists.
      cbn -[load_from_env load_after_fetch load_after_import].
      unfold load_enter. cbn [view this]. rewrite El.
      cbn -[load_from_env load_after_fetch load_after_import].
      unfold load_after_import. rewrite Eb.
      cbn -[load_from_env load_after_fetch]. repeat split.
    + cbn [this set_globals emit env].
      destruct (env_get (env c) "SERVICE_ACCOUNTS_URL") as [url|] eqn:Eu.
      * exists [Call 0%nat; ImportSettles; ResumeImport 0%nat;
                FetchReplies 0%nat].
        eexists. eexists.
        cbn -[load_from_env load_after_fetch load_after_import].
        unfold load_enter. cbn [view this]. rewrite El.
        cbn -[load_from_env load_after_fetch load_after_import].
        unfold load_after_import. rewrite Eb. cbn [this view env].
        rewrite Eu. cbn -[load_from_env load_after_fetch].
        split; [reflexivity|]. split; [reflexivity|]. split; [reflexivity|].
        now destruct (load_after_fetch W _ _).
      * exists [Call 0%nat; ImportSettles; ResumeImport 0%nat]. eexists. eexists.
        cbn -[load_from_env load_after_fetch load_after_import].
        unfold load_enter. cbn [view this]. rewrite El.
        cbn -[load_from_env load_after_fetch load_after_import].
        unfold load_after_import. rewrite Eb. cbn [this view env].
        rewrite Eu. cbn -[load_from_env load_after_fetch].
        split; [reflexivity|]. split; [reflexivity|]. split; [reflexivity|].
        now destruct (load_from_env W _).
Qed.

(** C6, as the specification states it, fails for the remote URL: two
    callers on one client, both calling before resolution has completed,
    each fetch the URL. *)
Lemma racing_callers_fetch_twice :
  let url := "https://example.test/accounts.json" in
  let remote (u : string) (t : Z) :=
    {| settled_at := t + 50;
       settled := FetchResponse true (Ok {| accounts := Some [Sample.alice] |}) |} in
  let W := Sample.world None remote (Sample.granting None) in
  let m0 := fresh [new_DriveClient {[ "SERVICE_ACCOUNTS_URL" := url ]}]
              [0%nat; 0%nat] 0 in
  let called := run W [Call 0%nat; Call 1%nat] m0 in
  let finished :=
    run W [Call 0%nat; Call 1%nat; ImportSettles;
           ResumeImport 0%nat; ResumeImport 1%nat;
           FetchReplies 0%nat; FetchReplies 1%nat] m0 in
  (List.map accountsLoaded ∘ m_clients) <$> called = Some [false]
  /\ (List.map pc ∘ m_tasks) <$> called = Some [Some AwaitImport; Some AwaitImport]
  /\ (List.map pc ∘ m_tasks) <$> finished = Some [Some Resolved; Some Resolved]
  /\ (List.map serviceAccounts ∘ m_clients) <$> finished = Some [[Sample.alice]]
  /\ (imports ∘ m_log) <$> finished = Some 1%nat
  /\ (fetches ∘ m_log) <$> finished = Some 2%nat.
Proof. vm_compute. repeat apply conj; reflexivity. Qed.

(** C6 (amended). However many callers overlap, on one client or on
    several, the bundled import is started at most once in a process: all
    of them await the one module-level promise, and once it has settled
    every one of them resumes with what the import gave (nothing, when it
    failed). A caller that calls after resolution has completed on its
    client queries no source. *)
Theorem bundled_import_starts_once (W : World) (clients : list DriveClient)
    (callers : list nat) (now : Z) (schedule : list Label) (m : Machine) :
  run W schedule (fresh clients callers now) = Some m ->
  (imports (m_log m) <= 1)%nat
  /\ (bundledServiceAccountsPromise (m_globals m) = None ->
      imports (m_log m) = 0%nat)
  /\ (forall module,
        bundledServiceAccountsPromise (m_globals m) = Some (Fulfilled module) ->
        module = import_bundled W)
  /\ (forall i t c,
        m_tasks m !! i = Some t -> pc t = None ->
        m_clients m !! client t = Some c -> accountsLoaded c = true ->
        exists m',
          step W (Call i) m = Some m'
          /\ m_log m' = m_log m
          /\ m_globals m' = m_globals m
          /\ m_tasks m' !! i = Some {| client := client t; pc := Some Resolved |}).
Proof.
  intros Hrun.
  assert (Hinv : import_once W (m_globals m) (m_log m)).
  { apply (run_once W schedule _ m Hrun). reflexivity. }
  unfold import_once in Hinv.
  repeat apply conj.
  - destruct (bundledServiceAccountsPromise (m_globals m)) as [[|module]|];
      [lia | lia | lia].
  - intros E. now rewrite E in Hinv.
  - intros module E. rewrite E in Hinv. apply Hinv.
  - intros i t c Ht Hpc Hc Hl. eexists. split.
    + cbn [step]. rewrite Ht. cbn [mbind option_bind]. rewrite Hc.
      cbn [mbind option_bind]. rewrite Hpc. reflexivity.
    + unfold load_enter. cbn [view this]. rewrite Hl.
      cbn [fst snd commit view globals log m_log m_globals m_tasks].
      repeat apply conj; try reflexivity.
      apply list_lookup_insert_eq. eapply lookup_lt_Some, Ht.
Qed.

Lemma bundled_import_starts_once_witness :
  let W := Sample.world None Sample.offline (Sample.granting None) in
  let c := new_DriveClient {[ "SERVICE_ACCOUNTS_URL" := "https://example.test/a.json" ]} in
  match run W [Call 0%nat; Call 1%nat; Call 2%nat; ImportSettles;
               ResumeImport 2%nat; ResumeImport 0%nat]
          (fresh [c; c] [0%nat; 1%nat; 0%nat] 0) with
  | Some m => (imports (m_log m) <= 1)%nat
  | None => False
  end.
Proof.
  intros W c.
  destruct (run W [Call 0%nat; Call 1%nat; Call 2%nat; ImportSettles;
                   ResumeImport 2%nat; ResumeImport 0%nat]
              (fresh [c; c] [0%nat; 1%nat; 0%nat] 0)) as [m|] eqn:E.
  - apply (bundled_import_starts_once W _ _ _ _ m E).
  - vm_compute in E. discriminate E.
Defined.

End RaceFacts.

(* ===================================================================== *)
(** * Further properties of the rotation and of the token cache *)
(* ===================================================================== *)

Section MoreTokenFacts.

(** ** The cursor *)

Lemma rotations_S (k : nat) (c : DriveClient) :
  rotations (S k) c = rotateServiceAccount (rotations k c).
Proof. reflexivity. Qed.

Lemma rotations_fields (k : nat) (c : DriveClient) :
  serviceAccounts (rotations k c) = serviceAccounts c
  /\ accountsLoaded (rotations k c) = accountsLoaded c
  /\ cachedTokens (rotations k c) = cachedTokens c.
Proof.
  induction k as [|k IH]; [easy|].
  rewrite rotations_S.
  destruct (rotate_fields (rotations k c)) as (-> & -> & ->).
  exact IH.
Qed.

Lemma rotations_index (k : nat) (c : DriveClient) :
  (2 <= length (serviceAccounts c))%nat ->
  (1 <= k)%nat ->
  currentServiceAccountIndex (rotations k c)
  = ((currentServiceAccountIndex c + k) mod length (serviceAccounts c))%nat.
Proof.
  intros Hn Hk. induction k as [|k IH]; [lia|].
  rewrite rotations_S.
  rewrite rotate_index
    by (rewrite (proj1 (rotations_fields k c)); lia).
  rewrite (proj1 (rotations_fields k c)).
  destruct k as [|k].
  - reflexivity.
  - rewrite IH by lia.
    rewrite Nat.Div0.add_mod_idemp_l. f_equal. lia.
Qed.

(** X1. Rotation goes round the set and never leaves it: on two records or
    more, [k >= 1] rotations put the cursor at [(cursor + k) mod N], below
    [N]; as many rotations as there are records bring the selection back
    to the record it started from; the set and the cache are not touched. *)
Theorem rotation_goes_round (c : DriveClient) (k : nat) :
  (2 <= length (serviceAccounts c))%nat ->
  (1 <= k)%nat ->
  currentServiceAccountIndex (rotations k c)
  = ((currentServiceAccountIndex c + k) mod length (serviceAccounts c))%nat
  /\ (currentServiceAccountIndex (rotations k c) < length (serviceAccounts c))%nat
  /\ getCurrentServiceAccount (rotations k c) = record_after c k
  /\ getCurrentServiceAccount (rotations (length (serviceAccounts c)) c)
     = getCurrentServiceAccount c
  /\ serviceAccounts (rotations k c) = serviceAccounts c
  /\ cachedTokens (rotations k c) = cachedTokens c.
Proof.
  intros Hn Hk.
  pose proof (rotations_index k c Hn Hk) as Hi.
  destruct (rotations_fields k c) as (Hs & _ & Hc).
  repeat apply conj.
  - exact Hi.
  - rewrite Hi. apply Nat.mod_upper_bound. lia.
  - rewrite current_lookup by (rewrite Hs; lia).
    rewrite Hs, Hi, Nat.Div0.mod_mod. reflexivity.
  - set (n := length (serviceAccounts c)) in *.
    destruct (rotations_fields n c) as (Hs' & _ & _).
    rewrite !current_lookup by (rewrite ?Hs'; fold n; lia).
    rewrite Hs'. fold n. rewrite (rotations_index n c) by (fold n; lia).
    fold n. rewrite Nat.Div0.mod_mod.
    rewrite <- Nat.Div0.add_mod_idemp_r, Nat.Div0.mod_same, Nat.add_0_r.
    reflexivity.
  - exact Hs.
  - exact Hc.
Qed.

Lemma rotation_goes_round_witness :
  let c := with_index (Sample.resolved [Sample.alice; Sample.bob; Sample.anon1]) 7 in
  currentServiceAccountIndex (rotations 2 c) = 0%nat
  /\ getCurrentServiceAccount (rotations 3 c) = getCurrentServiceAccount c.
Proof.
  intros c.
  assert (Hn : (2 <= length (serviceAccounts c))%nat) by (cbn; lia).
  destruct (rotation_goes_round c 2 Hn ltac:(lia)) as (H1 & _ & _ & H4 & _).
  split; [rewrite H1; reflexivity | exact H4].
Defined.

Lemma current_none (c : DriveClient) :
  getCurrentServiceAccount c = None <-> serviceAccounts c = [].
Proof.
  split.
  - intros H. destruct (serviceAccounts c) as [|a l] eqn:E; [reflexivity|].
    destruct (current_exists c) as (sa & Hsa & _); [rewrite E; cbn; lia|].
    congruence.
  - intros E. unfold getCurrentServiceAccount. now rewrite E.
Qed.

Lemma current_member (c : DriveClient) (sa : ServiceAccount) :
  getCurrentServiceAccount c = Some sa -> sa ∈ serviceAccounts c.
Proof.
  intros H. destruct (serviceAccounts c) as [|a l] eqn:E.
  - unfold getCurrentServiceAccount in H. rewrite E in H. discriminate.
  - destruct (current_exists c) as (sa' & Hsa & Hin); [rewrite E; cbn; lia|].
    rewrite E in Hin. congruence.
Qed.

(** ** What a call changes *)

(** One call on a resolved client, the Credential Set being empty or not. *)
Lemma getAccessToken_step (W : World) (fuel : nat) (s : Sys) :
  accountsLoaded (this s) = true ->
  getAccessToken W (S fuel) s
  = match getCurrentServiceAccount (this s) with
    | Some sa =>
        if still_valid (cachedTokens (this s) !! accountKey sa) (clock s)
        then (Returned (cachedTokens (this s) !! accountKey sa ≫= token), s)
        else after_mint (getAccessToken W fuel) (emit s [EvMint sa]) sa
               (fetchServiceAccountToken W sa (clock s))
    | None => oauth_path W s
    end.
Proof.
  intros Hl. cbn [getAccessToken]. rewrite (load_when_loaded W s Hl).
  reflexivity.
Qed.

Lemma after_mint_throws (retry : Sys -> Completion * Sys) (s : Sys)
    (sa : ServiceAccount) (r : Settled (Try TokenJson)) (m : string) :
  settled r = Throws m ->
  after_mint retry (emit s [EvMint sa]) sa r
  = if (1 <? length (serviceAccounts (this s)))%nat
    then retry (rotated s sa (settled_at r))
    else (Rejected m, rotated s sa (settled_at r)).
Proof.
  intros H. unfold after_mint. cbv zeta. rewrite H.
  cbn [this set_this emit set_clock].
  rewrite (proj1 (rotate_fields (this s))). reflexivity.
Qed.

Lemma after_mint_ok (retry : Sys -> Completion * Sys) (s : Sys)
    (sa : ServiceAccount) (r : Settled (Try TokenJson)) (td : TokenJson) :
  settled r = Ok td ->
  after_mint retry (emit s [EvMint sa]) sa r
  = (Returned (access_token td),
     {| globals := globals s;
        this := with_cache (this s)
                  (<[accountKey sa := cache_entry td (settled_at r)]>
                     (cachedTokens (this s)));
        clock := settled_at r;
        log := log s ++ [EvMint sa] |}).
Proof. intros H. unfold after_mint. cbv zeta. rewrite H. reflexivity. Qed.

Lemma rotated_fields (s : Sys) (sa : ServiceAccount) (t : Z) :
  same_configuration (this s) (this (rotated s sa t))
  /\ globals (rotated s sa t) = globals s
  /\ cachedTokens (this (rotated s sa t)) = cachedTokens (this s)
  /\ clock (rotated s sa t) = t
  /\ log (rotated s sa t)
     = log s ++ [EvMint sa;
                 EvError ("Service account " +:+ accountKey sa
                          +:+ " failed, rotating...")].
Proof.
  unfold rotated, same_configuration. cbn [this globals clock log set_this emit set_clock].
  unfold rotateServiceAccount.
  destruct (1 <? length (serviceAccounts (this s)))%nat;
    cbn; rewrite <- ?app_assoc; repeat apply conj; reflexivity.
Qed.

Lemma same_configuration_refl (c : DriveClient) : same_configuration c c.
Proof. repeat split. Qed.

Lemma same_configuration_trans (a b c : DriveClient) :
  same_configuration a b -> same_configuration b c -> same_configuration a c.
Proof.
  unfold same_configuration.
  intros (A1 & A2 & A3 & A4 & A5 & A6 & A7) (B1 & B2 & B3 & B4 & B5 & B6 & B7).
  repeat apply conj; etransitivity; eassumption.
Qed.

Ltac split_all :=
  repeat match goal with
         | |- same_configuration _ _ => fail 1
         | |- _ /\ _ => split
         end.

Lemma oauth_path_cases (W : World) (s : Sys) :
  let out := oauth_path W s in
  same_configuration (this s) (this out.2)
  /\ globals out.2 = globals s
  /\ currentServiceAccountIndex (this out.2) = currentServiceAccountIndex (this s)
  /\ exists evs,
       log out.2 = log s ++ evs
       /\ count_events is_mint evs = 0%nat
       /\ (cachedTokens (this out.2) = cachedTokens (this s)
           \/ exists td t,
                out.1 = Returned (access_token td)
                /\ cachedTokens (this out.2)
                   = <["oauth" := cache_entry td t]> (cachedTokens (this s)))
       /\ ((forall v, out.1 <> Returned v) ->
           cachedTokens (this out.2) = cachedTokens (this s)).
Proof.
  unfold oauth_path. cbv zeta.
  destruct (_ || _).
  { cbn [fst snd]. split_all; try reflexivity; [apply same_configuration_refl|].
    exists []. rewrite app_nil_r. split_all; auto. }
  destruct (still_valid _ _).
  { cbn [fst snd]. split_all; try reflexivity; [apply same_configuration_refl|].
    exists []. rewrite app_nil_r. split_all; auto. }
  destruct (settled _) as [td|m]; cbn [fst snd].
  - split_all; try reflexivity; [repeat split|].
    exists [EvRefresh]. split_all; try reflexivity.
    + right. eexists _, _. split; reflexivity.
    + intros Hv. now destruct (Hv (access_token td)).
  - split_all; try reflexivity; [repeat split|].
    exists [EvRefresh]. split_all; try reflexivity; auto.
Qed.

(** What every call keeps and what it may change, on a resolved client. *)
Lemma call_footprint (W : World) (fuel : nat) (s : Sys) :
  accountsLoaded (this s) = true ->
  let out := getAccessToken W fuel s in
  same_configuration (this s) (this out.2)
  /\ globals out.2 = globals s
  /\ ((currentServiceAccountIndex (this s) < length (serviceAccounts (this s)))%nat ->
      (currentServiceAccountIndex (this out.2) < length (serviceAccounts (this s)))%nat)
  /\ exists evs,
       log out.2 = log s ++ evs
       /\ (serviceAccounts (this s) <> [] -> count_events is_refresh evs = 0%nat)
       /\ (serviceAccounts (this s) = [] -> count_events is_mint evs = 0%nat)
       /\ (cachedTokens (this out.2) = cachedTokens (this s)
           \/ exists key td t,
                out.1 = Returned (access_token td)
                /\ cachedTokens (this out.2)
                   = <[key := cache_entry td t]> (cachedTokens (this s))
                /\ (key = "oauth"
                    \/ exists sa, sa ∈ serviceAccounts (this s)
                                  /\ key = accountKey sa))
       /\ ((forall v, out.1 <> Returned v) ->
           cachedTokens (this out.2) = cachedTokens (this s)).
Proof.
  revert s. induction fuel as [|fuel IH]; intros s Hl out.
  { subst out. cbn [getAccessToken fst snd].
    split_all; try reflexivity; [apply same_configuration_refl|auto|].
    exists []. rewrite app_nil_r. split_all; auto. }
  subst out. rewrite (getAccessToken_step W fuel s Hl).
  destruct (getCurrentServiceAccount (this s)) as [sa|] eqn:Hcur.
  - assert (Hin : sa ∈ serviceAccounts (this s)).
    { now apply current_member. }
    assert (Hne : serviceAccounts (this s) <> []).
    { intros E. rewrite E in Hin. now apply elem_of_nil in Hin. }
    destruct (still_valid _ _).
    { cbn [fst snd].
      split_all; try reflexivity; [apply same_configuration_refl|auto|].
      exists []. rewrite app_nil_r. split_all; auto. }
    destruct (settled (fetchServiceAccountToken W sa (clock s))) as [td|m] eqn:Er.
    + rewrite (after_mint_ok _ s sa _ td Er). cbn [fst snd this globals log].
      split_all; try reflexivity; [repeat split|auto|].
      exists [EvMint sa]. split_all; try reflexivity.
      * congruence.
      * right.
        exists (accountKey sa), td,
          (settled_at (fetchServiceAccountToken W sa (clock s))).
        split; [reflexivity|]. split; [reflexivity|]. right. eauto.
      * intros Hv. now destruct (Hv (access_token td)).
    + rewrite (after_mint_throws _ s sa _ m Er).
      set (s3 := rotated s sa (settled_at (fetchServiceAccountToken W sa (clock s)))).
      destruct (rotated_fields s sa
                  (settled_at (fetchServiceAccountToken W sa (clock s))))
        as (Hconf & Hglob & Hcache & _ & Hlog).
      fold s3 in Hconf, Hglob, Hcache, Hlog.
      assert (Hacc3 : serviceAccounts (this s3) = serviceAccounts (this s))
        by apply Hconf.
      assert (Hidx : (currentServiceAccountIndex (this s)
                        < length (serviceAccounts (this s)))%nat ->
                     (currentServiceAccountIndex (this s3)
                        < length (serviceAccounts (this s)))%nat).
      { intros Hlt. subst s3. unfold rotated. cbn [this set_this].
        unfold rotateServiceAccount.
        destruct (Nat.ltb_spec 1 (length (serviceAccounts (this s)))); [|exact Hlt].
        cbn. apply Nat.mod_upper_bound. lia. }
      destruct (1 <? length (serviceAccounts (this s)))%nat.
      * assert (Hl3 : accountsLoaded (this s3) = true).
        { destruct Hconf as (_ & _ & _ & _ & _ & -> & _). exact Hl. }
        destruct (IH s3 Hl3) as (Hc & Hg & Hi & evs & Hlg & Hr & Hm & Hw & Hf).
        split_all.
        -- eapply same_configuration_trans; eauto.
        -- etransitivity; [exact Hg | exact Hglob].
        -- intros Hlt. rewrite Hacc3 in Hi. auto.
        -- eexists. split; [rewrite Hlg, Hlog, <- app_assoc; reflexivity|].
           split_all.
           ++ intros _. rewrite count_app. rewrite Hr by (rewrite Hacc3; exact Hne).
              reflexivity.
           ++ intros E. contradiction.
           ++ rewrite Hcache in Hw. rewrite Hacc3 in Hw. exact Hw.
           ++ intros Hv. rewrite (Hf Hv). exact Hcache.
      * cbn [fst snd]. split_all; try assumption.
        exists [EvMint sa;
                EvError ("Service account " +:+ accountKey sa
                         +:+ " failed, rotating...")].
        split_all; auto. contradiction.
  - assert (Hempty : serviceAccounts (this s) = []).
    { now apply current_none. }
    destruct (oauth_path_cases W s) as (Hc & Hg & Hi & evs & Hlg & Hm & Hw & Hf).
    split_all; try assumption.
    + intros Hlt. rewrite Hi. exact Hlt.
    + exists evs. split_all; try assumption.
      * intros Hne. contradiction.
      * intros _. exact Hm.
      * destruct Hw as [Hw|(td & t & H1 & H2)]; [now left|].
        right. exists "oauth", td, t. split_all; auto.
Qed.

(** X3. Once the Credential Set is resolved, a call of [getAccessToken],
    however it ends, leaves the set, the resolved flag, the OAuth values,
    the environment, the roots and the module variables as they were; a
    cursor that was inside the set stays inside it. Only the cursor and
    the cache can change. *)
Theorem resolved_client_keeps_configuration (W : World) (fuel : nat) (s : Sys) :
  accountsLoaded (this s) = true ->
  let s' := (getAccessToken W fuel s).2 in
  same_configuration (this s) (this s')
  /\ globals s' = globals s
  /\ ((currentServiceAccountIndex (this s) < length (serviceAccounts (this s)))%nat ->
      (currentServiceAccountIndex (this s') < length (serviceAccounts (this s')))%nat).
Proof.
  intros Hl s'.
  destruct (call_footprint W fuel s Hl) as (Hc & Hg & Hi & _).
  split; [exact Hc|]. split; [exact Hg|].
  intros Hlt. subst s'.
  destruct Hc as (_ & _ & _ & _ & -> & _). auto.
Qed.

Lemma resolved_client_keeps_configuration_witness :
  let W := Sample.world None Sample.offline Sample.rejecting in
  let s := Sample.boot (Sample.resolved [Sample.alice; Sample.bob]) 0 in
  serviceAccounts (this (getAccessToken W 7 s).2) = [Sample.alice; Sample.bob]
  /\ (currentServiceAccountIndex (this (getAccessToken W 7 s).2) < 2)%nat.
Proof.
  intros W s.
  destruct (resolved_client_keeps_configuration W 7 s eq_refl) as (Hc & _ & Hi).
  split.
  - destruct Hc as (_ & _ & _ & _ & -> & _). reflexivity.
  - destruct Hc as (_ & _ & _ & _ & Hs & _).
    specialize (Hi ltac:(cbn; lia)). rewrite Hs in Hi. exact Hi.
Defined.

(** X5. The cache is written only by a call that returns a freshly
    obtained token, and then in one entry only: under the key of a record
    of the set, or under [oauth]. A call that fails, or that is cut,
    leaves the cache as it was. *)
Theorem cache_written_only_on_success (W : World) (fuel : nat) (s : Sys) :
  accountsLoaded (this s) = true ->
  let out := getAccessToken W fuel s in
  (cachedTokens (this out.2) = cachedTokens (this s)
   \/ exists key tokenData t,
        out.1 = Returned (access_token tokenData)
        /\ cachedTokens (this out.2)
           = <[key := cache_entry tokenData t]> (cachedTokens (this s))
        /\ (key = "oauth"
            \/ exists sa, sa ∈ serviceAccounts (this s) /\ key = accountKey sa))
  /\ ((forall v, out.1 <> Returned v) ->
      cachedTokens (this out.2) = cachedTokens (this s)).
Proof.
  intros Hl out.
  destruct (call_footprint W fuel s Hl) as (_ & _ & _ & evs & _ & _ & _ & Hw & Hf).
  split; assumption.
Qed.

Lemma cache_written_only_on_success_witness :
  let W := Sample.world None Sample.offline Sample.rejecting in
  let s := Sample.boot (Sample.resolved [Sample.alice]) 0 in
  cachedTokens (this (getAccessToken W 3 s).2) = cachedTokens (this s).
Proof.
  intros W s.
  apply (proj2 (cache_written_only_on_success W 3 s eq_refl)).
  intros v. vm_compute. discriminate.
Defined.

(** ** The first record that works *)

Lemma record_after_rotated (s : Sys) (sa : ServiceAccount) (t : Z) (j : nat) :
  (2 <= length (serviceAccounts (this s)))%nat ->
  record_after (this (rotated s sa t)) j = record_after (this s) (S j).
Proof.
  intros Hn. unfold record_after, rotated. cbn [this set_this].
  rewrite (proj1 (rotate_fields (this s))), rotate_index by lia.
  rewrite Nat.Div0.add_mod_idemp_l. do 2 f_equal. lia.
Qed.

Lemma record_after_0 (c : DriveClient) (sa : ServiceAccount) :
  record_after c 0 = Some sa -> getCurrentServiceAccount c = Some sa.
Proof.
  unfold record_after. rewrite Nat.add_0_r. intros H.
  rewrite current_lookup; [exact H|].
  apply lookup_lt_Some in H.
  destruct (serviceAccounts c); cbn in *; lia.
Qed.

Lemma first_working_go (W : World) (k : nat) :
  forall (fuel : nat) (s : Sys) (good : ServiceAccount),
    accountsLoaded (this s) = true ->
    (k = 0%nat \/ (2 <= length (serviceAccounts (this s)))%nat) ->
    steady_clock W ->
    no_valid_token (this s) (clock s) ->
    record_after (this s) k = Some good ->
    never_fails W good ->
    (forall j, (j < k)%nat ->
       exists sa, record_after (this s) j = Some sa /\ always_fails W sa) ->
    (k < fuel)%nat ->
    exists tokenData t s' evs,
      getAccessToken W fuel s = (Returned (access_token tokenData), s')
      /\ log s' = log s ++ evs
      /\ settled (fetchServiceAccountToken W good t) = Ok tokenData
      /\ Some <$> mints evs = record_after (this s) <$> seq 0 (S k)
      /\ accountsLoaded (this s') = true
      /\ serviceAccounts (this s') = serviceAccounts (this s)
      /\ getCurrentServiceAccount (this s') = Some good
      /\ cachedTokens (this s') !! accountKey good
         = Some (cache_entry tokenData (clock s')).
Proof.
  induction k as [|k IH]; intros fuel s good Hl Hn Hclock Hcache Hgood Hok Hbad Hfuel.
  - destruct fuel as [|fuel]; [lia|].
    pose proof (record_after_0 _ _ Hgood) as Hcur.
    destruct (Hok (clock s)) as [td Htd].
    rewrite (mint_at_cursor W fuel s good td Hl Hcur
               (not_valid_of_none _ _ _ Hcache) Htd).
    exists td, (clock s). eexists. exists [EvMint good].
    split; [reflexivity|]. split; [reflexivity|]. split; [exact Htd|].
    split; [cbn; now rewrite Hgood|].
    split; [exact Hl|]. split; [reflexivity|].
    split; [exact Hcur|].
    cbn. now rewrite lookup_insert_eq.
  - destruct fuel as [|fuel]; [lia|].
    destruct Hn as [Hn|Hn]; [discriminate|].
    destruct (Hbad 0%nat ltac:(lia)) as (bad & Hb0 & Hfail).
    pose proof (record_after_0 _ _ Hb0) as Hcur.
    destruct (Hfail (clock s)) as [m Hm].
    rewrite (getAccessToken_resumes W fuel s bad Hl Hcur
               (not_valid_of_none _ _ _ Hcache)).
    rewrite (after_mint_throws _ s bad _ m Hm).
    destruct (Nat.ltb_spec 1 (length (serviceAccounts (this s)))); [|lia].
    set (t := settled_at (fetchServiceAccountToken W bad (clock s))).
    destruct (rotated_fields s bad t) as (Hconf & _ & Hc3 & Hclk & Hlog).
    assert (Hacc : serviceAccounts (this (rotated s bad t))
                   = serviceAccounts (this s)) by apply Hconf.
    destruct (IH fuel (rotated s bad t) good)
      as (td & t' & s' & evs & Hrun & Hlg & Htd & Hmints & Hl' & Hs' & Hcur' & Hentry).
    + destruct Hconf as (_ & _ & _ & _ & _ & -> & _). exact Hl.
    + right. rewrite Hacc. exact Hn.
    + exact Hclock.
    + intros key e E. rewrite Hc3 in E. rewrite Hclk.
      specialize (Hcache key e E). specialize (Hclock bad (clock s)).
      subst t. lia.
    + rewrite record_after_rotated by exact Hn. exact Hgood.
    + exact Hok.
    + intros j Hj. rewrite record_after_rotated by exact Hn.
      apply Hbad. lia.
    + lia.
    + exists td, t', s'.
      exists ([EvMint bad;
               EvError ("Service account " +:+ accountKey bad
                        +:+ " failed, rotating...")] ++ evs).
      split; [exact Hrun|].
      split; [rewrite Hlg, Hlog, <- app_assoc; reflexivity|].
      split; [exact Htd|].
      split.
      { rewrite mints_app. cbn [mints omap list_omap app fmap list_fmap seq].
        change (omap _ evs) with (mints evs).
        change (Some bad :: (Some <$> mints evs)
                = record_after (this s) 0
                  :: (record_after (this s) <$> seq 1 (S k))).
        rewrite Hb0, Hmints. f_equal.
        rewrite <- fmap_S_seq, <- list_fmap_compose.
        apply list_fmap_ext. intros i j _. unfold compose.
        exact (record_after_rotated s bad t j Hn). }
      split; [exact Hl'|]. split; [congruence|].
      split; [exact Hcur'|exact Hentry].
Qed.

(** X6. When the record [k] places after the cursor never fails and the
    [k] records before it always fail, nothing valid being cached: the
    call mints for these records in order, once each, [k + 1 <= N]
    attempts in all, and returns the token of the working record, with
    the cursor left on it. From then on, for as long as that token has
    more than sixty seconds to live, every call returns the same token
    and sends nothing. *)
Theorem first_working_record_serves (W : World) (k fuel : nat) (s : Sys)
    (good : ServiceAccount) :
  accountsLoaded (this s) = true ->
  (k = 0%nat \/ (2 <= length (serviceAccounts (this s)))%nat) ->
  steady_clock W ->
  no_valid_token (this s) (clock s) ->
  record_after (this s) k = Some good ->
  never_fails W good ->
  (forall j, (j < k)%nat ->
     exists sa, record_after (this s) j = Some sa /\ always_fails W sa) ->
  (k < fuel)%nat ->
  (k < length (serviceAccounts (this s)))%nat
  /\ exists tokenData t s' evs,
       getAccessToken W fuel s = (Returned (access_token tokenData), s')
       /\ log s' = log s ++ evs
       /\ settled (fetchServiceAccountToken W good t) = Ok tokenData
       /\ Some <$> mints evs = record_after (this s) <$> seq 0 (S k)
       /\ getCurrentServiceAccount (this s') = Some good
       /\ forall later fuel',
            later + 60000 < clock s' + lifetime tokenData * 1000 ->
            getAccessToken W (S fuel') (set_clock s' later)
            = (Returned (access_token tokenData), set_clock s' later).
Proof.
  intros Hl Hn Hclock Hcache Hgood Hok Hbad Hfuel.
  split.
  - destruct (Nat.lt_ge_cases k (length (serviceAccounts (this s))))
      as [Hlt|Hge]; [exact Hlt|exfalso].
    assert (Hpos : (0 < length (serviceAccounts (this s)))%nat).
    { unfold record_after in Hgood. apply lookup_lt_Some in Hgood. lia. }
    destruct (Hbad (k - length (serviceAccounts (this s)))%nat ltac:(lia))
      as (sa & Hsa & Hfail).
    assert (sa = good) as ->.
    { unfold record_after in *.
      replace (currentServiceAccountIndex (this s) + k)%nat
        with (currentServiceAccountIndex (this s)
              + (k - length (serviceAccounts (this s)))
              + 1 * length (serviceAccounts (this s)))%nat in Hgood by lia.
      rewrite Nat.Div0.mod_add in Hgood. congruence. }
    destruct (Hfail 0) as [m Hm]. destruct (Hok 0) as [td Htd]. congruence.
  - destruct (first_working_go W k fuel s good Hl Hn Hclock Hcache Hgood Hok
                Hbad Hfuel)
      as (td & t & s' & evs & Hrun & Hlg & Htd & Hmints & Hl' & Hs' & Hcur' & Hentry).
    exists td, t, s', evs.
    split; [exact Hrun|]. split; [exact Hlg|]. split; [exact Htd|].
    split; [exact Hmints|]. split; [exact Hcur'|].
    intros later fuel' Hlater.
    apply (served_from_cache W fuel' (set_clock s' later) good
             (cache_entry td (clock s'))).
    + exact Hl'.
    + exact Hcur'.
    + exact Hentry.
    + cbn. exact Hlater.
Qed.

Lemma first_working_record_serves_witness :
  let W := Sample.world None Sample.offline (Sample.granting (Some 3599)) in
  let s := Sample.boot
             (with_index (Sample.resolved [Sample.alice; Sample.bob; Sample.bob]) 1)
             0 in
  exists tokenData s',
    getAccessToken W 3 s = (Returned (access_token tokenData), s')
    /\ mints (log s') = [Sample.bob; Sample.bob; Sample.alice]
    /\ getCurrentServiceAccount (this s') = Some Sample.alice.
Proof.
  intros W s.
  assert (Hsign : forall sa t,
            private_key sa <> Some "KEY-B" ->
            exists tokenData,
              fetchServiceAccountToken W sa t
              = {| settled_at := t + 1000; settled := Ok tokenData |}).
  { intros sa t Hk.
    unfold fetchServiceAccountToken, generateServiceAccountAssertion, sign.
    cbn [crypto_sign Sample.world W post_assertion]. unfold Sample.signer.
    destruct (decide (private_key sa = Some "KEY-B")); [contradiction|].
    cbn. eauto. }
  assert (Hbob : forall t,
            fetchServiceAccountToken W Sample.bob t
            = {| settled_at := t; settled := Throws "DataError" |})
    by reflexivity.
  destruct (first_working_record_serves W 2 3 s Sample.alice)
    as (_ & td & t & s' & evs & Hrun & Hlog & _ & Hmints & Hcur & _).
  - reflexivity.
  - right. cbn. lia.
  - intros sa t.
    destruct (decide (private_key sa = Some "KEY-B")) as [Hk|Hk].
    + unfold fetchServiceAccountToken, generateServiceAccountAssertion, sign.
      cbn [crypto_sign Sample.world W]. unfold Sample.signer.
      destruct (decide (private_key sa = Some "KEY-B")); [|contradiction].
      cbn. lia.
    + destruct (Hsign sa t Hk) as [td Htd]. rewrite Htd. cbn. lia.
  - intros key e E. cbn in E. now rewrite lookup_empty in E.
  - reflexivity.
  - intros t. destruct (Hsign Sample.alice t) as [td Htd]; [discriminate|].
    rewrite Htd. cbn. eauto.
  - intros j Hj. exists Sample.bob. split.
    + destruct j as [|[|j]]; [reflexivity|reflexivity|lia].
    + intros t. rewrite Hbob. cbn. eauto.
  - lia.
  - exists td, s'. split; [exact Hrun|]. split; [|exact Hcur].
    rewrite Hlog. cbn [log s Sample.boot app].
    apply (inj (fmap Some)). rewrite Hmints. reflexivity.
Defined.

(** ** The OAuth refresh path *)

Lemma oauth_reached (W : World) (fuel : nat) (s : Sys) :
  accountsLoaded (this s) = true ->
  serviceAccounts (this s) = [] ->
  getAccessToken W (S fuel) s = oauth_path W s.
Proof.
  intros Hl Hn. rewrite getAccessToken_step by exact Hl.
  now rewrite (proj2 (current_none (this s)) Hn).
Qed.

(** X7. A client whose resolved Credential Set is empty and whose three
    OAuth settings are non-empty, with no valid entry under "oauth",
    posts one refresh request. A reply that is ok is returned and stored
    under "oauth" with the lifetime counted from the moment the reply
    arrived, and is served again without a request while it has more than
    sixty seconds to live. A reply that is not ok rejects the call with
    its error_description, or with "Failed to refresh token" when it has
    none, and a network failure rejects it with its own message; in both
    cases the client is left as it was. *)
Theorem oauth_refresh_path (W : World) (fuel : nat) (s : Sys)
    (id secret refresh : string) :
  accountsLoaded (this s) = true ->
  serviceAccounts (this s) = [] ->
  clientId (this s) = Some id -> JsString.truthy id = true ->
  clientSecret (this s) = Some secret -> JsString.truthy secret = true ->
  refreshToken (this s) = Some refresh -> JsString.truthy refresh = true ->
  still_valid (cachedTokens (this s) !! "oauth") (clock s) = false ->
  let r := post_refresh W id secret refresh (clock s) in
  exists s',
    snd (getAccessToken W (S fuel) s) = s'
    /\ log s' = log s ++ [EvRefresh]
    /\ clock s' = settled_at r
    /\ match settled r with
       | HttpResponse true tokenData =>
           fst (getAccessToken W (S fuel) s) = Returned (access_token tokenData)
           /\ cachedTokens (this s')
              = <["oauth" := cache_entry tokenData (settled_at r)]>
                  (cachedTokens (this s))
           /\ forall later fuel',
                later + 60000 < settled_at r + lifetime tokenData * 1000 ->
                getAccessToken W (S fuel') (set_clock s' later)
                = (Returned (access_token tokenData), set_clock s' later)
       | HttpResponse false json =>
           fst (getAccessToken W (S fuel) s)
           = Rejected (or_else (error_description json) "Failed to refresh token")
           /\ this s' = this s
       | NetworkFailure m =>
           fst (getAccessToken W (S fuel) s) = Rejected m
           /\ this s' = this s
       end.
Proof.
  intros Hl Hn Hid Tid Hsec Tsec Href Tref Hstale r.
  rewrite (oauth_reached W fuel s Hl Hn).
  unfold oauth_path. cbv zeta.
  rewrite Hid, Hsec, Href. cbn [JsString.truthy_opt].
  rewrite Tid, Tsec, Tref. cbn [negb orb]. rewrite Hstale.
  unfold refreshUserToken. rewrite Tid, Tsec, Tref. cbn [andb].
  unfold token_reply. cbn [settled settled_at]. fold r.
  destruct (settled r) as [m|[|] json]; cbn [negb].
  - eexists. split; [reflexivity|]. cbn. auto.
  - eexists. split; [reflexivity|]. cbn [log clock this set_this set_clock emit fst snd].
    split; [reflexivity|]. split; [reflexivity|]. split; [reflexivity|].
    split; [reflexivity|].
    intros later fuel' Hlater.
    rewrite oauth_reached; [|exact Hl|exact Hn].
    unfold oauth_path. cbv zeta.
    cbn [this set_this set_clock emit clock with_cache clientId clientSecret
         refreshToken cachedTokens].
    rewrite Hid, Hsec, Href. cbn [JsString.truthy_opt].
    rewrite Tid, Tsec, Tref. cbn [negb orb].
    rewrite lookup_insert_eq. cbn [still_valid cache_entry expiresAt].
    destruct (Z.ltb_spec (later + 60000) (settled_at r + lifetime json * 1000));
      [reflexivity|lia].
  - eexists. split; [reflexivity|]. cbn. auto.
Qed.

Lemma oauth_refresh_path_witness :
  let W := Sample.world None Sample.offline (Sample.granting (Some 3599)) in
  let s := Sample.boot (with_accounts (new_DriveClient oauth_env) [] true) 0 in
  fst (getAccessToken W 1 s) = Returned (Some "ya29.")
  /\ log (snd (getAccessToken W 1 s)) = [EvRefresh]
  /\ getAccessToken W 1 (set_clock (snd (getAccessToken W 1 s)) 3539000)
     = (Returned (Some "ya29."),
        set_clock (snd (getAccessToken W 1 s)) 3539000).
Proof.
  intros W s.
  destruct (oauth_refresh_path W 0 s "client-1" "secret-1" "1//refresh")
    as (s' & Hs' & Hlog & _ & Hret & _ & Hagain);
    try reflexivity.
  rewrite Hs'. split; [exact Hret|]. split; [exact Hlog|].
  apply Hagain. cbn. lia.
Defined.

(** X8. A client whose resolved Credential Set is empty and which lacks
    one of the three OAuth settings (absent or empty) is rejected with
    "No authentication method available. Configure service accounts or
    OAuth credentials." before anything is sent: the state, its trace
    included, is the one the call started in. *)
Theorem no_method_no_request (W : World) (fuel : nat) (s : Sys) :
  accountsLoaded (this s) = true ->
  serviceAccounts (this s) = [] ->
  JsString.truthy_opt (clientId (this s))
  && JsString.truthy_opt (clientSecret (this s))
  && JsString.truthy_opt (refreshToken (this s)) = false ->
  getAccessToken W (S fuel) s
  = (Rejected "No authentication method available. Configure service accounts or OAuth credentials.",
     s).
Proof.
  intros Hl Hn Hmiss. rewrite (oauth_reached W fuel s Hl Hn).
  unfold oauth_path. cbv zeta.
  destruct (JsString.truthy_opt (clientId (this s))),
           (JsString.truthy_opt (clientSecret (this s))),
           (JsString.truthy_opt (refreshToken (this s)));
    try discriminate; reflexivity.
Qed.

Lemma no_method_no_request_witness :
  let W := Sample.world None Sample.offline (Sample.granting None) in
  let s := Sample.boot
             (with_accounts
                (new_DriveClient (<["GOOGLE_CLIENT_SECRET" := ""]> oauth_env))
                [] true) 0 in
  getAccessToken W 1 s
  = (Rejected "No authentication method available. Configure service accounts or OAuth credentials.",
     s).
Proof.
  intros W s. apply (no_method_no_request W 0 s); reflexivity.
Defined.

End MoreTokenFacts.

(* ===================================================================== *)
(** * The selection and the two methods, for entries of any kind *)
(* ===================================================================== *)

Section EntryFacts.

Lemma current_entry_lookup (c : ResolvedClient) :
  (0 < length (r_serviceAccounts c))%nat ->
  current_entry c
  = r_serviceAccounts c
      !! (r_currentServiceAccountIndex c mod length (r_serviceAccounts c))%nat.
Proof.
  intros H. unfold current_entry.
  destruct (Nat.eqb_spec (length (r_serviceAccounts c)) 0); [lia|reflexivity].
Qed.

Lemma current_entry_none (c : ResolvedClient) :
  current_entry c = None <-> r_serviceAccounts c = [].
Proof.
  split.
  - intros H. destruct (r_serviceAccounts c) as [|e l] eqn:E; [reflexivity|].
    rewrite current_entry_lookup in H by (rewrite E; cbn; lia).
    apply lookup_ge_None in H.
    pose proof (Nat.mod_upper_bound (r_currentServiceAccountIndex c)
                  (length (r_serviceAccounts c))) as Hlt.
    rewrite E in *. cbn [length] in *. lia.
  - intros E. unfold current_entry. now rewrite E.
Qed.

Lemma current_entry_member (c : ResolvedClient) (e : Entry) :
  current_entry c = Some e ->
  e ∈ r_serviceAccounts c
  /\ r_serviceAccounts c
       !! (r_currentServiceAccountIndex c mod length (r_serviceAccounts c))%nat
     = Some e.
Proof.
  intros H. unfold current_entry in H.
  destruct (length (r_serviceAccounts c) =? 0)%nat; [discriminate|].
  split; [eapply list_elem_of_lookup_2; exact H|exact H].
Qed.

Lemma current_entry_of (c : DriveClient) :
  current_entry (entries_of c) = TruthyEntry <$> getCurrentServiceAccount c.
Proof.
  unfold current_entry, getCurrentServiceAccount, entries_of.
  cbn [r_serviceAccounts r_currentServiceAccountIndex].
  rewrite length_fmap.
  destruct (length (serviceAccounts c) =? 0)%nat; [reflexivity|].
  apply list_lookup_fmap.
Qed.

Lemma rotate_entries_of (c : DriveClient) :
  rotate_entries (entries_of c) = entries_of (rotateServiceAccount c).
Proof.
  unfold rotate_entries, rotateServiceAccount, entries_of.
  cbn [r_serviceAccounts r_currentServiceAccountIndex].
  rewrite length_fmap.
  destruct (1 <? length (serviceAccounts c))%nat; reflexivity.
Qed.

(** X2. getCurrentServiceAccount() returns null for an empty set and
    otherwise the entry at the cursor modulo the size of the set, which
    is an entry of the set wherever the cursor stands. The entry may
    itself be a falsy value: a set that is not empty does not promise a
    selection that passes the test of line 403. On a set of records the
    selection is the record that the model of records selects. Rotating
    a set of fewer than two entries changes nothing. *)
Theorem selection_in_bounds (c : ResolvedClient) :
  (current_entry c = None <-> r_serviceAccounts c = [])
  /\ (forall e,
        current_entry c = Some e ->
        e ∈ r_serviceAccounts c
        /\ r_serviceAccounts c
             !! (r_currentServiceAccountIndex c
                   mod length (r_serviceAccounts c))%nat
           = Some e)
  /\ (r_serviceAccounts c <> [] -> exists e, current_entry c = Some e)
  /\ (forall d : DriveClient,
        current_entry (entries_of d)
        = TruthyEntry <$> getCurrentServiceAccount d)
  /\ ((length (r_serviceAccounts c) <= 1)%nat -> rotate_entries c = c).
Proof.
  split; [apply current_entry_none|].
  split; [apply current_entry_member|].
  split; [|split; [apply current_entry_of|]].
  - intros Hne. destruct (current_entry c) as [e|] eqn:E; [eauto|].
    now apply current_entry_none in E.
  - intros H. unfold rotate_entries.
    destruct (Nat.ltb_spec 1 (length (r_serviceAccounts c))); [lia|reflexivity].
Qed.

Lemma selection_in_bounds_witness :
  let c := {| r_clientId := None; r_clientSecret := None;
              r_refreshToken := None;
              r_serviceAccounts := [TruthyEntry Sample.alice; FalsyEntry];
              r_currentServiceAccountIndex := 41;
              r_cachedTokens := ∅ |} in
  current_entry c = Some FalsyEntry
  /\ FalsyEntry ∈ r_serviceAccounts c.
Proof.
  intros c. split; [reflexivity|].
  apply (proj1 (proj2 (selection_in_bounds c)) FalsyEntry). reflexivity.
Defined.

(** ** The two methods *)

Lemma oauth_entries_events (W : World) (r : Run) :
  r_serviceAccounts (r_this (oauth_entries W r).2)
  = r_serviceAccounts (r_this r)
  /\ exists evs,
       r_log (oauth_entries W r).2 = r_log r ++ evs
       /\ (evs = [] \/ evs = [EvRefresh]).
Proof.
  unfold oauth_entries. cbv zeta.
  destruct (_ || _).
  { split; [reflexivity|]. exists []. rewrite app_nil_r. auto. }
  destruct (still_valid _ _).
  { split; [reflexivity|]. exists []. rewrite app_nil_r. auto. }
  destruct (settled _); (split; [reflexivity|]); exists [EvRefresh]; auto.
Qed.

Lemma rotate_entries_same (c : ResolvedClient) :
  r_serviceAccounts (rotate_entries c) = r_serviceAccounts c.
Proof.
  unfold rotate_entries. now destruct (1 <? length (r_serviceAccounts c))%nat.
Qed.

(** What a call adds to the trace, by the kind of the entries. *)
Lemma entries_footprint (W : World) (fuel : nat) (r : Run) :
  exists evs,
    r_log (getAccessToken_entries W fuel r).2 = r_log r ++ evs
    /\ (r_serviceAccounts (r_this r) <> [] ->
        forallb is_truthy (r_serviceAccounts (r_this r)) = true ->
        count_events is_refresh evs = 0%nat)
    /\ (r_serviceAccounts (r_this r) = [] -> count_events is_mint evs = 0%nat)
    /\ (forall sa, EvMint sa ∈ evs ->
                   TruthyEntry sa ∈ r_serviceAccounts (r_this r)).
Proof.
  revert r. induction fuel as [|fuel IH]; intros r.
  { exists []. cbn [getAccessToken_entries snd]. rewrite app_nil_r.
    split; [reflexivity|]. split; [reflexivity|]. split; [reflexivity|].
    intros sa H. now apply elem_of_nil in H. }
  cbn [getAccessToken_entries].
  assert (Hoauth :
    (current_entry (r_this r) = None
     \/ current_entry (r_this r) = Some FalsyEntry) ->
    exists evs,
      r_log (oauth_entries W r).2 = r_log r ++ evs
      /\ (r_serviceAccounts (r_this r) <> [] ->
          forallb is_truthy (r_serviceAccounts (r_this r)) = true ->
          count_events is_refresh evs = 0%nat)
      /\ (r_serviceAccounts (r_this r) = [] -> count_events is_mint evs = 0%nat)
      /\ (forall sa, EvMint sa ∈ evs ->
                     TruthyEntry sa ∈ r_serviceAccounts (r_this r))).
  { intros Hsel.
    destruct (oauth_entries_events W r) as (_ & evs & Hlog & Hevs).
    exists evs. split; [exact Hlog|]. split; [|split].
    - intros Hne Hall. destruct Hsel as [Hnone|Hfalsy].
      + now apply current_entry_none in Hnone.
      + apply current_entry_member in Hfalsy as [Hin _].
        rewrite forallb_forall in Hall.
        apply list_elem_of_In in Hin. specialize (Hall _ Hin). discriminate.
    - intros _. now destruct Hevs as [-> | ->].
    - intros sa Hin. destruct Hevs as [-> | ->].
      + now apply elem_of_nil in Hin.
      + apply list_elem_of_singleton in Hin. discriminate. }
  destruct (current_entry (r_this r)) as [[|sa]|] eqn:Hcur;
    [apply Hoauth; now right| |apply Hoauth; now left].
  apply current_entry_member in Hcur as [Hin _].
  assert (Hne : r_serviceAccounts (r_this r) <> []).
  { intros E. rewrite E in Hin. now apply elem_of_nil in Hin. }
  cbv zeta.
  destruct (still_valid _ _).
  { exists []. cbn [snd]. rewrite app_nil_r.
    split; [reflexivity|]. split; [reflexivity|]. split; [reflexivity|].
    intros sa' H. now apply elem_of_nil in H. }
  destruct (settled (fetchServiceAccountToken W sa (r_clock r))) as [td|m].
  - exists [EvMint sa]. cbn [snd r_log r_set_this r_set_clock r_emit].
    split; [reflexivity|]. split; [reflexivity|].
    split; [intros E; contradiction|].
    intros sa' H. apply list_elem_of_singleton in H. now injection H as ->.
  - cbn [r_this r_set_this r_set_clock r_emit].
    rewrite rotate_entries_same.
    set (r3 := r_set_this _ _).
    assert (Hlog3 : r_log r3
                    = r_log r ++ [EvMint sa;
                                  EvError ("Service account " +:+ accountKey sa
                                           +:+ " failed, rotating...")]).
    { subst r3. cbn. now rewrite <- app_assoc. }
    assert (Hacc3 : r_serviceAccounts (r_this r3)
                    = r_serviceAccounts (r_this r)).
    { subst r3. cbn. apply rotate_entries_same. }
    assert (Hmint : forall sa' l,
              EvMint sa'
                ∈ [EvMint sa;
                   EvError ("Service account " +:+ accountKey sa
                            +:+ " failed, rotating...")] ++ l ->
              sa' = sa \/ EvMint sa' ∈ l).
    { intros sa' l H. cbn [app] in H.
      apply elem_of_cons in H as [H|H]; [left; congruence|].
      apply elem_of_cons in H as [H|H]; [discriminate|now right]. }
    destruct (1 <? length (r_serviceAccounts (r_this r)))%nat.
    + destruct (IH r3) as (evs & Hlog & Hr & _ & Hm).
      eexists. split; [rewrite Hlog, Hlog3, <- app_assoc; reflexivity|].
      split; [|split].
      * intros _ Hall. rewrite count_app.
        rewrite Hr by (rewrite Hacc3; assumption). reflexivity.
      * intros E. contradiction.
      * intros sa' H. destruct (Hmint _ _ H) as [->|H']; [exact Hin|].
        rewrite <- Hacc3. now apply Hm.
    + eexists. cbn [snd]. split; [exact Hlog3|].
      split; [reflexivity|]. split; [intros E; contradiction|].
      intros sa' H. rewrite <- (app_nil_r [_; _]) in H.
      destruct (Hmint _ _ H) as [->|H']; [exact Hin|].
      now apply elem_of_nil in H'.
Qed.

(** On a set of records the call is the call of the model of records. *)
Lemma entries_simulate (W : World) (fuel : nat) (s : Sys) :
  accountsLoaded (this s) = true ->
  getAccessToken_entries W fuel (run_of s)
  = ((getAccessToken W fuel s).1, run_of (getAccessToken W fuel s).2).
Proof.
  revert s. induction fuel as [|fuel IH]; intros s Hl; [reflexivity|].
  rewrite (getAccessToken_step W fuel s Hl).
  cbn [getAccessToken_entries]. cbn [run_of r_this].
  rewrite current_entry_of.
  destruct (getCurrentServiceAccount (this s)) as [sa|];
    cbn [fmap option_fmap option_map].
  - cbv zeta. cbn [run_of entries_of r_cachedTokens r_clock r_this].
    destruct (still_valid _ _); [reflexivity|].
    destruct (settled (fetchServiceAccountToken W sa (clock s))) as [td|m] eqn:Er.
    + rewrite (after_mint_ok _ s sa _ td Er). reflexivity.
    + rewrite (after_mint_throws _ s sa _ m Er).
      cbn [r_this r_set_this r_set_clock r_emit r_serviceAccounts].
      set (t := settled_at (fetchServiceAccountToken W sa (clock s))).
      assert (Hc : (1 <? length (r_serviceAccounts
                                   (rotate_entries (r_this (run_of s)))))%nat
                   = (1 <? length (serviceAccounts (this s)))%nat).
      { rewrite rotate_entries_same. cbn [run_of r_this entries_of r_serviceAccounts].
        now rewrite length_fmap. }
      assert (Hrun : r_set_this
                       (r_emit
                          (r_set_clock (r_emit (run_of s) [EvMint sa]) t)
                          [EvError ("Service account " +:+ accountKey sa
                                    +:+ " failed, rotating...")])
                       (rotate_entries (r_this (run_of s)))
                     = run_of (rotated s sa t)).
      { change (r_this (run_of s)) with (entries_of (this s)).
        rewrite rotate_entries_of. reflexivity. }
      assert (Hl3 : accountsLoaded (this (rotated s sa t)) = true).
      { destruct (rotated_fields s sa t)
          as ((_ & _ & _ & _ & _ & -> & _) & _). exact Hl. }
      rewrite Hc, Hrun.
      destruct (1 <? length (serviceAccounts (this s)))%nat.
      * rewrite (IH _ Hl3). reflexivity.
      * reflexivity.
  - unfold oauth_entries, oauth_path. cbv zeta.
    cbn [run_of entries_of r_this r_clientId r_clientSecret r_refreshToken
         r_cachedTokens r_clock].
    destruct (_ || _); [reflexivity|].
    destruct (still_valid _ _); [reflexivity|].
    destruct (settled _); reflexivity.
Qed.

(** X4. The refresh-token exchange is reached only through the test of
    line 403. With a set that is not empty and whose entries are all
    truthy, no call posts a refresh, not even when every mint fails and
    OAuth values are configured; with an empty set no mint is tried; and
    a mint is only ever tried for a truthy entry of the set. A set that
    holds a falsy entry is not covered: when the cursor comes to it, the
    call takes the OAuth path. On a resolved set of records the call is
    the one of the model of records. *)
Theorem no_fallback_between_methods (W : World) (fuel : nat) (r : Run) :
  let evs := r_new_events r (getAccessToken_entries W fuel r).2 in
  (r_serviceAccounts (r_this r) <> [] ->
   forallb is_truthy (r_serviceAccounts (r_this r)) = true ->
   count_events is_refresh evs = 0%nat)
  /\ (r_serviceAccounts (r_this r) = [] -> mints evs = [])
  /\ (forall sa, sa ∈ mints evs ->
                 TruthyEntry sa ∈ r_serviceAccounts (r_this r))
  /\ (forall s : Sys,
        accountsLoaded (this s) = true ->
        getAccessToken_entries W fuel (run_of s)
        = ((getAccessToken W fuel s).1, run_of (getAccessToken W fuel s).2)).
Proof.
  intros evs.
  destruct (entries_footprint W fuel r) as (evs' & Hlog & Hr & Hm & Hin).
  assert (Hevs : evs = evs').
  { subst evs. unfold r_new_events. rewrite Hlog. apply drop_app_length. }
  rewrite Hevs. clear Hevs evs.
  split; [exact Hr|]. split; [|split].
  - intros E. specialize (Hm E). clear - Hm.
    induction evs' as [|e l IH]; [reflexivity|].
    rewrite count_cons in Hm. destruct e; cbn in Hm; try discriminate;
      apply IH; exact Hm.
  - intros sa Hsa. apply Hin. unfold mints in Hsa.
    apply list_elem_of_omap in Hsa as (e & He & Hsome).
    destruct e; try discriminate. now injection Hsome as ->.
  - intros s Hl. now apply entries_simulate.
Qed.

Lemma no_fallback_between_methods_witness :
  let W := Sample.world None Sample.offline Sample.rejecting in
  let r := {| r_this :=
                {| r_clientId := Some "id"; r_clientSecret := Some "secret";
                   r_refreshToken := Some "refresh";
                   r_serviceAccounts :=
                     [TruthyEntry Sample.alice; TruthyEntry Sample.bob];
                   r_currentServiceAccountIndex := 0;
                   r_cachedTokens := ∅ |};
              r_clock := 0; r_log := [] |} in
  (getAccessToken_entries W 5 r).1 = Unfinished
  /\ length (mints (r_new_events r (getAccessToken_entries W 5 r).2)) = 5%nat
  /\ count_events is_refresh
       (r_new_events r (getAccessToken_entries W 5 r).2) = 0%nat.
Proof.
  intros W r. split; [vm_compute; reflexivity|].
  split; [vm_compute; reflexivity|].
  apply (proj1 (no_fallback_between_methods W 5 r)).
  - discriminate.
  - reflexivity.
Defined.

(** When the cursor comes to a falsy entry the call goes over to OAuth:
    here the only record fails, the rotation selects [null], and the
    token of the refresh exchange is returned. *)
Example falsy_entry_goes_to_oauth :
  let W := Sample.world None Sample.offline (Sample.granting None) in
  let r := {| r_this :=
                {| r_clientId := Some "id"; r_clientSecret := Some "secret";
                   r_refreshToken := Some "refresh";
                   r_serviceAccounts := [TruthyEntry Sample.bob; FalsyEntry];
                   r_currentServiceAccountIndex := 0;
                   r_cachedTokens := ∅ |};
              r_clock := 0; r_log := [] |} in
  (getAccessToken_entries W 2 r).1 = Returned (Some "ya29.")
  /\ r_log (getAccessToken_entries W 2 r).2
     = [EvMint Sample.bob;
        EvError "Service account bob@demo.iam.gserviceaccount.com failed, rotating...";
        EvRefresh].
Proof. cbv zeta. split; vm_compute; reflexivity. Qed.

End EntryFacts.

(* ===================================================================== *)
(** * More on credential resolution *)
(* ===================================================================== *)

Section MoreResolverFacts.

Lemma resolution_frame_refl (c : DriveClient) : resolution_frame c c.
Proof. repeat split. Qed.

Lemma resolution_frame_trans (c1 c2 c3 : DriveClient) :
  resolution_frame c1 c2 -> resolution_frame c2 c3 -> resolution_frame c1 c3.
Proof.
  unfold resolution_frame.
  intros (?&?&?&?&?&?&?) (?&?&?&?&?&?&?). repeat split; congruence.
Qed.

Ltac log_tail :=
  eexists; cbn [log emit set_this set_clock set_globals];
  rewrite <- ?app_assoc; try reflexivity;
  symmetry; apply app_nil_r.

Lemma load_from_env_frame (W : World) (s : Sys) :
  resolution_frame (this s) (this (load_from_env W s))
  /\ globals (load_from_env W s) = globals s
  /\ clock (load_from_env W s) = clock s
  /\ exists evs, log (load_from_env W s) = log s ++ evs.
Proof.
  unfold load_from_env. cbv zeta.
  generalize (parseServiceAccounts W (env (this s))). intros [found evs].
  cbn [fst snd this emit set_this env with_accounts].
  destruct (length found =? 0)%nat.
  - destruct (env_get (env (this s)) "GDRIVE_SERVICE_ACCOUNT") as [v|];
      [destruct (JSON_parse W v)|];
      cbn [this emit set_this serviceAccounts with_accounts];
      match goal with |- context [(0 <? ?n)%nat] => destruct (0 <? n)%nat end;
      (split; [repeat split|]); (split; [reflexivity|]);
      (split; [reflexivity|]); log_tail.
  - cbn [this emit set_this serviceAccounts with_accounts].
    destruct (0 <? length found)%nat;
      (split; [repeat split|]); (split; [reflexivity|]);
      (split; [reflexivity|]); log_tail.
Qed.

Lemma load_from_env_accounts_ext (W : World) (s1 s2 : Sys) :
  env (this s1) = env (this s2) ->
  serviceAccounts (this (load_from_env W s1))
  = serviceAccounts (this (load_from_env W s2)).
Proof.
  intros He. unfold load_from_env. cbv zeta. rewrite He.
  generalize (parseServiceAccounts W (env (this s2))). intros [found evs].
  cbn [fst snd this emit set_this env with_accounts].
  destruct (length found =? 0)%nat.
  - destruct (env_get (env (this s2)) "GDRIVE_SERVICE_ACCOUNT") as [v|];
      [destruct (JSON_parse W v)|];
      cbn [this emit set_this serviceAccounts with_accounts];
      repeat match goal with
             | |- context [(0 <? ?n)%nat] => destruct (0 <? n)%nat
             end; reflexivity.
  - cbn [this emit set_this serviceAccounts with_accounts].
    destruct (0 <? length found)%nat; reflexivity.
Qed.

Lemma load_after_fetch_frame (W : World) (s : Sys) (r : Settled FetchOutcome) :
  accountsLoaded (this (load_after_fetch W s r)) = true
  /\ resolution_frame (this s) (this (load_after_fetch W s r))
  /\ globals (load_after_fetch W s r) = globals s
  /\ exists evs, log (load_after_fetch W s r) = log s ++ evs.
Proof.
  unfold load_after_fetch. cbv zeta.
  assert (Henv : forall s0 : Sys,
            this s0 = this s -> globals s0 = globals s ->
            (exists evs, log s0 = log s ++ evs) ->
            accountsLoaded (this (load_from_env W s0)) = true
            /\ resolution_frame (this s) (this (load_from_env W s0))
            /\ globals (load_from_env W s0) = globals s
            /\ exists evs, log (load_from_env W s0) = log s ++ evs).
  { intros s0 Ht Hg [evs0 Hlog].
    destruct (load_from_env_frame W s0) as (Hf & Hg' & _ & evs & Hl).
    split; [apply load_from_env_loaded|].
    split; [rewrite <- Ht; exact Hf|].
    split; [congruence|].
    exists (evs0 ++ evs). rewrite Hl, Hlog. now rewrite app_assoc. }
  destruct (settled r) as [m|[|] [data|m]].
  - apply Henv; [reflexivity..|]. log_tail.
  - destruct (accounts data) as [l|].
    + split; [reflexivity|]. split; [repeat split|].
      split; [reflexivity|]. log_tail.
    + apply Henv; [reflexivity..|]. log_tail.
  - apply Henv; [reflexivity..|]. log_tail.
  - apply Henv; [reflexivity..|]. log_tail.
  - apply Henv; [reflexivity..|]. log_tail.
Qed.

Lemma load_after_import_frame (W : World) (s : Sys) (module : option Doc) :
  let out := load_after_import W s module in
  resolution_frame (this s) (this out.1)
  /\ globals out.1 = globals s
  /\ (exists evs, log out.1 = log s ++ evs)
  /\ (out.2 = AwaitImport -> False)
  /\ (out.2 = Resolved -> accountsLoaded (this out.1) = true).
Proof.
  unfold load_after_import. cbv zeta.
  destruct (module ≫= accounts) as [l|].
  - cbn [fst snd]. split; [repeat split|]. split; [reflexivity|].
    split; [log_tail|]. split; [discriminate|reflexivity].
  - destruct (env_get (env (this s)) "SERVICE_ACCOUNTS_URL") as [url|];
      cbn [fst snd].
    + split; [repeat split|]. split; [reflexivity|].
      split; [log_tail|]. split; discriminate.
    + destruct (load_from_env_frame W (emit s [EvEnvRead "SERVICE_ACCOUNTS_URL"]))
        as (Hf & Hg & _ & evs & Hl).
      split; [exact Hf|]. split; [exact Hg|].
      split; [exists ([EvEnvRead "SERVICE_ACCOUNTS_URL"] ++ evs);
              rewrite Hl; cbn [log emit]; now rewrite app_assoc|].
      split; [discriminate|]. intros _. apply load_from_env_loaded.
Qed.

Lemma load_completes (W : World) (s : Sys) :
  accountsLoaded (this (loadServiceAccounts W s)) = true
  /\ resolution_frame (this s) (this (loadServiceAccounts W s))
  /\ exists evs, log (loadServiceAccounts W s) = log s ++ evs.
Proof.
  unfold loadServiceAccounts, load_enter.
  destruct (accountsLoaded (this s)) eqn:Hl.
  { split; [exact Hl|]. split; [apply resolution_frame_refl|]. log_tail. }
  assert (Hgo : forall s2 module evs0,
            this s2 = this s -> log s2 = log s ++ evs0 ->
            let out := match load_after_import W s2 module with
                       | (s3, AwaitFetch url t) =>
                           load_after_fetch W s3 (http_get W url t)
                       | (s3, _) => s3
                       end in
            accountsLoaded (this out) = true
            /\ resolution_frame (this s) (this out)
            /\ exists evs, log out = log s ++ evs).
  { intros s2 module evs0 Ht Hlog. cbv zeta.
    pose proof (load_after_import_frame W s2 module) as Hai. cbv zeta in Hai.
    destruct (load_after_import W s2 module) as [s3 pc]. cbn [fst snd] in Hai.
    destruct Hai as (Hf & _ & [evs1 Hl1] & Hni & Hres).
    rewrite Ht in Hf.
    destruct pc as [|url t|].
    - now destruct Hni.
    - destruct (load_after_fetch_frame W s3 (http_get W url t))
        as (Hld & Hf2 & _ & evs2 & Hl2).
      split; [exact Hld|].
      split; [exact (resolution_frame_trans _ _ _ Hf Hf2)|].
      exists (evs0 ++ evs1 ++ evs2). rewrite Hl2, Hl1, Hlog.
      now rewrite <- !app_assoc.
    - split; [now apply Hres|]. split; [exact Hf|].
      exists (evs0 ++ evs1). rewrite Hl1, Hlog. now rewrite <- app_assoc. }
  destruct s as [[cache [[|module]|]] c t l];
    cbn [globals bundledServiceAccountsPromise settle_import settle
         set_globals emit this clock log].
  - apply (Hgo _ _ []); [reflexivity|]. cbn. now rewrite app_nil_r.
  - apply (Hgo _ _ []); [reflexivity|]. cbn. now rewrite app_nil_r.
  - apply (Hgo _ _ [EvImport]); reflexivity.
Qed.

(** X9. Credential resolution always completes: whatever the sources
    give, the client comes out with accountsLoaded set, so a second call
    changes nothing at all. Resolution touches nothing of the client but
    the Credential Set and that flag: the OAuth settings, the
    environment, the upload roots, the rotation cursor and the token
    cache are the ones it started with, and the trace is only extended. *)
Theorem resolution_always_completes (W : World) (s : Sys) :
  let s' := loadServiceAccounts W s in
  accountsLoaded (this s') = true
  /\ loadServiceAccounts W s' = s'
  /\ resolution_frame (this s) (this s')
  /\ exists evs, log s' = log s ++ evs.
Proof.
  cbv zeta. destruct (load_completes W s) as (Hl & Hf & Hlog).
  split; [exact Hl|]. split; [apply load_when_loaded; exact Hl|].
  split; [exact Hf|exact Hlog].
Qed.

(** ** When the URL gives nothing *)

Lemma load_after_fetch_nothing (W : World) (s : Sys) (r : Settled FetchOutcome) :
  url_gave_nothing (settled r) = true ->
  exists s0,
    load_after_fetch W s r = load_from_env W s0
    /\ this s0 = this s /\ globals s0 = globals s
    /\ clock s0 = settled_at r
    /\ log s0 = log s ++ url_trace (settled r).
Proof.
  intros H. unfold load_after_fetch. cbv zeta. unfold url_trace.
  destruct (settled r) as [m|[|] [data|m]]; cbn in H |- *.
  - eexists. split; [reflexivity|]. now cbn.
  - destruct (accounts data); [discriminate|].
    eexists. split; [reflexivity|]. cbn. now rewrite app_nil_r.
  - eexists. split; [reflexivity|]. now cbn.
  - eexists. split; [reflexivity|]. cbn. now rewrite app_nil_r.
  - eexists. split; [reflexivity|]. cbn. now rewrite app_nil_r.
Qed.

Lemma fetch_is_quiet :
  (forall k, is_fetch (EvEnvRead k) = false)
  /\ (forall t, is_fetch (EvWarn t) = false)
  /\ (forall t, is_fetch (EvLog t) = false).
Proof. repeat split. Qed.

(** X10. When the bundled collection yields no accounts array and
    SERVICE_ACCOUNTS_URL is set, a URL that gives nothing (the request
    throws, the reply is not ok, its body is not JSON, or the JSON holds
    no accounts array) leaves resolution to the environment method, run
    on the client as it was: the Credential Set is the one the
    environment alone gives. The URL has been requested exactly once, and
    the warning "Failed to load service accounts from URL: ..." is logged
    before the environment is read when something was thrown, and only
    then: a reply that is not ok, or that holds no array, is passed over
    in silence. *)
Theorem url_failure_falls_back_to_env (W : World) (s : Sys) (url : string) :
  accountsLoaded (this s) = false ->
  coherent W (globals s) ->
  import_bundled W ≫= accounts = None ->
  env_get (env (this s)) "SERVICE_ACCOUNTS_URL" = Some url ->
  url_gave_nothing (settled (http_get W url (clock s))) = true ->
  let r := http_get W url (clock s) in
  let s' := loadServiceAccounts W s in
  serviceAccounts (this s') = serviceAccounts (this (load_from_env W s))
  /\ fetches (new_events s s') = 1%nat
  /\ exists s0 pre,
       s' = load_from_env W s0
       /\ this s0 = this s
       /\ clock s0 = settled_at r
       /\ log s0 = log s ++ pre
                   ++ [EvEnvRead "SERVICE_ACCOUNTS_URL"; EvFetch url]
                   ++ match url_warning (settled r) with
                      | Some m => [EvWarn m]
                      | None => []
                      end
       /\ fetches pre = 0%nat.
Proof.
  intros Hl Hc Hb Hurl Hfail r s'.
  destruct (load_unfold W s Hl Hc) as (s2 & pre & Hrun & Ht & Hclk & Hlog & Hpre & _).
  assert (Hai : load_after_import W s2 (import_bundled W)
                = (emit (emit s2 [EvEnvRead "SERVICE_ACCOUNTS_URL"]) [EvFetch url],
                   AwaitFetch url (clock s))).
  { unfold load_after_import. rewrite Hb, Ht, Hurl, Hclk. reflexivity. }
  rewrite Hai in Hrun.
  destruct (load_after_fetch_nothing W
              (emit (emit s2 [EvEnvRead "SERVICE_ACCOUNTS_URL"]) [EvFetch url])
              (http_get W url (clock s)) Hfail)
    as (s0 & Heq & Ht0 & _ & Hclk0 & Hlog0).
  cbn [this emit log] in Ht0, Hlog0.
  assert (Hs' : s' = load_from_env W s0) by (subst s'; congruence).
  assert (Hlog0' : log s0 = log s ++ pre
                     ++ [EvEnvRead "SERVICE_ACCOUNTS_URL"; EvFetch url]
                     ++ url_trace (settled r)).
  { rewrite Hlog0, Hlog. fold r. now rewrite <- !app_assoc. }
  split; [|split].
  - rewrite Hs'. apply load_from_env_accounts_ext. congruence.
  - destruct (load_from_env_frame W s0) as (_ & _ & _ & evs & Hl0).
    destruct fetch_is_quiet as (Q1 & Q2 & Q3).
    destruct (load_from_env_quiet is_fetch Q1 Q2 Q3 W s0) as (_ & _ & Hq).
    rewrite Hl0 in Hq.
    rewrite (count_app is_fetch) in Hq.
    rewrite (new_events_app s s'
               (pre ++ [EvEnvRead "SERVICE_ACCOUNTS_URL"; EvFetch url]
                ++ url_trace (settled r) ++ evs)).
    + unfold fetches in *. rewrite !(count_app is_fetch).
      assert (count_events is_fetch (url_trace (settled r)) = 0%nat) as ->.
      { unfold url_trace. now destruct (url_warning (settled r)). }
      rewrite Hpre. cbn [count_events List.filter is_fetch length]. lia.
    + rewrite Hs', Hl0, Hlog0'. now rewrite <- !app_assoc.
  - exists s0, pre. split; [exact Hs'|]. split; [congruence|].
    split; [exact Hclk0|]. split; [exact Hlog0'|exact Hpre].
Qed.

Lemma url_failure_falls_back_to_env_witness :
  let W := Sample.world None Sample.offline (Sample.granting None) in
  let e : gmap string string :=
    {[ "SERVICE_ACCOUNTS_URL" := "https://keys.example/sa.json";
       "GDRIVE_SERVICE_ACCOUNT_0" := "{bob}" ]} in
  let s := Sample.boot (new_DriveClient e) 0 in
  serviceAccounts (this (loadServiceAccounts W s)) = [Sample.bob]
  /\ fetches (new_events s (loadServiceAccounts W s)) = 1%nat.
Proof.
  intros W e s.
  destruct (url_failure_falls_back_to_env W s "https://keys.example/sa.json")
    as (Hset & Hone & _); try (vm_compute; reflexivity).
  split; [|exact Hone]. rewrite Hset. vm_compute. reflexivity.
Defined.

(** ** The legacy variable *)

(** X11. When the bundled collection yields no accounts array, no URL is
    configured, GDRIVE_SERVICE_ACCOUNTS is not set and the numbered keys
    0 and 1 are not set, the Credential Set is the single record of the
    legacy variable GDRIVE_SERVICE_ACCOUNT when its value is well-formed,
    and is empty when it is not (with a warning) or when it is not set;
    nothing is fetched, and numbered keys from index 2 on, if any, are
    not used. *)
Theorem legacy_variable_alone (W : World) (s : Sys) :
  accountsLoaded (this s) = false ->
  coherent W (globals s) ->
  import_bundled W ≫= accounts = None ->
  env_get (env (this s)) "SERVICE_ACCOUNTS_URL" = None ->
  env_get (env (this s)) "GDRIVE_SERVICE_ACCOUNTS" = None ->
  env_get (env (this s)) (numbered_key 0) = None ->
  env_get (env (this s)) (numbered_key 1) = None ->
  let s' := loadServiceAccounts W s in
  serviceAccounts (this s')
  = match env_get (env (this s)) "GDRIVE_SERVICE_ACCOUNT" ≫= parsed W with
    | Some sa => [sa]
    | None => []
    end
  /\ accountsLoaded (this s') = true
  /\ fetches (new_events s s') = 0%nat
  /\ (forall v m,
        env_get (env (this s)) "GDRIVE_SERVICE_ACCOUNT" = Some v ->
        JSON_parse W v = Throws m ->
        "Failed to parse GDRIVE_SERVICE_ACCOUNT" ∈ warnings (new_events s s')).
Proof.
  intros Hl Hc Hb Hurl Hj H0 H1 s'.
  destruct (load_unfold W s Hl Hc) as (s2 & pre & Hrun & Ht & Hclk & Hlog & Hpre & _).
  assert (Hai : load_after_import W s2 (import_bundled W)
                = (load_from_env W (emit s2 [EvEnvRead "SERVICE_ACCOUNTS_URL"]),
                   Resolved)).
  { unfold load_after_import. rewrite Hb, Ht, Hurl. reflexivity. }
  rewrite Hai in Hrun. fold s' in Hrun.
  set (s1 := emit s2 [EvEnvRead "SERVICE_ACCOUNTS_URL"]) in *.
  assert (He : env (this s1) = env (this s)) by (subst s1; cbn; now rewrite Ht).
  assert (Hnone : (parseServiceAccounts W (env (this s1))).1 = []).
  { rewrite He.
    apply (proj2 (parse_upto_facts W (env (this s)) 98)).
    - unfold joined_part. now rewrite Hj.
    - now apply record_absent.
    - exact H1. }
  assert (Hshape :
    exists evs tail,
      log s' = log s1 ++ evs ++ tail
      /\ fetches (evs ++ tail) = 0%nat
      /\ serviceAccounts (this s')
         = match env_get (env (this s)) "GDRIVE_SERVICE_ACCOUNT" ≫= parsed W with
           | Some sa => [sa]
           | None => []
           end
      /\ forall v m,
           env_get (env (this s)) "GDRIVE_SERVICE_ACCOUNT" = Some v ->
           JSON_parse W v = Throws m ->
           "Failed to parse GDRIVE_SERVICE_ACCOUNT" ∈ warnings tail).
  { rewrite Hrun. unfold load_from_env. cbv zeta. rewrite He.
    destruct fetch_is_quiet as (Q1 & Q2 & Q3).
    pose proof (parse_upto_quiet is_fetch Q1 Q2 W (env (this s)) 100) as Hq.
    change (parse_upto W (env (this s)) 100)
      with (parseServiceAccounts W (env (this s))) in Hq.
    rewrite He in Hnone.
    generalize dependent (parseServiceAccounts W (env (this s))).
    intros [found evs] Hfound Hq. cbn [fst snd] in *. subst found.
    cbn [length Nat.eqb this emit set_this with_accounts].
    unfold parsed.
    destruct (env_get (env (this s)) "GDRIVE_SERVICE_ACCOUNT") as [v|];
      [destruct (JSON_parse W v) as [sa|m] eqn:Ev|];
      cbn [mbind option_bind this emit set_this with_accounts serviceAccounts
           length Nat.ltb Nat.leb log];
      try rewrite Ev.
    - exists evs. eexists. split; [rewrite <- !app_assoc; reflexivity|].
      split; [|split; [reflexivity|intros ? ? [= <-]; congruence]].
      unfold fetches in *. now rewrite (count_app is_fetch), Hq.
    - exists evs. eexists. split; [rewrite <- !app_assoc; reflexivity|].
      split; [|split; [reflexivity|]].
      + unfold fetches in *. now rewrite (count_app is_fetch), Hq.
      + intros _ _ _ _. rewrite warnings_read, warnings_warn.
        apply list_elem_of_here.
    - exists evs. eexists. split; [rewrite <- !app_assoc; reflexivity|].
      split; [|split; [reflexivity|discriminate]].
      unfold fetches in *. now rewrite (count_app is_fetch), Hq. }
  destruct Hshape as (evs & tail & Hlog' & Hquiet & Hset & Hwarn).
  assert (Hnew : new_events s s'
                 = pre ++ [EvEnvRead "SERVICE_ACCOUNTS_URL"] ++ evs ++ tail).
  { apply new_events_app. rewrite Hlog'. subst s1. cbn [log emit].
    rewrite Hlog. now rewrite <- !app_assoc. }
  split; [exact Hset|].
  split; [rewrite Hrun; apply load_from_env_loaded|].
  split.
  - rewrite Hnew. unfold fetches in *.
    rewrite !(count_app is_fetch), Hpre.
    rewrite (count_app is_fetch) in Hquiet.
    change (count_events is_fetch [EvEnvRead "SERVICE_ACCOUNTS_URL"]) with 0%nat.
    lia.
  - intros v m Hv Hm. rewrite Hnew, !warnings_app.
    apply elem_of_app. right. apply elem_of_app. right.
    apply elem_of_app. right. exact (Hwarn v m Hv Hm).
Qed.

Lemma legacy_variable_alone_witness :
  let W := Sample.world None Sample.offline (Sample.granting None) in
  let e : gmap string string :=
    {[ "GDRIVE_SERVICE_ACCOUNT" := "{alice}";
       "GDRIVE_SERVICE_ACCOUNT_2" := "{bob}" ]} in
  serviceAccounts
    (this (loadServiceAccounts W (Sample.boot (new_DriveClient e) 0)))
  = [Sample.alice].
Proof.
  intros W e.
  pose proof (legacy_variable_alone W (Sample.boot (new_DriveClient e) 0)
                eq_refl I eq_refl eq_refl eq_refl eq_refl eq_refl) as H.
  destruct H as (Hset & _).
  rewrite Hset. vm_compute. reflexivity.
Defined.

(** ** A malformed blob in the joined value *)

Lemma parse_joined_stops (W : World) (before after : list string)
    (bad m : string) (acc : list ServiceAccount) :
  Forall (fun b => parsed W b <> None)
         (List.filter JsString.truthy (List.map JsString.trim before)) ->
  JsString.truthy (JsString.trim bad) = true ->
  JSON_parse W (JsString.trim bad) = Throws m ->
  parse_joined W (before ++ bad :: after) acc
  = (acc ++ omap (parsed W)
              (List.filter JsString.truthy (List.map JsString.trim before)),
     [EvWarn "Failed to parse GDRIVE_SERVICE_ACCOUNTS"]).
Proof.
  intros Hall Hbad Hm. revert acc Hall.
  induction before as [|b l IH]; intros acc Hall; cbn.
  - rewrite Hbad, Hm. now rewrite app_nil_r.
  - cbn in Hall. destruct (JsString.truthy (JsString.trim b)) eqn:Eb.
    + inversion Hall as [|? ? Hb Hrest]; subst. cbn. unfold parsed in *.
      destruct (JSON_parse W (JsString.trim b)) as [sa|m']; [|congruence].
      rewrite (IH _ Hrest), <- app_assoc. reflexivity.
    + apply IH, Hall.
Qed.

(** X12. The blobs of GDRIVE_SERVICE_ACCOUNTS are read under one try: at
    the first blob that is not well-formed the reading of the joined
    value ends with one warning. The records of the blobs before it are
    kept, the blobs after it are dropped, whether well-formed or not, and
    the numbered keys are still read after the records kept. *)
Theorem joined_value_stops_at_malformed (W : World) (e : gmap string string)
    (v bad m : string) (before after : list string) :
  env_get e "GDRIVE_SERVICE_ACCOUNTS" = Some v ->
  JsString.split "|||" v = before ++ bad :: after ->
  Forall (fun b => parsed W b <> None)
         (List.filter JsString.truthy (List.map JsString.trim before)) ->
  JsString.truthy (JsString.trim bad) = true ->
  JSON_parse W (JsString.trim bad) = Throws m ->
  let kept := omap (parsed W)
                (List.filter JsString.truthy (List.map JsString.trim before)) in
  joined_part W e = kept
  /\ "Failed to parse GDRIVE_SERVICE_ACCOUNTS"
       ∈ warnings (parseServiceAccounts W e).2
  /\ (kept <> [] ->
      (parseServiceAccounts W e).1 = kept ++ numbered_records W e).
Proof.
  intros Hv Hsplit Hall Hbad Hm kept.
  assert (Hj : joined_part W e = kept).
  { unfold joined_part. rewrite Hv, Hsplit.
    now rewrite (parse_joined_stops W before after bad m [] Hall Hbad Hm). }
  split; [exact Hj|]. split.
  - unfold parseServiceAccounts, parse_upto. cbv zeta. cbn [snd].
    rewrite Hv, Hsplit.
    rewrite (parse_joined_stops W before after bad m [] Hall Hbad Hm).
    cbn [fst snd app]. rewrite warnings_read, warnings_warn.
    apply list_elem_of_here.
  - intros Hkept. rewrite <- Hj.
    apply (proj1 (parse_upto_facts W e 100)). left. now rewrite Hj.
Qed.

Lemma joined_value_stops_at_malformed_witness :
  let W := Sample.world None Sample.offline (Sample.granting None) in
  let e : gmap string string :=
    {[ "GDRIVE_SERVICE_ACCOUNTS" := "{alice}||| oops |||{bob}" ]} in
  joined_part W e = [Sample.alice]
  /\ (parseServiceAccounts W e).1 = [Sample.alice].
Proof.
  intros W e.
  destruct (joined_value_stops_at_malformed W e
              "{alice}||| oops |||{bob}" " oops " "SyntaxError"
              ["{alice}"] ["{bob}"])
    as (Hj & _ & Hall); try (vm_compute; reflexivity).
  - repeat constructor. vm_compute. discriminate.
  - split; [rewrite Hj; vm_compute; reflexivity|].
    rewrite Hall; [vm_compute; reflexivity|].
    vm_compute. discriminate.
Defined.

(** ** Resolution and the token calls *)

Lemma call_reads_no_source (W : World) (fuel : nat) (s : Sys) :
  accountsLoaded (this s) = true ->
  exists evs,
    log (getAccessToken W fuel s).2 = log s ++ evs
    /\ count_events is_source_read evs = 0%nat.
Proof.
  revert s. induction fuel as [|fuel IH]; intros s Hl.
  { exists []. cbn [getAccessToken snd]. now rewrite app_nil_r. }
  rewrite (getAccessToken_step W fuel s Hl).
  destruct (getCurrentServiceAccount (this s)) as [sa|].
  - destruct (still_valid _ _).
    { exists []. cbn [snd]. now rewrite app_nil_r. }
    destruct (settled (fetchServiceAccountToken W sa (clock s))) as [td|m] eqn:Er.
    + rewrite (after_mint_ok _ s sa _ td Er). now exists [EvMint sa].
    + rewrite (after_mint_throws _ s sa _ m Er).
      destruct (rotated_fields s sa
                  (settled_at (fetchServiceAccountToken W sa (clock s))))
        as (Hconf & _ & _ & _ & Hlog).
      destruct (1 <? length (serviceAccounts (this s)))%nat.
      * destruct (IH (rotated s sa
                        (settled_at (fetchServiceAccountToken W sa (clock s)))))
          as (evs & Hlg & Hq).
        { destruct Hconf as (_ & _ & _ & _ & _ & -> & _). exact Hl. }
        eexists. split; [rewrite Hlg, Hlog, <- app_assoc; reflexivity|].
        rewrite count_app, Hq. reflexivity.
      * eexists. split; [exact Hlog|reflexivity].
  - unfold oauth_path. cbv zeta.
    destruct (_ || _); [exists []; cbn [snd]; now rewrite app_nil_r|].
    destruct (still_valid _ _); [exists []; cbn [snd]; now rewrite app_nil_r|].
    destruct (settled _); now exists [EvRefresh].
Qed.

(** X21. The sources are consulted by the first call only. A call of
    getAccessToken does what it would do on the client resolved by
    loadServiceAccounts, and however it ends it leaves the client
    resolved, with the Credential Set that resolution gave. Any later
    call on that client, at any later time, imports nothing, fetches no
    URL and reads no environment variable. *)
Theorem sources_read_once (W : World) (fuel : nat) (s : Sys) :
  let out := getAccessToken W (S fuel) s in
  out = getAccessToken W (S fuel) (loadServiceAccounts W s)
  /\ accountsLoaded (this out.2) = true
  /\ serviceAccounts (this out.2)
     = serviceAccounts (this (loadServiceAccounts W s))
  /\ forall (fuel' : nat) (later : Z),
       let s1 := set_clock out.2 later in
       count_events is_source_read
         (new_events s1 (getAccessToken W fuel' s1).2) = 0%nat.
Proof.
  cbv zeta.
  destruct (load_completes W s) as (Hl & _ & _).
  assert (Heq : getAccessToken W (S fuel) s
                = getAccessToken W (S fuel) (loadServiceAccounts W s)).
  { cbn [getAccessToken]. now rewrite (load_when_loaded W _ Hl). }
  split; [exact Heq|]. rewrite Heq.
  destruct (call_footprint W (S fuel) (loadServiceAccounts W s) Hl)
    as (Hconf & _).
  assert (Hl' : accountsLoaded
                  (this (getAccessToken W (S fuel) (loadServiceAccounts W s)).2)
                = true).
  { destruct Hconf as (_ & _ & _ & _ & _ & -> & _). exact Hl. }
  split; [exact Hl'|]. split; [apply Hconf|].
  intros fuel' later.
  destruct (call_reads_no_source W fuel'
              (set_clock
                 (getAccessToken W (S fuel) (loadServiceAccounts W s)).2 later))
    as (evs & Hlog & Hq); [exact Hl'|].
  now rewrite (new_events_app _ _ _ Hlog).
Qed.

End MoreResolverFacts.

(* ===================================================================== *)
(** * More on the listing query and the upload roots *)
(* ===================================================================== *)

Section MoreListingFacts.
Import JsString.

(** ** Escaping of the search term *)

Lemma escape_app (s t : string) :
  escapeQueryValue (s +:+ t) = escapeQueryValue s +:+ escapeQueryValue t.
Proof.
  induction s as [|a s IH]; [reflexivity|].
  rewrite append_cons, !escape_cons, IH. now rewrite append_assoc.
Qed.

Lemma escape_plain (s : string) :
  occurs squote s = false -> escapeQueryValue s = s.
Proof.
  induction s as [|a s IH]; [reflexivity|].
  cbn [occurs]. intros H. apply orb_false_iff in H as [Ha Hs].
  rewrite escape_cons, Ha, (IH Hs). reflexivity.
Qed.

Lemma escape_step (a : ascii) (s : string) :
  escapeQueryValue (String a s)
  = if ascii_eqb a squote
    then String backslash (String squote (escapeQueryValue s))
    else String a (escapeQueryValue s).
Proof. rewrite escape_cons. now destruct (ascii_eqb a squote). Qed.

(** What an escaped term starts with: never an apostrophe. *)
Lemma escape_head (s : string) :
  match escapeQueryValue s with
  | EmptyString => s = EmptyString
  | String a _ => ascii_eqb a squote = false
  end.
Proof.
  destruct s as [|a s]; [reflexivity|].
  rewrite escape_step. destruct (ascii_eqb a squote) eqn:E; [reflexivity|].
  exact E.
Qed.

Lemma escape_inj (s t : string) :
  escapeQueryValue s = escapeQueryValue t -> s = t.
Proof.
  revert t. induction s as [|a s IH]; intros [|b t].
  - reflexivity.
  - rewrite escape_step. destruct (ascii_eqb b squote); discriminate.
  - rewrite escape_step. destruct (ascii_eqb a squote); discriminate.
  - rewrite !escape_step.
    destruct (ascii_eqb a squote) eqn:Ea, (ascii_eqb b squote) eqn:Eb.
    + intros H. injection H as H.
      apply Ascii.eqb_eq in Ea, Eb. subst. now rewrite (IH _ H).
    + intros H. injection H as Hb H.
      pose proof (escape_head t) as Ht. rewrite <- H in Ht. discriminate Ht.
    + intros H. injection H as Ha H.
      pose proof (escape_head s) as Hs. rewrite H in Hs. discriminate Hs.
    + intros H. injection H as -> H. now rewrite (IH _ H).
Qed.

Lemma escape_guarded (s : string) (b : bool) :
  apostrophes_guarded b (escapeQueryValue s) = true.
Proof.
  revert b. induction s as [|a s IH]; intros b; [reflexivity|].
  rewrite escape_step. destruct (ascii_eqb a squote) eqn:E.
  - cbn [apostrophes_guarded].
    change (ascii_eqb backslash squote) with false.
    change (ascii_eqb backslash backslash) with true.
    change (ascii_eqb squote squote) with true.
    change (ascii_eqb squote backslash) with false.
    cbn [negb orb andb]. apply IH.
  - cbn [apostrophes_guarded]. rewrite E. cbn [negb orb andb]. apply IH.
Qed.

(** X13. escapeQueryValue puts a backslash before every apostrophe and
    changes nothing else: it distributes over concatenation, leaves a term
    without apostrophes as it is (a backslash of the term is not
    escaped), every apostrophe of its result comes right after a
    backslash, and two different terms never give the same result. *)
Theorem escapeQueryValue_only_apostrophes :
  (forall s t,
     escapeQueryValue (s +:+ t) = escapeQueryValue s +:+ escapeQueryValue t)
  /\ (forall s, occurs squote s = false -> escapeQueryValue s = s)
  /\ (forall s, apostrophes_guarded false (escapeQueryValue s) = true)
  /\ (forall s t, escapeQueryValue s = escapeQueryValue t -> s = t).
Proof.
  split; [exact escape_app|]. split; [exact escape_plain|].
  split; [intros s; apply escape_guarded|exact escape_inj].
Qed.

Example escape_keeps_backslash :
  escapeQueryValue (String "a" (String backslash EmptyString))
  = String "a" (String backslash EmptyString).
Proof. reflexivity. Qed.

(** ** The query as a whole *)

Lemma join_cons (sep x : string) (l : list string) :
  join sep (x :: l)
  = x +:+ match l with [] => EmptyString | _ :: _ => sep +:+ join sep l end.
Proof.
  unfold join. destruct l as [|y l]; cbn [String.concat].
  - now rewrite append_empty_r.
  - reflexivity.
Qed.

Lemma type_clause_agrees (type : option string) (v : option string) :
  buildTypeClause_of type = Ok v ->
  buildTypeClause type = match v with Some clause => clause | None => EmptyString end.
Proof.
  unfold buildTypeClause_of, buildTypeClause, TYPE_FILTERS_get.
  destruct type as [t|]; [|now intros [= <-]].
  destruct (negb (truthy t)); [now intros [= <-]|].
  destruct (TYPE_FILTERS t) as [[|f [|f' l]]|].
  - now intros [= <-].
  - now intros [= <-].
  - now intros [= <-].
  - repeat match goal with
           | |- context [bool_decide ?P] => destruct (bool_decide P)
           end; try discriminate; now intros [= <-].
Qed.

Lemma type_clause_throws (type : option string) :
  (exists m, buildTypeClause_of type = Throws m)
  <-> exists t, type = Some t /\ t ∈ names_without_join.
Proof.
  unfold names_without_join. split.
  - intros [m H]. unfold buildTypeClause_of, TYPE_FILTERS_get in H.
    destruct type as [t|]; [|discriminate].
    exists t. split; [reflexivity|].
    destruct (negb (truthy t)); [discriminate|].
    destruct (TYPE_FILTERS t) as [[|f [|f' l]]|]; try discriminate.
    destruct (bool_decide_reflect (t = "__proto__")) as [->|_].
    { apply list_elem_of_here. }
    destruct (bool_decide_reflect
                (t ∈ ["__defineGetter__"; "__defineSetter__"])) as [Hin|_].
    { now apply list_elem_of_further. }
    repeat match type of H with
           | context [bool_decide ?P] => destruct (bool_decide P)
           end; discriminate.
  - intros (t & -> & Hin).
    apply elem_of_cons in Hin as [->|Hin]; [eexists; reflexivity|].
    apply elem_of_cons in Hin as [->|Hin]; [eexists; reflexivity|].
    apply elem_of_cons in Hin as [->|Hin]; [eexists; reflexivity|].
    now apply elem_of_nil in Hin.
Qed.

(** X14. For the type names __proto__, __defineGetter__ and
    __defineSetter__, which the table of classes inherits, building the
    query throws and no listing request is made; for every other type
    the query is built, it begins with the clause trashed = false, and
    what follows, if anything, begins with " and ". When no upload root is
    configured, the search term is absent or blank and the type is absent
    or is neither one of the six classes nor one of these three names,
    the query is exactly that clause. *)
Theorem listing_query_excludes_trash (c : DriveClient) (o : ListOptions) :
  ((exists m, listFiles_query c o = Throws m)
   <-> exists t, type_ o = Some t /\ t ∈ names_without_join)
  /\ (forall query,
        listFiles_query c o = Ok query ->
        query = listFiles_q c o
        /\ exists rest,
             query = "trashed = false" +:+ rest
             /\ (rest = EmptyString \/ exists more, rest = " and " +:+ more))
  /\ (parents c = [] ->
      match search o with Some s => trim s | None => EmptyString end
      = EmptyString ->
      match type_ o with
      | Some t => TYPE_FILTERS t = None /\ t ∉ names_without_join
      | None => True
      end ->
      listFiles_query c o = Ok "trashed = false").
Proof.
  split; [|split].
  - rewrite <- type_clause_throws. unfold listFiles_query. cbv zeta.
    destruct (buildTypeClause_of (type_ o)) as [v|m].
    + split; intros [m H]; discriminate H.
    + split; intros _; eauto.
  - intros query H. unfold listFiles_query in H. cbv zeta in H.
    destruct (buildTypeClause_of (type_ o)) as [v|m] eqn:Ev; [|discriminate].
    injection H as <-.
    assert (Hsame : (match v with
                     | Some clause => if truthy clause then [clause] else []
                     | None => []
                     end)
                    = (if truthy (buildTypeClause (type_ o))
                       then [buildTypeClause (type_ o)] else [])).
    { rewrite (type_clause_agrees _ _ Ev). now destruct v. }
    rewrite Hsame. split; [reflexivity|].
    cbn [app]. eexists. split; [apply join_cons|].
    match goal with
    | |- context [match ?l with [] => _ | _ :: _ => _ end] => destruct l
    end; [now left|right; eauto].
  - intros Hp Hs Ht.
    assert (Hok : exists v, buildTypeClause_of (type_ o) = Ok v
                            /\ buildTypeClause (type_ o) = EmptyString).
    { destruct (buildTypeClause_of (type_ o)) as [v|m] eqn:Ev.
      - exists v. split; [reflexivity|].
        unfold buildTypeClause. destruct (type_ o) as [t|]; [|reflexivity].
        destruct Ht as [-> _]. now destruct (negb (truthy t)).
      - exfalso.
        destruct (proj1 (type_clause_throws (type_ o)) (ex_intro _ m Ev))
          as (t & Et & Hin).
        rewrite Et in Ht. now destruct Ht. }
    destruct Hok as (v & Ev & Hempty).
    unfold listFiles_query. cbv zeta. rewrite Ev.
    rewrite parents_clause_truthy, Hp.
    assert (truthy match search o with
                   | Some s => trim s
                   | None => EmptyString
                   end = false) as -> by now rewrite Hs.
    pose proof (type_clause_agrees _ _ Ev) as Hv. rewrite Hempty in Hv.
    destruct v as [clause|]; [|reflexivity].
    now rewrite <- Hv.
Qed.

Lemma listing_query_excludes_trash_witness :
  listFiles_query (new_DriveClient ∅)
    {| pageSize := None; pageToken := None;
       search := Some "   "; type_ := Some "constructor" |}
  = Ok "trashed = false".
Proof.
  apply (proj2 (proj2 (listing_query_excludes_trash _ _))).
  - reflexivity.
  - reflexivity.
  - split; [reflexivity|].
    unfold names_without_join. intros H.
    repeat (apply elem_of_cons in H as [H|H]; [discriminate H|]).
    now apply elem_of_nil in H.
Defined.

Example listing_type_proto_throws :
  let o := handleDashboardFiles_options
             (fun name => if decide (name = "type") then Some "__proto__" else None) in
  listFiles_query (new_DriveClient ∅) o
  = Throws "TypeError: filters.join is not a function".
Proof. reflexivity. Qed.

(** ** The upload roots *)

Lemma split_char_piece (c : ascii) (h : string) (cur : list ascii)
    (rest : string) :
  occurs c h = false ->
  split_go (String c EmptyString) 0 cur (h +:+ rest)
  = split_go (String c EmptyString) 0 (rev (list_ascii_of_string h) ++ cur) rest.
Proof.
  revert cur. induction h as [|a h IH]; intros cur Hh; [reflexivity|].
  cbn [occurs] in Hh. apply orb_false_iff in Hh as [Ha Hh].
  rewrite append_cons. cbn [split_go String.prefix list_ascii_of_string rev].
  destruct (ascii_dec c a) as [<-|_].
  - unfold ascii_eqb in Ha. now rewrite Ascii.eqb_refl in Ha.
  - rewrite (IH _ Hh). now rewrite <- app_assoc.
Qed.

Lemma split_char_sep (c : ascii) (cur : list ascii) (rest : string) :
  split_go (String c EmptyString) 0 cur (String c rest)
  = string_of_list_ascii (rev cur) :: split_go (String c EmptyString) 0 [] rest.
Proof.
  cbn [split_go String.prefix].
  destruct (ascii_dec c c) as [_|N]; [|now destruct N].
  now destruct rest.
Qed.

Lemma split_join (c : ascii) (ids : list string) :
  ids <> [] ->
  Forall (fun id => occurs c id = false) ids ->
  split (String c EmptyString) (join (String c EmptyString) ids) = ids.
Proof.
  intros Hne Hall. unfold split.
  induction ids as [|x [|y l] IH]; [congruence| |].
  - inversion Hall as [|? ? Hx _]; subst.
    rewrite join_cons, (split_char_piece c x [] _ Hx).
    cbn [split_go]. now rewrite rev_chars.
  - inversion Hall as [|? ? Hx Hrest]; subst.
    rewrite join_cons, (split_char_piece c x [] _ Hx).
    change (String c EmptyString +:+ ?r) with (String c r).
    rewrite split_char_sep, rev_chars.
    f_equal. apply IH; [discriminate|exact Hrest].
Qed.

(** X15. The constructor reads the upload roots back from
    DRIVE_UPLOAD_ROOT: when the variable is the comma-join of identifiers
    that hold no comma, the roots of the client are these identifiers,
    trimmed, the blank ones left out, in their order. When the variable
    is not set there is no root, and the parent clause is empty. *)
Theorem upload_roots_read_back (e : gmap string string) :
  (forall ids,
     e !! "DRIVE_UPLOAD_ROOT" = Some (join "," ids) ->
     Forall (fun id => occurs "," id = false) ids ->
     parents (new_DriveClient e) = List.filter truthy (List.map trim ids))
  /\ (e !! "DRIVE_UPLOAD_ROOT" = None ->
      parents (new_DriveClient e) = []
      /\ buildParentsQuery (new_DriveClient e) = EmptyString)
  /\ (forall p, In p (parents (new_DriveClient e)) -> truthy p = true).
Proof.
  split; [|split].
  - intros ids He Hall. cbn [new_DriveClient parents]. rewrite He.
    cbn [or_else].
    assert (Hv : (if truthy (join "," ids) then join "," ids else EmptyString)
                 = join "," ids) by now destruct (join "," ids).
    rewrite Hv. destruct ids as [|x l]; [reflexivity|].
    fold (split "," (join "," (x :: l))).
    now rewrite (split_join "," (x :: l)).
  - intros He. unfold buildParentsQuery. cbn [new_DriveClient parents].
    rewrite He. split; reflexivity.
  - intros p Hp. cbn [new_DriveClient parents] in Hp.
    apply List.filter_In in Hp. apply Hp.
Qed.

Lemma upload_roots_read_back_witness :
  parents (new_DriveClient {[ "DRIVE_UPLOAD_ROOT" := "r1, ,r2 " ]})
  = ["r1"; "r2"].
Proof.
  rewrite (proj1 (upload_roots_read_back
                    {[ "DRIVE_UPLOAD_ROOT" := "r1, ,r2 " ]})
             ["r1"; " "; "r2 "]).
  - reflexivity.
  - reflexivity.
  - repeat constructor.
Defined.

(** ** The page size that the dashboard asks for *)

(** X16. Whatever the pageSize parameter of a dashboard request is, the
    page size sent to Drive lies in [1, 100]: it is the integer that the
    parameter begins with (after white space and a sign) when that is
    between 1 and 100, it is 100 when that integer is larger and still a
    finite Number, and it is the default 24 in every other case: no
    parameter, no leading digit, zero, a negative integer, or a run of
    digits too long for a finite Number. A negative request thus gives
    24 through the handler, where listFiles alone would send 1. *)
Theorem dashboard_page_size (get : string -> option string) :
  let o := handleDashboardFiles_options get in
  1 <= safeSize o <= 100
  /\ safeSize o
     = match parseInt (or_else (get "pageSize") EmptyString) with
       | Some p =>
           if (p <=? 0) || negb (Number_isFinite p) then 24
           else if p <=? 100 then p
           else 100
       | None => 24
       end.
Proof.
  cbv zeta. unfold safeSize, handleDashboardFiles_options, dashboard_pageSize,
    MAX_LIST_PAGE_SIZE, DEFAULT_FILE_PAGE_SIZE.
  cbn [pageSize].
  destruct (parseInt (or_else (get "pageSize") EmptyString)) as [p|];
    [|split; [lia|reflexivity]].
  destruct (Number_isFinite p); cbn [negb andb orb].
  - destruct (Z.ltb_spec 0 p), (Z.leb_spec p 0); try lia; cbn [orb].
    + destruct (Z.eqb_spec p 0); [lia|].
      destruct (Z.leb_spec p 100); lia.
    + split; [lia|reflexivity].
  - rewrite orb_true_r. split; [lia|reflexivity].
Qed.

Example dashboard_page_sizes :
  let sent param :=
    safeSize (handleDashboardFiles_options
                (fun name => if decide (name = "pageSize") then param else None)) in
  sent None = 24
  /\ sent (Some "") = 24
  /\ sent (Some "abc") = 24
  /\ sent (Some "0") = 24
  /\ sent (Some "-5") = 24
  /\ sent (Some " 7") = 7
  /\ sent (Some "12abc") = 12
  /\ sent (Some "1e3") = 1
  /\ sent (Some "250") = 100
  /\ safeSize {| pageSize := Some (-5); pageToken := None;
                 search := None; type_ := None |} = 1.
Proof. cbv zeta. repeat split. Qed.

Example dashboard_type_is_lowered :
  let o := handleDashboardFiles_options
             (fun name => if decide (name = "type") then Some "Images" else None) in
  listFiles_q (new_DriveClient ∅) o
  = "trashed = false and mimeType contains 'image/'".
Proof. reflexivity. Qed.

End MoreListingFacts.

(* ===================================================================== *)
(** * Properties of the file count *)
(* ===================================================================== *)

Section CountingFacts.

Variable St : Type.
Variable fetchJson : string -> St -> Reply Page * St.
Variable toString : list (string * string) -> string.

(** ** The page token among the parameters *)

Lemma delete_absent (name : string) (l : list (string * string)) :
  Forall (fun p => p.1 <> name) l -> params_delete name l = l.
Proof.
  unfold params_delete.
  induction 1 as [|[k v] l Hk _ IH]; [reflexivity|].
  cbn [List.filter fst] in *.
  rewrite bool_decide_eq_false_2 by exact Hk. cbn [negb]. now rewrite IH.
Qed.

Lemma delete_last (name t : string) (l : list (string * string)) :
  Forall (fun p => p.1 <> name) l ->
  params_delete name (l ++ [(name, t)]) = l.
Proof.
  intros H. unfold params_delete. rewrite List.filter_app.
  fold (params_delete name l). rewrite (delete_absent _ _ H).
  cbn [List.filter fst]. rewrite bool_decide_eq_true_2 by reflexivity.
  cbn [negb]. apply app_nil_r.
Qed.

Lemma set_absent (name value : string) (l : list (string * string)) :
  Forall (fun p => p.1 <> name) l ->
  params_set name value l = l ++ [(name, value)].
Proof.
  induction 1 as [|[k v] l Hk _ IH]; [reflexivity|].
  cbn [params_set fst app] in *.
  rewrite bool_decide_eq_false_2 by exact Hk. now rewrite IH.
Qed.

Lemma set_last (name value t : string) (l : list (string * string)) :
  Forall (fun p => p.1 <> name) l ->
  params_set name value (l ++ [(name, t)]) = l ++ [(name, value)].
Proof.
  induction 1 as [|[k v] l Hk _ IH].
  - cbn [params_set app]. rewrite bool_decide_eq_true_2 by reflexivity.
    reflexivity.
  - cbn [params_set fst app] in *.
    rewrite bool_decide_eq_false_2 by exact Hk. now rewrite IH.
Qed.

Lemma params_step (params0 params : list (string * string))
    (next : option string) :
  Forall (fun p => p.1 <> "pageToken") params0 ->
  shaped params0 params ->
  (if JsString.truthy_opt next
   then params_set "pageToken"
          (match next with Some t => t | None => EmptyString end) params
   else params_delete "pageToken" params)
  = params_after params0 next.
Proof.
  intros H0 [->|[t ->]]; unfold params_after;
    destruct next as [[|a t']|]; cbn [JsString.truthy_opt JsString.truthy].
  - now apply delete_absent.
  - now apply set_absent.
  - now apply delete_absent.
  - now apply delete_last.
  - now apply set_last.
  - now apply delete_last.
Qed.

Lemma after_shaped (params0 : list (string * string)) (next : option string) :
  shaped params0 (params_after params0 next).
Proof.
  unfold params_after, shaped.
  destruct next as [[|a t]|]; cbn [JsString.truthy]; eauto.
Qed.

Lemma count_params_no_token (c : DriveClient) :
  Forall (fun p => p.1 <> "pageToken") (countFiles_params c).
Proof. unfold countFiles_params. repeat constructor; discriminate. Qed.

(** ** One pass of the loop *)

Lemma count_pages_step (params0 : list (string * string)) (fuel : nat)
    (M : Z) (params : list (string * string)) (next : option string)
    (total folders page : Z) (st : St) (sent : list (string * Reply Page)) :
  Forall (fun p => p.1 <> "pageToken") params0 ->
  shaped params0 params ->
  count_pages St fetchJson toString (S fuel) M params next total folders page
    st sent
  = let url := files_url toString (params_after params0 next) in
    match fetchJson url st with
    | (Gives response, st1) =>
        let sent1 := sent ++ [(url, Gives response)] in
        let total1 := total + Z.of_nat (length (files_of response)) in
        let folders1 :=
          folders
          + Z.of_nat (length (List.filter is_folder (files_of response))) in
        let result :=
          Gives {| totalFiles := total1; folderCount := folders1;
                   complete :=
                     negb (JsString.truthy_opt (nextPageToken response)) |} in
        if negb (JsString.truthy_opt (nextPageToken response))
        then Some (result, st1, sent1)
        else if page + 1 <? M
             then count_pages St fetchJson toString fuel M
                    (params_after params0 next) (nextPageToken response)
                    total1 folders1 (page + 1) st1 sent1
             else Some (result, st1, sent1)
    | (Fails m, st1) => Some (Fails m, st1, sent ++ [(url, Fails m)])
    | (NeverSettles, st1) =>
        Some (NeverSettles, st1, sent ++ [(url, NeverSettles)])
    end.
Proof.
  intros H0 Hs. cbn [count_pages]. cbv zeta.
  rewrite (params_step params0 params next H0 Hs). reflexivity.
Qed.

(** With a unit of fuel for each pass that the bound allows, the loop
    ends. *)
Lemma count_pages_returns (params0 : list (string * string)) (M : Z) :
  Forall (fun p => p.1 <> "pageToken") params0 ->
  forall (fuel : nat) params next total folders page st sent,
    shaped params0 params ->
    Z.max 1 (M - page) <= Z.of_nat fuel ->
    exists out st' new,
      count_pages St fetchJson toString fuel M params next total folders page
        st sent
      = Some (out, st', sent ++ new)
      /\ 1 <= Z.of_nat (length new) <= Z.max 1 (M - page).
Proof.
  intros H0. induction fuel as [|fuel IH];
    intros params next total folders page st sent Hs Hfuel; [lia|].
  rewrite (count_pages_step params0) by assumption. cbv zeta.
  destruct (fetchJson _ st) as [[response|m|] st1].
  - destruct (negb (JsString.truthy_opt (nextPageToken response))).
    { eexists _, _, [_]. split; [reflexivity|]. cbn [length]. lia. }
    destruct (Z.ltb_spec (page + 1) M) as [Hlt|Hge].
    + edestruct (IH (params_after params0 next) (nextPageToken response))
        as (out & st' & new & Hrun & Hlen);
        [apply after_shaped| |rewrite Hrun].
      * lia.
      * eexists out, st', (_ :: new). rewrite <- app_assoc.
        split; [reflexivity|]. cbn [length]. lia.
    + eexists _, _, [_]. split; [reflexivity|]. cbn [length]. lia.
  - eexists _, _, [_]. split; [reflexivity|]. cbn [length]. lia.
  - eexists _, _, [_]. split; [reflexivity|]. cbn [length]. lia.
Qed.

(** More fuel than the loop uses changes nothing. *)
Lemma count_pages_more_fuel (params0 : list (string * string)) (M : Z) :
  Forall (fun p => p.1 <> "pageToken") params0 ->
  forall (fuel fuel' : nat) params next total folders page st sent x,
    shaped params0 params ->
    (fuel <= fuel')%nat ->
    count_pages St fetchJson toString fuel M params next total folders page
      st sent = Some x ->
    count_pages St fetchJson toString fuel' M params next total folders page
      st sent = Some x.
Proof.
  intros H0. induction fuel as [|fuel IH];
    intros fuel' params next total folders page st sent x Hs Hle Hrun;
    [discriminate|].
  destruct fuel' as [|fuel']; [lia|].
  rewrite (count_pages_step params0) in Hrun |- * by assumption.
  cbv zeta in *.
  destruct (fetchJson _ st) as [[response|m|] st1]; try exact Hrun.
  destruct (negb (JsString.truthy_opt (nextPageToken response)));
    [exact Hrun|].
  destruct (page + 1 <? M); [|exact Hrun].
  apply (IH fuel'); [apply after_shaped|lia|exact Hrun].
Qed.

Lemma pages_of_page (u : string) (p : Page)
    (l : list (string * Reply Page)) :
  pages_of ((u, Gives p) :: l) = p :: pages_of l.
Proof. reflexivity. Qed.

(** What a finished loop has done. *)
Lemma count_pages_facts (params0 : list (string * string)) (M : Z) :
  Forall (fun p => p.1 <> "pageToken") params0 ->
  forall (fuel : nat) params next total folders page st sent out st' sent',
    shaped params0 params ->
    count_pages St fetchJson toString fuel M params next total folders page
      st sent = Some (out, st', sent') ->
    exists new,
      sent' = sent ++ new
      /\ (exists r,
            new !! 0%nat
            = Some (files_url toString (params_after params0 next), r))
      /\ (forall i u p u' r',
            new !! i = Some (u, Gives p) -> new !! S i = Some (u', r') ->
            JsString.truthy_opt (nextPageToken p) = true
            /\ u' = files_url toString
                      (params_after params0 (nextPageToken p)))
      /\ (forall i u r,
            new !! i = Some (u, r) -> (S i < length new)%nat ->
            exists p, r = Gives p)
      /\ (forall c, out = Gives c ->
            length (pages_of new) = length new
            /\ totalFiles c
               = total
                 + sum_Z (List.map (fun p => Z.of_nat (length (files_of p)))
                            (pages_of new))
            /\ folderCount c
               = folders
                 + sum_Z (List.map
                            (fun p => Z.of_nat
                                        (length (List.filter is_folder
                                                   (files_of p))))
                            (pages_of new))
            /\ (exists p, last (pages_of new) = Some p
                  /\ complete c
                     = negb (JsString.truthy_opt (nextPageToken p)))
            /\ (complete c = false ->
                Z.of_nat (length new) = Z.max 1 (M - page)))
      /\ (forall m, out = Fails m -> exists u, last new = Some (u, Fails m))
      /\ (out = NeverSettles -> exists u, last new = Some (u, NeverSettles)).
Proof.
  intros H0. induction fuel as [|fuel IH];
    intros params next total folders page st sent out st' sent' Hs Hrun;
    [discriminate|].
  rewrite (count_pages_step params0) in Hrun by assumption. cbv zeta in Hrun.
  set (url := files_url toString (params_after params0 next)) in *.
  assert (Hone : forall (r : Reply Page),
            (exists r0, [(url, r)] !! 0%nat = Some (url, r0))
            /\ (forall i u p u' r',
                  [(url, r)] !! i = Some (u, Gives p) ->
                  [(url, r)] !! S i = Some (u', r') ->
                  JsString.truthy_opt (nextPageToken p) = true
                  /\ u' = files_url toString
                            (params_after params0 (nextPageToken p)))
            /\ (forall i u r0,
                  [(url, r)] !! i = Some (u, r0) ->
                  (S i < length [(url, r)])%nat ->
                  exists p, r0 = Gives p)).
  { intros r. split; [eauto|]. split.
    - intros i u p u' r' _ H. destruct i; discriminate H.
    - intros i u r0 _ H. cbn in H. lia. }
  destruct (fetchJson url st) as [[response|m|] st1].
  - destruct (JsString.truthy_opt (nextPageToken response)) eqn:Hnext;
      cbn [negb] in Hrun.
    + destruct (Z.ltb_spec (page + 1) M) as [Hlt|Hge].
      * destruct (IH _ _ _ _ _ _ _ _ _ _ (after_shaped params0 next) Hrun)
          as (new & -> & [r1 Hfirst] & Hchain & Hpages & Hgives & Hfails & Hnever).
        exists ((url, Gives response) :: new).
        split; [now rewrite <- app_assoc|].
        split; [eauto|]. split; [|split; [|split; [|split]]].
        -- intros [|i] u p u' r' Hi Hsi.
           ++ injection Hi as <- <-.
              change (new !! 0%nat = Some (u', r')) in Hsi.
              rewrite Hfirst in Hsi. injection Hsi as <- <-. now split.
           ++ exact (Hchain i u p u' r' Hi Hsi).
        -- intros [|i] u r Hi Hlt'.
           ++ injection Hi as <- <-. eauto.
           ++ apply (Hpages i u r Hi). cbn [length] in Hlt'. lia.
        -- intros c Hc.
           destruct (Hgives c Hc) as (Hlen & Htot & Hfold & (p & Hlast & Hcomp) & Hstop).
           rewrite pages_of_page. cbn [length List.map sum_Z fold_right].
           fold (sum_Z (List.map (fun p => Z.of_nat (length (files_of p)))
                          (pages_of new))).
           fold (sum_Z (List.map
                          (fun p => Z.of_nat
                                      (length (List.filter is_folder
                                                 (files_of p))))
                          (pages_of new))).
           split; [now rewrite Hlen|]. split; [lia|]. split; [lia|].
           split.
           ++ exists p. split; [|exact Hcomp].
              destruct (pages_of new) as [|p0 ps]; [discriminate Hlast|].
              rewrite last_cons. now rewrite Hlast.
           ++ intros Hf. specialize (Hstop Hf). lia.
        -- intros m Hm. destruct (Hfails m Hm) as [u Hu]. exists u.
           destruct new as [|x new]; [discriminate Hu|].
           rewrite last_cons. now rewrite Hu.
        -- intros Hn. destruct (Hnever Hn) as [u Hu]. exists u.
           destruct new as [|x new]; [discriminate Hu|].
           rewrite last_cons. now rewrite Hu.
      * injection Hrun as <- <- <-.
        exists [(url, Gives response)]. split; [reflexivity|].
        destruct (Hone (Gives response)) as (H1 & H2 & H3).
        split; [exact H1|]. split; [exact H2|]. split; [exact H3|].
        split; [|split; discriminate].
        intros c [= <-]. cbn [pages_of omap list_omap snd length List.map
                              sum_Z fold_right totalFiles folderCount complete].
        split; [reflexivity|]. split; [lia|]. split; [lia|].
        split; [exists response; split; [reflexivity|now rewrite Hnext]|].
        intros _. lia.
    + injection Hrun as <- <- <-.
      exists [(url, Gives response)]. split; [reflexivity|].
      destruct (Hone (Gives response)) as (H1 & H2 & H3).
      split; [exact H1|]. split; [exact H2|]. split; [exact H3|].
      split; [|split; discriminate].
      intros c [= <-]. cbn [pages_of omap list_omap snd length List.map
                            sum_Z fold_right totalFiles folderCount complete].
      split; [reflexivity|]. split; [lia|]. split; [lia|].
      split; [exists response; split; [reflexivity|now rewrite Hnext]|].
      discriminate.
  - injection Hrun as <- <- <-.
    exists [(url, Fails m)]. split; [reflexivity|].
    destruct (Hone (Fails m)) as (H1 & H2 & H3).
    split; [exact H1|]. split; [exact H2|]. split; [exact H3|].
    split; [discriminate|]. split; [|discriminate].
    intros m' [= <-]. now exists url.
  - injection Hrun as <- <- <-.
    exists [(url, NeverSettles)]. split; [reflexivity|].
    destruct (Hone NeverSettles) as (H1 & H2 & H3).
    split; [exact H1|]. split; [exact H2|]. split; [exact H3|].
    split; [discriminate|]. split; [discriminate|].
    intros _. now exists url.
Qed.

Lemma folders_among_files (pages : list Page) :
  0 <= sum_Z (List.map
                (fun p => Z.of_nat (length (List.filter is_folder (files_of p))))
                pages)
    <= sum_Z (List.map (fun p => Z.of_nat (length (files_of p))) pages).
Proof.
  induction pages as [|p pages IH]; cbn [List.map sum_Z fold_right]; [lia|].
  fold (sum_Z (List.map (fun p => Z.of_nat (length (files_of p))) pages)).
  fold (sum_Z (List.map
                 (fun p => Z.of_nat (length (List.filter is_folder (files_of p))))
                 pages)).
  pose proof (List.filter_length_le is_folder (files_of p)). lia.
Qed.

Lemma countFiles_run (fuel : nat) (c : DriveClient) (maxPages : option Z)
    (st : St) :
  countFiles St fetchJson toString fuel c maxPages st
  = count_pages St fetchJson toString fuel
      (match maxPages with Some m => m | None => FILE_COUNT_MAX_PAGES end)
      (countFiles_params c) None 0 0 0 st [].
Proof. reflexivity. Qed.

(** X17. countFiles always comes to an end, after at least one and at
    most max(1, maxPages) requests (20 by default): with that much fuel
    the loop is over, and more fuel gives the same. A bound of zero or
    less still sends one request. When the call ends with an error, or
    never ends, it is the last request that did so; every reply before
    the last one was a page. *)
Theorem countFiles_stops_within_budget (c : DriveClient)
    (maxPages : option Z) (st : St) :
  exists out st' sent,
    countFiles St fetchJson toString (Z.to_nat (page_budget maxPages)) c
      maxPages st = Some (out, st', sent)
    /\ 1 <= Z.of_nat (length sent) <= page_budget maxPages
    /\ (forall fuel, (Z.to_nat (page_budget maxPages) <= fuel)%nat ->
          countFiles St fetchJson toString fuel c maxPages st
          = Some (out, st', sent))
    /\ (forall i u r, sent !! i = Some (u, r) -> (S i < length sent)%nat ->
          exists p, r = Gives p)
    /\ (forall m, out = Fails m -> exists u, last sent = Some (u, Fails m))
    /\ (out = NeverSettles -> exists u, last sent = Some (u, NeverSettles)).
Proof.
  pose proof (count_params_no_token c) as H0.
  set (M := match maxPages with Some m => m | None => FILE_COUNT_MAX_PAGES end).
  assert (Hb : page_budget maxPages = Z.max 1 (M - 0)).
  { unfold page_budget. fold M. now rewrite Z.sub_0_r. }
  destruct (count_pages_returns (countFiles_params c) M H0
              (Z.to_nat (page_budget maxPages)) (countFiles_params c)
              None 0 0 0 st [])
    as (out & st' & new & Hrun & Hlen); [now left|lia|].
  cbn [app] in Hrun.
  exists out, st', new. rewrite countFiles_run. fold M.
  split; [exact Hrun|]. split; [lia|]. split.
  - intros fuel Hfuel. rewrite countFiles_run. fold M.
    apply (count_pages_more_fuel (countFiles_params c) M H0
             (Z.to_nat (page_budget maxPages)) fuel); [now left|lia|exact Hrun].
  - destruct (count_pages_facts (countFiles_params c) M H0 _ _ _ _ _ _ _ _ _ _ _
                (or_introl eq_refl) Hrun)
      as (new' & Heq & _ & _ & Hpages & _ & Hfails & Hnever).
    cbn [app] in Heq. subst new'. auto.
Qed.

(** X18. When countFiles gives counts, every reply was a page;
    totalFiles is the number of files of all the pages received and
    folderCount the number of those whose mimeType is
    application/vnd.google-apps.folder, so that 0 <= folderCount <=
    totalFiles; complete tells whether the last page received came
    without a nextPageToken (absent or empty), and a count that is not
    complete has used all the max(1, maxPages) requests. *)
Theorem countFiles_totals (fuel : nat) (c : DriveClient)
    (maxPages : option Z) (st st' : St) (counts : Counts)
    (sent : list (string * Reply Page)) :
  countFiles St fetchJson toString fuel c maxPages st
  = Some (Gives counts, st', sent) ->
  length (pages_of sent) = length sent
  /\ totalFiles counts
     = sum_Z (List.map (fun p => Z.of_nat (length (files_of p)))
                (pages_of sent))
  /\ folderCount counts
     = sum_Z (List.map
                (fun p => Z.of_nat (length (List.filter is_folder (files_of p))))
                (pages_of sent))
  /\ 0 <= folderCount counts <= totalFiles counts
  /\ (exists p, last (pages_of sent) = Some p
        /\ complete counts = negb (JsString.truthy_opt (nextPageToken p)))
  /\ (complete counts = false ->
      Z.of_nat (length sent) = page_budget maxPages).
Proof.
  intros Hrun. rewrite countFiles_run in Hrun.
  destruct (count_pages_facts (countFiles_params c) _ (count_params_no_token c)
              _ _ _ _ _ _ _ _ _ _ _ (or_introl eq_refl) Hrun)
    as (new & Heq & _ & _ & _ & Hgives & _).
  cbn [app] in Heq. subst new.
  destruct (Hgives counts eq_refl) as (Hlen & Htot & Hfold & Hlast & Hstop).
  rewrite Z.add_0_l in Htot, Hfold. rewrite Z.sub_0_r in Hstop.
  split; [exact Hlen|]. split; [exact Htot|]. split; [exact Hfold|].
  split; [rewrite Htot, Hfold; apply folders_among_files|].
  split; [exact Hlast|exact Hstop].
Qed.

(** X19. The first request of countFiles carries the fixed parameters and
    no pageToken. Every later request follows a page that came with a
    non-empty nextPageToken and carries the same parameters followed by
    that token as its only pageToken. *)
Theorem countFiles_follows_tokens (fuel : nat) (c : DriveClient)
    (maxPages : option Z) (st st' : St) (out : Reply Counts)
    (sent : list (string * Reply Page)) :
  countFiles St fetchJson toString fuel c maxPages st
  = Some (out, st', sent) ->
  (exists r,
     sent !! 0%nat = Some (files_url toString (countFiles_params c), r))
  /\ (forall i u u' r r',
        sent !! i = Some (u, r) -> sent !! S i = Some (u', r') ->
        exists p t,
          r = Gives p /\ nextPageToken p = Some t
          /\ JsString.truthy t = true
          /\ u' = files_url toString
                    (countFiles_params c ++ [("pageToken", t)])).
Proof.
  intros Hrun. rewrite countFiles_run in Hrun.
  destruct (count_pages_facts (countFiles_params c) _ (count_params_no_token c)
              _ _ _ _ _ _ _ _ _ _ _ (or_introl eq_refl) Hrun)
    as (new & Heq & Hfirst & Hchain & Hpages & _).
  cbn [app] in Heq. subst new.
  split; [exact Hfirst|].
  intros i u u' r r' Hi Hsi.
  destruct (Hpages i u r Hi) as [p ->].
  { apply lookup_lt_Some in Hsi. lia. }
  destruct (Hchain i u p u' r' Hi Hsi) as [Ht ->].
  destruct (nextPageToken p) as [t|] eqn:Hp; [|discriminate Ht].
  exists p, t. cbn [JsString.truthy_opt] in Ht.
  split; [reflexivity|]. split; [exact Hp|]. split; [exact Ht|].
  unfold params_after. now rewrite Ht.
Qed.

End CountingFacts.

Lemma countFiles_totals_witness :
  let folder := {| mimeType := Some "application/vnd.google-apps.folder" |} in
  let image := {| mimeType := Some "image/png" |} in
  let script :=
    [Gives {| files := Some [folder; image]; nextPageToken := Some "t1" |};
     Gives {| files := None; nextPageToken := Some "t2" |};
     Gives {| files := Some [image]; nextPageToken := None |}] in
  exists st' sent,
    countFiles _ scripted plain_toString 2 (new_DriveClient ∅) (Some 2) script
    = Some (Gives {| totalFiles := 2; folderCount := 1; complete := false |},
            st', sent)
    /\ Z.of_nat (length sent) = 2.
Proof.
  intros folder image script.
  eexists _, _. split; [reflexivity|].
  eapply (countFiles_totals _ scripted plain_toString 2 (new_DriveClient ∅)
            (Some 2) script).
  - reflexivity.
  - reflexivity.
Defined.

Lemma countFiles_follows_tokens_witness :
  let script :=
    [Gives {| files := None; nextPageToken := Some "t1" |};
     Gives {| files := None; nextPageToken := Some "" |}] in
  exists out st' sent u r,
    countFiles _ scripted plain_toString 20 (new_DriveClient ∅) None script
    = Some (out, st', sent)
    /\ sent !! 1%nat = Some (u, r)
    /\ u = "https://www.googleapis.com/drive/v3/files?fields=nextPageToken,files(mimeType)&pageSize=1000&supportsAllDrives=true&includeItemsFromAllDrives=true&spaces=drive&q=trashed = false&pageToken=t1".
Proof.
  intros script.
  eexists _, _, _, _, _. split; [reflexivity|]. split; [reflexivity|].
  destruct (countFiles_follows_tokens _ scripted plain_toString 20
              (new_DriveClient ∅) None script _ _ _ eq_refl)
    as (_ & Hnext).
  destruct (Hnext 0%nat _ _ _ _ eq_refl eq_refl)
    as (p & t & Hp & Ht & _ & ->).
  injection Hp as <-. injection Ht as <-. reflexivity.
Defined.

(* ===================================================================== *)
(** * More on the base64url encoder *)
(* ===================================================================== *)

Section MoreBase64Facts.
Import JsString Base64.

Lemma encode_length (s : string) :
  (3 * String.length (base64UrlEncode s) = 4 * String.length s
     + match (String.length s mod 3)%nat with
       | 0 => 0
       | 1 => 2
       | _ => 1
       end)%nat.
Proof.
  induction s as [|a|a b|a b c s IH] using string_ind3.
  - reflexivity.
  - rewrite encode_1. reflexivity.
  - rewrite encode_2. reflexivity.
  - rewrite encode_3. cbv zeta. cbn [String.length].
    replace (S (S (S (String.length s))))
      with (String.length s + 1 * 3)%nat by lia.
    rewrite Nat.Div0.mod_add. lia.
Qed.

(** X20. base64UrlEncode loses nothing and pads nothing: for every binary
    string, decoding its result as unpadded base64url gives the string
    back, so that two different inputs never encode alike; the result
    holds only the 64 characters A-Z a-z 0-9 - _ (no +, / or =); and n
    bytes give ceil(4n/3) characters. The signature segment of an
    assertion is the same encoding of the signature bytes. *)
Theorem base64UrlEncode_round_trip :
  (forall s, base64UrlDecode (base64UrlEncode s) = Some s)
  /\ (forall s t, base64UrlEncode s = base64UrlEncode t -> s = t)
  /\ (forall s, all_chars is_url_digit (base64UrlEncode s) = true)
  /\ (forall s, String.length (base64UrlEncode s)
                = ((4 * String.length s + 2) / 3)%nat)
  /\ (forall raw, to_url (arrayBufferToBase64 raw) = base64UrlEncode raw).
Proof.
  split; [exact decode_encode|]. split; [|split; [exact encode_alphabet|split]].
  - intros s t H.
    assert (Some s = Some t) as [= ->]; [|reflexivity].
    rewrite <- (decode_encode s), <- (decode_encode t). now rewrite H.
  - intros s. pose proof (encode_length s) as H.
    pose proof (Nat.mod_upper_bound (String.length s) 3 ltac:(lia)) as Hm.
    pose proof (Nat.div_mod_eq (String.length s) 3) as Hd.
    remember (String.length s mod 3)%nat as r.
    remember (String.length s / 3)%nat as k.
    assert (Hcase : (r = 0 \/ r = 1 \/ r = 2)%nat) by lia.
    destruct Hcase as [->|[->| ->]].
    + replace (4 * String.length s + 2)%nat with (2 + 4 * k * 3)%nat by lia.
      rewrite Nat.div_add by lia. cbn [Nat.div Nat.divmod fst] . lia.
    + replace (4 * String.length s + 2)%nat with (0 + (4 * k + 2) * 3)%nat by lia.
      rewrite Nat.div_add by lia. cbn. lia.
    + replace (4 * String.length s + 2)%nat with (1 + (4 * k + 3) * 3)%nat by lia.
      rewrite Nat.div_add by lia. cbn. lia.
  - reflexivity.
Qed.

End MoreBase64Facts.
